(** * ThumbHash (trancee/thumbhash, js/thumbhash.js): a shallow embedding

    The JavaScript module is embedded function by function.  Integer-valued
    JavaScript numbers (sizes, loop counters, bytes, the results of the
    bitwise operators) are [Z]; the bitwise operators wrap to 32 bits as
    ECMAScript says.  Numbers that take part in floating-point arithmetic are
    values of an IEEE-754 binary64 interface [Float64], which has an
    executable instance on Rocq's primitive floats.  [Math.cos] is
    implementation-approximated in ECMAScript, so it is an operation of the
    interface and a parameter of that instance. *)

From Stdlib Require Ascii String.
From Stdlib Require Import ZArith QArith Qround Qabs Bool List Lia Lra Lqa Floats.
Import ListNotations.
Open Scope Z_scope.

(** ** ECMAScript integer conversions and bitwise operators *)

Module JS.

Definition ToInt32 (z : Z) : Z := (z + 2 ^ 31) mod 2 ^ 32 - 2 ^ 31.
Definition ToUint32 (z : Z) : Z := z mod 2 ^ 32.
Definition ToUint8 (z : Z) : Z := z mod 256.

  (** [a | b], [a & b], [a ^ b], [~a] *)
Definition bor (a b : Z) : Z := Z.lor (ToInt32 a) (ToInt32 b).
Definition band (a b : Z) : Z := Z.land (ToInt32 a) (ToInt32 b).
Definition bxor (a b : Z) : Z := Z.lxor (ToInt32 a) (ToInt32 b).
Definition bnot (a : Z) : Z := Z.lnot (ToInt32 a).

  (** [a << k], [a >> k], [a >>> k]: the count is taken modulo 32 *)
Definition shl (a k : Z) : Z := ToInt32 (Z.shiftl (ToInt32 a) (k mod 32)).
Definition sar (a k : Z) : Z := Z.shiftr (ToInt32 a) (k mod 32).
Definition shr (a k : Z) : Z := Z.shiftr (ToUint32 a) (k mod 32).

End JS.

(** ** Arrays

    A JavaScript array is a list.  Writing at an index past the end extends
    the array (the skipped slots are holes); [hole] is what a hole is read
    as by the code that uses the array. *)

Definition arr_get {A} (hole : A) (a : list A) (i : Z) : A :=
  if i <? 0 then hole else nth (Z.to_nat i) a hole.

Fixpoint list_upd {A} (a : list A) (i : nat) (v : A) : list A :=
  match a, i with
  | [], _ => []
  | _ :: t, O => v :: t
  | x :: t, S j => x :: list_upd t j v
  end.

Definition arr_set {A} (hole : A) (a : list A) (i : Z) (v : A) : list A :=
  if i <? 0 then a
  else if i <? Z.of_nat (length a) then list_upd a (Z.to_nat i) v
  else a ++ repeat hole (Z.to_nat i - length a) ++ [v].

(** A typed array has a fixed length: a write out of range is ignored. *)
Definition typed_set {A} (a : list A) (i : Z) (v : A) : list A :=
  if (0 <=? i) && (i <? Z.of_nat (length a)) then list_upd a (Z.to_nat i) v else a.

(** ** Loops *)

(** [for (i = lo; i < hi; i++) s = body i s] *)
Fixpoint iter_from {S} (k : nat) (i : Z) (body : Z -> S -> S) (s : S) : S :=
  match k with
  | O => s
  | Datatypes.S k' => iter_from k' (i + 1) body (body i s)
  end.

Definition for_range {S} (lo hi : Z) (body : Z -> S -> S) (s : S) : S :=
  iter_from (Z.to_nat (hi - lo)) lo body s.

(** Outcome of a call: a value, a thrown error, or the loop budget ran out. *)
Inductive error := DimensionError (w h : Z) | ConfigurationError (terms : Z)
                 | InvalidCharacterError | RangeError.

Inductive result (A : Type) :=
| Ok (a : A)
| Throw (e : error)
| OutOfFuel.
Arguments Ok {A} a.
Arguments Throw {A} e.
Arguments OutOfFuel {A}.

Definition bind {A B} (m : result A) (k : A -> result B) : result B :=
  match m with
  | Ok a => k a
  | Throw e => Throw e
  | OutOfFuel => OutOfFuel
  end.

Notation "x <- m ;; k" := (bind m (fun x => k))
  (at level 61, m at next level, right associativity).
Notation "' p <- m ;; k" := (bind m (fun x => let p := x in k))
  (at level 61, p pattern, m at next level, right associativity).

(** [for (i = lo; i < hi; i++)] with a body that may itself run a loop *)
Fixpoint iter_fromM {S} (k : nat) (i : Z) (body : Z -> S -> result S) (s : S)
  : result S :=
  match k with
  | O => Ok s
  | Datatypes.S k' => s' <- body i s ;; iter_fromM k' (i + 1) body s'
  end.

Definition for_rangeM {S} (lo hi : Z) (body : Z -> S -> result S) (s : S)
  : result S :=
  iter_fromM (Z.to_nat (hi - lo)) lo body s.

(** [for (i = i0; cond i; i++) s = body i s], at most [fuel] tests of [cond] *)
Fixpoint for_while {S} (fuel : nat) (cond : Z -> bool) (i : Z)
  (body : Z -> S -> S) (s : S) : result S :=
  match fuel with
  | O => OutOfFuel
  | Datatypes.S k =>
      if cond i then for_while k cond (i + 1) body (body i s) else Ok s
  end.

(** The loop nest over the retained coefficients, shared by the encoder and
    the decoder:
    [for (cy = 0; cy < n; cy++) for (cx = first_cx cy; cx * n < n * (n - cy); cx++)] *)
Definition tri_loop {S} (fuel : nat) (n : Z) (first_cx : Z -> Z)
  (body : Z -> Z -> S -> S) (s : S) : result S :=
  for_rangeM 0 n
    (fun cy s =>
       for_while fuel (fun cx => cx * n <? n * (n - cy)) (first_cx cy) (body cy) s)
    s.

(** [cx = 0] in the encoder, [cx = cy ? 0 : 1] in the decoder *)
Definition from_zero (cy : Z) : Z := 0.
Definition skip_dc (cy : Z) : Z := if cy =? 0 then 1 else 0.

(** ** IEEE-754 binary64 numbers *)

(** What a number is: a finite value (the two zeros are both [FNum 0]),
    an infinity, or NaN. *)
Inductive fclass := FNum (q : Q) | FInf (neg : bool) | FNaN.

Class Float64 := {
  num : Type;
  classify : num -> fclass;
  of_Z : Z -> num;
  lit : Q -> num;
  NaN : num;
  PI : num;
  add : num -> num -> num;
  sub : num -> num -> num;
  mul : num -> num -> num;
  div : num -> num -> num;
  Math_abs : num -> num;
  Math_max : num -> num -> num;
  Math_min : num -> num -> num;
  Math_cos : num -> num;
  Math_round : num -> num
}.

Declare Scope js_scope.
Delimit Scope js_scope with js.
Infix "+" := add : js_scope.
Infix "-" := sub : js_scope.
Infix "*" := mul : js_scope.
Infix "/" := div : js_scope.

Section Conversions.
Context {fl : Float64}.

  (** truncation toward zero of a finite value *)
Definition Qtrunc (q : Q) : Z := Z.quot (Qnum q) (Zpos (Qden q)).

  (** ToInt32 and ToUint8 of a number: NaN and the infinities give 0 *)
Definition ToInt32 (x : num) : Z :=
    match classify x with
    | FNum q => JS.ToInt32 (Qtrunc q)
    | _ => 0
    end.

Definition ToUint8 (x : num) : Z :=
    match classify x with
    | FNum q => JS.ToUint8 (Qtrunc q)
    | _ => 0
    end.

  (** ToBoolean of a number: false for the zeros and NaN *)
Definition truthy (x : num) : bool :=
    match classify x with
    | FNum q => negb (Qeq_bool q 0)
    | FInf _ => true
    | FNaN => false
    end.

  (** reading a byte of a Uint8Array into arithmetic: [undefined] past the
      end, which arithmetic turns into NaN *)
Definition byte_at (a : list Z) (j : Z) : num :=
    if (0 <=? j) && (j <? Z.of_nat (length a))
    then of_Z (nth (Z.to_nat j) a 0) else NaN.

End Conversions.

(** ** The codec *)

(** The process-wide configuration object [config] of the module; every
    operation takes the value it would read. *)
Record config := { LUMINANCE_TERMS : Z; CHROMINANCE_TERMS : Z }.

Definition default_config : config :=
  {| LUMINANCE_TERMS := 7; CHROMINANCE_TERMS := 3 |}.

(** The constants of the reference version of the module (its first lines). *)
Definition reference_config : config :=
  {| LUMINANCE_TERMS := 4; CHROMINANCE_TERMS := 3 |}.

Definition configThumbHash (luminanceTerms chrominanceTerms : Z) : result config :=
  if (luminanceTerms <? 1) || (luminanceTerms >? 10)
  then Throw (ConfigurationError luminanceTerms)
  else if (chrominanceTerms <? 1) || (chrominanceTerms >? 10)
  then Throw (ConfigurationError chrominanceTerms)
  else Ok {| LUMINANCE_TERMS := luminanceTerms;
             CHROMINANCE_TERMS := chrominanceTerms |}.

Definition ac_start : Z := 5.

Section Codec.
Context {fl : Float64}.

  (** *** rgbaToThumbHash *)

  (** "Determine the average color" *)
Definition average_color (w h : Z) (rgba : list Z) : num * num * num :=
    let '(avg_r, avg_g, avg_b, _) :=
      for_range 0 (w * h)
        (fun (i : Z) '(avg_r, avg_g, avg_b, j) =>
           let alpha := (byte_at rgba (j + 3) / of_Z 255)%js in
           ((avg_r + alpha / of_Z 255 * byte_at rgba j)%js,
            (avg_g + alpha / of_Z 255 * byte_at rgba (j + 1))%js,
            (avg_b + alpha / of_Z 255 * byte_at rgba (j + 2))%js,
            j + 4))
        (of_Z 0, of_Z 0, of_Z 0, 0) in
    ((avg_r / of_Z (w * h))%js,
     (avg_g / of_Z (w * h))%js,
     (avg_b / of_Z (w * h))%js).

  (** "Convert the image from RGBA to LPQ (no alpha channel)" *)
Definition lpq_pixel (avg : num * num * num) (rgba : list Z) (j : Z)
    : num * num * num :=
    let '(avg_r, avg_g, avg_b) := avg in
    let alpha := (byte_at rgba (j + 3) / of_Z 255)%js in
    let r := (avg_r * (of_Z 1 - alpha) + alpha / of_Z 255 * byte_at rgba j)%js in
    let g := (avg_g * (of_Z 1 - alpha) + alpha / of_Z 255 * byte_at rgba (j + 1))%js in
    let b := (avg_b * (of_Z 1 - alpha) + alpha / of_Z 255 * byte_at rgba (j + 2))%js in
    (((r + g + b) / of_Z 3)%js, ((r + g) / of_Z 2 - b)%js, (r - g)%js).

Definition toLPQ (w h : Z) (rgba : list Z) (avg : num * num * num)
    : list num * list num * list num :=
    let '(l, p, q, _) :=
      for_range 0 (w * h)
        (fun (i : Z) '(l, p, q, j) =>
           let '(li, pi, qi) := lpq_pixel avg rgba j in
           (arr_set NaN l i li, arr_set NaN p i pi, arr_set NaN q i qi, j + 4))
        ([], [], [], 0) in
    (l, p, q).

  (** The locals of [encodeChannel]. *)
Record ec_state := { ec_dc : num; ec_ac : list num; ec_scale : num; ec_fx : list num }.

  (** the [fx] table for one [cx] *)
Definition fill_fx (w cx : Z) (fx : list num) : list num :=
    for_range 0 w
      (fun x fx => arr_set NaN fx x
                     (Math_cos (PI / of_Z w * of_Z cx * (of_Z x + lit 0.5))%js))
      fx.

  (** the double sum for one [(cx, cy)], before the division *)
Definition dct_sum (w h : Z) (channel fx : list num) (cy : Z) : num :=
    for_range 0 h
      (fun y f =>
         let fy := Math_cos (PI / of_Z h * of_Z cy * (of_Z y + lit 0.5))%js in
         for_range 0 w
           (fun x f =>
              (f + arr_get NaN channel (x + y * w) * arr_get NaN fx x * fy)%js)
           f)
      (of_Z 0).

  (** the body of the inner loop of [encodeChannel] *)
Definition ec_body (w h : Z) (channel : list num) (cy cx : Z) (s : ec_state)
    : ec_state :=
    let fx := fill_fx w cx (ec_fx s) in
    let f := (dct_sum w h channel fx cy / of_Z (w * h))%js in
    if negb (cx =? 0) || negb (cy =? 0)
    then {| ec_dc := ec_dc s; ec_ac := ec_ac s ++ [f];
            ec_scale := Math_max (ec_scale s) (Math_abs f); ec_fx := fx |}
    else {| ec_dc := f; ec_ac := ec_ac s; ec_scale := ec_scale s; ec_fx := fx |}.

Definition normalize_ac (scale : num) (ac : list num) : list num :=
    for_range 0 (Z.of_nat (length ac))
      (fun i ac => arr_set NaN ac i
                     (lit 0.5 + lit 0.5 / scale * arr_get NaN ac i)%js)
      ac.

Definition encodeChannel (fuel : nat) (w h : Z) (channel : list num) (n : Z)
    : result (num * list num * num) :=
    s <- tri_loop fuel n from_zero (ec_body w h channel)
         {| ec_dc := of_Z 0; ec_ac := []; ec_scale := of_Z 0; ec_fx := [] |} ;;
    let ac := if truthy (ec_scale s) then normalize_ac (ec_scale s) (ec_ac s)
              else ec_ac s in
    Ok (ec_dc s, ac, ec_scale s).

  (** [round(x)] used as an operand of a bitwise operator *)
Definition round_int (x : num) : Z := ToInt32 (Math_round x).

Definition header24_of (l_dc p_dc q_dc l_scale : num) : Z :=
    JS.bor (JS.bor (JS.bor
      (round_int (of_Z 63 * l_dc)%js)
      (JS.shl (round_int (lit 31.5 + lit 31.5 * p_dc)%js) 6))
      (JS.shl (round_int (lit 31.5 + lit 31.5 * q_dc)%js) 12))
      (JS.shl (round_int (of_Z 31 * l_scale)%js) 18).

Definition header16_of (p_scale q_scale : num) : Z :=
    JS.bor (JS.shl (round_int (of_Z 63 * p_scale)%js) 3)
           (JS.shl (round_int (of_Z 63 * q_scale)%js) 9).

  (** [hash[ac_start + (ac_index >> 1)] |= round(0x0f * f) << ((ac_index++ & 1) << 2)];
      a hole of [hash] reads as [undefined], which [|=] takes as 0 *)
Definition write_ac (st : list Z * Z) (f : num) : list Z * Z :=
    let '(hash, ac_index) := st in
    let k := ac_start + JS.sar ac_index 1 in
    (arr_set 0 hash k
       (JS.bor (arr_get 0 hash k)
               (JS.shl (round_int (of_Z 15 * f)%js)
                       (JS.shl (JS.band ac_index 1) 2))),
     ac_index + 1).

Definition rgbaToThumbHash (fuel : nat) (cfg : config) (w h : Z) (rgba : list Z)
    : result (list Z) :=
    if (w >? 100) || (h >? 100) then Throw (DimensionError w h) else
    let avg := average_color w h rgba in
    let '(l, p, q) := toLPQ w h rgba avg in
    '(l_dc, l_ac, l_scale) <- encodeChannel fuel w h l (LUMINANCE_TERMS cfg) ;;
    '(p_dc, p_ac, p_scale) <- encodeChannel fuel w h p (CHROMINANCE_TERMS cfg) ;;
    '(q_dc, q_ac, q_scale) <- encodeChannel fuel w h q (CHROMINANCE_TERMS cfg) ;;
    let header24 := header24_of l_dc p_dc q_dc l_scale in
    let header16 := header16_of p_scale q_scale in
    let hash := [ JS.band header24 255; JS.band (JS.sar header24 8) 255;
                  JS.sar header24 16; JS.band header16 255; JS.sar header16 8 ] in
    let '(hash, _) :=
      fold_left (fun st ac => fold_left write_ac ac st) [l_ac; p_ac; q_ac] (hash, 0) in
    Ok (map JS.ToUint8 hash).

(** *** thumbHashToRGBA *)

(** A byte of the hash used as an operand of a bitwise operator: [undefined]
    past the end, which the operator takes as 0. *)
Definition hash_at (hash : list Z) (k : Z) : Z := arr_get 0 hash k.

Definition read_header24 (hash : list Z) : Z :=
  JS.bor (JS.bor (hash_at hash 0) (JS.shl (hash_at hash 1) 8))
         (JS.shl (hash_at hash 2) 16).

Definition read_header16 (hash : list Z) : Z :=
  JS.bor (hash_at hash 3) (JS.shl (hash_at hash 4) 8).

(** The header fields as [thumbHashToRGBA] reads them. *)
Record header := { l_dc : num; p_dc : num; q_dc : num;
                   l_scale : num; p_scale : num; q_scale : num }.

Definition read_header (hash : list Z) : header :=
  let header24 := read_header24 hash in
  let header16 := read_header16 hash in
  {| l_dc := (of_Z (JS.band header24 63) / of_Z 63)%js;
     p_dc := (of_Z (JS.band (JS.sar header24 6) 63) / lit 31.5 - of_Z 1)%js;
     q_dc := (of_Z (JS.band (JS.sar header24 12) 63) / lit 31.5 - of_Z 1)%js;
     l_scale := (of_Z (JS.band (JS.sar header24 18) 31) / of_Z 31)%js;
     p_scale := (of_Z (JS.band (JS.sar header16 3) 63) / of_Z 63)%js;
     q_scale := (of_Z (JS.band (JS.sar header16 9) 63) / of_Z 63)%js |}.

(** [ac.push((((hash[ac_start + (ac_index >> 1)] >> ((ac_index++ & 1) << 2)) & 15) / 7.5 - 1) * scale)] *)
Definition read_ac (hash : list Z) (scale : num) (st : list num * Z) : list num * Z :=
  let '(ac, ac_index) := st in
  (ac ++ [((of_Z (JS.band (JS.sar (hash_at hash (ac_start + JS.sar ac_index 1))
                                  (JS.shl (JS.band ac_index 1) 2)) 15)
            / lit 7.5 - of_Z 1) * scale)%js],
   ac_index + 1).

(** [decodeChannel]; the counter [ac_index] it shares with its other calls is
    passed in and returned. *)
Definition decodeChannel (fuel : nat) (hash : list Z) (n : Z) (scale : num)
  (ac_index : Z) : result (list num * Z) :=
  tri_loop fuel n skip_dc (fun _ _ => read_ac hash scale) ([], ac_index).

(** "Precompute the coefficients" *)
Definition fill_cos (n size : Z) (t : Z) (f : list num) : list num :=
  for_range 0 n
    (fun c f => arr_set NaN f c
                  (Math_cos (PI / of_Z size * (of_Z t + lit 0.5) * of_Z c)%js))
    f.

(** "Decode L" *)
Definition decode_L (fuel : nat) (n : Z) (l_ac fx fy : list num) (l : num)
  : result (num * Z) :=
  tri_loop fuel n skip_dc
    (fun cy cx '(l, j) =>
       let fy2 := (arr_get NaN fy cy * of_Z 2)%js in
       ((l + arr_get NaN l_ac j * arr_get NaN fx cx * fy2)%js, j + 1))
    (l, 0).

(** "Decode P and Q" *)
Definition decode_PQ (fuel : nat) (n : Z) (p_ac q_ac fx fy : list num) (p q : num)
  : result (num * num * Z) :=
  tri_loop fuel n skip_dc
    (fun cy cx '(p, q, j) =>
       let fy2 := (arr_get NaN fy cy * of_Z 2)%js in
       let f := (arr_get NaN fx cx * fy2)%js in
       ((p + arr_get NaN p_ac j * f)%js, (q + arr_get NaN q_ac j * f)%js, j + 1))
    (p, q, 0).

(** "Convert to RGB" *)
Definition fromLPQ (l p q : num) : num * num * num :=
  let b := (l - of_Z 2 / of_Z 3 * p)%js in
  let r := ((of_Z 3 * l - b + q) / of_Z 2)%js in
  let g := (r - q)%js in
  (r, g, b).

(** One output pixel: the locals [fx], [fy] live across pixels. *)
Definition decode_pixel (fuel : nat) (cfg : config) (hd : header)
  (l_ac p_ac q_ac : list num) (w h x y : Z) (fx fy : list num)
  : result (num * num * num * list num * list num) :=
  let fx := fill_cos (LUMINANCE_TERMS cfg) w x fx in
  let fy := fill_cos (LUMINANCE_TERMS cfg) h y fy in
  '(l, _) <- decode_L fuel (LUMINANCE_TERMS cfg) l_ac fx fy (l_dc hd) ;;
  '(p, q, _) <- decode_PQ fuel (CHROMINANCE_TERMS cfg) p_ac q_ac fx fy
                  (p_dc hd) (q_dc hd) ;;
  let '(r, g, b) := fromLPQ l p q in
  Ok (r, g, b, fx, fy).

(** The locals of the pixel loops of [thumbHashToRGBA]. *)
Record px_state := { px_rgba : list Z; px_fx : list num; px_fy : list num; px_i : Z }.

Definition to_sample (v : num) : Z :=
  ToUint8 (Math_max (of_Z 0) (of_Z 255 * Math_min (of_Z 1) v)%js).

Definition pixel_step (fuel : nat) (cfg : config) (hd : header)
  (l_ac p_ac q_ac : list num) (w h y x : Z) (s : px_state) : result px_state :=
  '(r, g, b, fx, fy) <-
    decode_pixel fuel cfg hd l_ac p_ac q_ac w h x y (px_fx s) (px_fy s) ;;
  let i := px_i s in
  let rgba := typed_set (px_rgba s) i (to_sample r) in
  let rgba := typed_set rgba (i + 1) (to_sample g) in
  let rgba := typed_set rgba (i + 2) (to_sample b) in
  let rgba := typed_set rgba (i + 3) 255 in
  Ok {| px_rgba := rgba; px_fx := fx; px_fy := fy; px_i := i + 4 |}.

Record image := { img_w : Z; img_h : Z; img_rgba : list Z }.

(** "Read the constants" and "Read the varying factors" *)
Definition read_terms (fuel : nat) (cfg : config) (hash : list Z)
  : result (header * list num * list num * list num) :=
  let hd := read_header hash in
  '(l_ac, ac_index) <- decodeChannel fuel hash (LUMINANCE_TERMS cfg) (l_scale hd) 0 ;;
  '(p_ac, ac_index) <- decodeChannel fuel hash (CHROMINANCE_TERMS cfg)
                         (p_scale hd * lit 1.25)%js ac_index ;;
  '(q_ac, ac_index) <- decodeChannel fuel hash (CHROMINANCE_TERMS cfg)
                         (q_scale hd * lit 1.25)%js ac_index ;;
  Ok (hd, l_ac, p_ac, q_ac).

Definition thumbHashToRGBA (fuel : nat) (cfg : config) (hash : list Z)
  : result image :=
  '(hd, l_ac, p_ac, q_ac) <- read_terms fuel cfg hash ;;
  let rgba := repeat 0 (Z.to_nat (32 * 32 * 4)) in
  let w := 32 in
  let h := 32 in
  s <- for_rangeM 0 h
         (fun y s => for_rangeM 0 w (pixel_step fuel cfg hd l_ac p_ac q_ac w h y) s)
         {| px_rgba := rgba; px_fx := []; px_fy := []; px_i := 0 |} ;;
  Ok {| img_w := w; img_h := h; img_rgba := px_rgba s |}.

(** *** thumbHashToAverageRGBA *)

Record color := { col_r : num; col_g : num; col_b : num; col_a : num }.

Definition thumbHashToAverageRGBA (hash : list Z) : color :=
  let header := read_header24 hash in
  let l := (of_Z (JS.band header 63) / of_Z 63)%js in
  let p := (of_Z (JS.band (JS.sar header 6) 63) / lit 31.5 - of_Z 1)%js in
  let q := (of_Z (JS.band (JS.sar header 12) 63) / lit 31.5 - of_Z 1)%js in
  let hasAlpha := JS.sar header 23 in
  let a := if negb (hasAlpha =? 0)
           then (of_Z (JS.band (hash_at hash 5) 15) / of_Z 15)%js
           else of_Z 1 in
  let '(r, g, b) := fromLPQ l p q in
  {| col_r := Math_max (of_Z 0) (Math_min (of_Z 1) r);
     col_g := Math_max (of_Z 0) (Math_min (of_Z 1) g);
     col_b := Math_max (of_Z 0) (Math_min (of_Z 1) b);
     col_a := a |}.

End Codec.

(** ** The engine

    What [rgbaToDataURL] depends on beyond the language.  An array holds at
    most [2^32 - 1] elements: a [push] past that throws a RangeError.  A
    call takes a limited number of arguments, which
    [String.fromCharCode(...bytes)] reaches with a long array: past the
    limit the call throws a RangeError.  The limit is the engine's own;
    the engines in use take at least 65536 arguments (the fixed limit of
    JavaScriptCore), and none takes more than an array holds. *)
Definition array_max : Z := 4294967295.

Class Engine := {
  max_args : Z;
  max_args_range : 65536 <= max_args <= array_max }.

(** an engine for each limit in that range *)
Definition engine_of (n : Z) (H : 65536 <= n <= array_max) : Engine :=
  {| max_args := n; max_args_range := H |}.

Definition engine_65536 : Engine :=
  engine_of 65536 (conj (Z.le_refl 65536) (Zle_bool_imp_le 65536 array_max eq_refl)).

(** ** rgbaToDataURL: the PNG emitter *)

Module PNG.

Import Ascii String.

Definition table : list Z :=
  [ 0; 498536548; 997073096; 651767980; 1994146192; 1802195444; 1303535960;
    1342533948; -306674912; -267414716; -690576408; -882789492; -1687895376;
    -2032938284; -1609899400; -1111625188 ].

(** the array literal [bytes] starts from *)
Definition head (w h idat : Z) : list Z :=
  [ 137; 80; 78; 71; 13; 10; 26; 10; 0; 0; 0; 13; 73; 72; 68; 82; 0; 0;
    JS.sar w 8; JS.band w 255; 0; 0; JS.sar h 8; JS.band h 255; 8; 6; 0; 0; 0;
    0; 0; 0; 0;
    JS.shr idat 24; JS.band (JS.sar idat 16) 255; JS.band (JS.sar idat 8) 255;
    JS.band idat 255;
    73; 68; 65; 84; 120; 1 ].

(** The locals of the scanline loop. *)
Record row_state := { bytes : list Z; a : Z; b : Z; i : Z; end_ : Z }.

(** the body of the inner loop *)
Definition push_pixel (rgba : list Z) (i : Z) (s : row_state) : row_state :=
  let u := JS.band (arr_get 0 rgba i) 255 in
  let a' := Z.rem (a s + u) 65521 in
  {| bytes := bytes s ++ [u]; a := a'; b := Z.rem (b s + a') 65521;
     i := i + 1; end_ := end_ s |}.

(** the inner loop: [for (b = (b + a) % 65521; i < end; i++)] *)
Definition row_pixels (rgba : list Z) (s : row_state) : row_state :=
  let s := {| bytes := bytes s; a := a s; b := Z.rem (b s + a s) 65521;
              i := i s; end_ := end_ s |} in
  for_range (i s) (end_ s) (push_pixel rgba) s.

Definition row_step (h row : Z) (rgba : list Z) (y : Z) (s : row_state) : row_state :=
  let s := {| bytes := bytes s ++ [ (if y + 1 <? h then 0 else 1); JS.band row 255;
                                    JS.sar row 8; JS.band (JS.bnot row) 255;
                                    JS.bxor (JS.sar row 8) 255; 0 ];
              a := a s; b := b s; i := i s; end_ := end_ s |} in
  let s := row_pixels rgba s in
  {| bytes := bytes s; a := a s; b := b s; i := i s; end_ := end_ s + (row - 1) |}.

(** one round of the checksum loop: [c ^= bytes[i]] and the two table steps *)
Definition crc_step (bs : list Z) (i : Z) (c : Z) : Z :=
  let c := JS.bxor c (arr_get 0 bs i) in
  let c := JS.bxor (JS.shr c 4) (arr_get 0 table (JS.band c 15)) in
  let c := JS.bxor (JS.shr c 4) (arr_get 0 table (JS.band c 15)) in
  c.

(** the body of [for (let [start, end] of ...)] *)
Definition write_crc (bs : list Z) (range : Z * Z) : list Z :=
  let '(start, end_) := range in
  let c := for_range start end_ (crc_step bs) (JS.bnot 0) in
  let c := JS.bnot c in
  let bs := arr_set 0 bs end_ (JS.shr c 24) in
  let bs := arr_set 0 bs (end_ + 1) (JS.band (JS.sar c 16) 255) in
  let bs := arr_set 0 bs (end_ + 2) (JS.band (JS.sar c 8) 255) in
  let bs := arr_set 0 bs (end_ + 3) (JS.band c 255) in
  bs.

(** the elements of the array [bytes] once the checksums are written *)
Definition png_bytes (w h : Z) (rgba : list Z) : list Z :=
  let row := w * 4 + 1 in
  let idat := 6 + h * (5 + row) in
  let s := for_range 0 h (row_step h row rgba)
             {| bytes := head w h idat; a := 1; b := 0; i := 0; end_ := row - 1 |} in
  let bs := bytes s ++
            [ JS.sar (b s) 8; JS.band (b s) 255; JS.sar (a s) 8; JS.band (a s) 255;
              0; 0; 0; 0; 0; 0; 0; 0; 73; 69; 78; 68; 174; 66; 96; 130 ] in
  fold_left write_crc [ (12, 29); (37, 41 + idat) ] bs.

(** the array [bytes]: it cannot grow past the longest array, the [push]
    that would do so throws *)
Definition bytes_array (w h : Z) (rgba : list Z) : result (list Z) :=
  let bs := png_bytes w h rgba in
  if array_max <? Z.of_nat (List.length bs) then Throw RangeError else Ok bs.

(** [String.fromCharCode(...bytes)]: the elements of [bytes] are the
    arguments of one call, which throws when they are more than the engine
    takes; one UTF-16 code unit per element *)
Definition fromCharCode {eng : Engine} (bs : list Z) : result (list Z) :=
  if max_args <? Z.of_nat (List.length bs) then Throw RangeError
  else Ok (map (fun x => x mod 65536) bs).

Definition b64_alphabet : string :=
  "ABCDEFGHIJKLMNOPQRSTUVWXYZabcdefghijklmnopqrstuvwxyz0123456789+/".

Definition b64_char (n : Z) : ascii :=
  match String.get (Z.to_nat n) b64_alphabet with
  | Some c => c
  | None => "="%char
  end.

Fixpoint b64_encode (bs : list Z) (fuel : nat) : string :=
  match fuel with
  | O => EmptyString
  | Datatypes.S k =>
      match bs with
      | [] => EmptyString
      | [x] =>
          String (b64_char (x / 4))
            (String (b64_char (x mod 4 * 16)) "==")
      | [x; y] =>
          String (b64_char (x / 4))
            (String (b64_char (x mod 4 * 16 + y / 16))
               (String (b64_char (y mod 16 * 4)) "="))
      | x :: y :: z :: rest =>
          String (b64_char (x / 4))
            (String (b64_char (x mod 4 * 16 + y / 16))
               (String (b64_char (y mod 16 * 4 + z / 64))
                  (String (b64_char (z mod 64)) (b64_encode rest k))))
      end
  end.

Definition base64 (bs : list Z) : string := b64_encode bs (Datatypes.S (List.length bs)).

(** [btoa]: throws when a code unit is above 255 *)
Definition btoa (codes : list Z) : result string :=
  if forallb (fun c => c <=? 255) codes
  then Ok (base64 codes)
  else Throw InvalidCharacterError.

Definition data_url (payload : string) : string :=
  ("data:image/png;base64," ++ payload)%string.

Definition rgbaToDataURL {eng : Engine} (w h : Z) (rgba : list Z) : result string :=
  bytes <- bytes_array w h rgba ;;
  codes <- fromCharCode bytes ;;
  s <- btoa codes ;;
  Ok (data_url s).

End PNG.

(** ** thumbHashToDataURL *)

Definition thumbHashToDataURL {fl : Float64} {eng : Engine}
    (fuel : nat) (cfg : config) (hash : list Z)
  : result String.string :=
  image <- thumbHashToRGBA fuel cfg hash ;;
  PNG.rgbaToDataURL (img_w image) (img_h image) (img_rgba image).

(** ** The interface on Rocq's primitive binary64 floats

    Addition, subtraction, multiplication and division are the kernel's
    IEEE-754 operations, which are the ones ECMAScript prescribes.
    [Math.round], [Math.max], [Math.min] follow ECMAScript; [Math.cos] is
    left to the caller. *)

Module Binary64.

Definition value (s : bool) (m : positive) (e : Z) : Q :=
  let m := if s then Zneg m else Zpos m in
  if 0 <=? e then inject_Z (m * 2 ^ e) else Qmake m (Pos.pow 2 (Z.to_pos (- e))).

Definition classify (x : float) : fclass :=
  match Prim2SF x with
  | S754_zero _ => FNum 0
  | S754_infinity s => FInf s
  | S754_nan => FNaN
  | S754_finite s m e => FNum (value s m e)
  end.

(** the Number of an integer: the integer rounded to nearest, ties to even,
    an infinity from [2^1024] on *)
Definition of_Z (z : Z) : float := SF2Prim (binary_normalize prec emax z 0 false).

(** a decimal literal: the quotient of the numerator and the denominator
    of the reduced fraction, rounded once *)
Definition lit (q : Q) : float :=
  let q := Qred q in
  PrimFloat.div (of_Z (Qnum q)) (of_Z (Zpos (Qden q))).

Definition is_neg_zero (x : float) : bool :=
  match Prim2SF x with S754_zero true => true | _ => false end.

Definition Math_max (x y : float) : float :=
  if PrimFloat.is_nan x || PrimFloat.is_nan y then PrimFloat.nan
  else if PrimFloat.ltb x y then y
  else if PrimFloat.ltb y x then x
  else if is_neg_zero x then y else x.

Definition Math_min (x y : float) : float :=
  if PrimFloat.is_nan x || PrimFloat.is_nan y then PrimFloat.nan
  else if PrimFloat.ltb x y then x
  else if PrimFloat.ltb y x then y
  else if is_neg_zero x then x else y.

(** the integral number closest to [x], ties toward +infinity; [-0] when
    the result is zero and [x] is negative or [-0] *)
Definition Math_round (x : float) : float :=
  match Prim2SF x with
  | S754_finite s m e =>
      let r := Qfloor (value s m e + (1 # 2))%Q in
      if (r =? 0) && s then PrimFloat.neg_zero else of_Z r
  | _ => x
  end.

Definition PI : float := 0x1.921fb54442d18p+1%float.

(** A cosine to run the codec with: the argument reduced to [-pi, pi], then
    the Taylor polynomial of degree 20.  ECMAScript leaves [Math.cos] to the
    implementation (an approximation), so this one stands for an engine's
    and can differ from it in the last bits; the theorems hold for every
    cosine the interface is given. *)
Definition cos_poly (r : float) : float :=
  let t := (r * r)%float in
  (1 - t / 2 * (1 - t / 12 * (1 - t / 30 * (1 - t / 56 * (1 - t / 90 *
   (1 - t / 132 * (1 - t / 182 * (1 - t / 240 * (1 - t / 306 *
   (1 - t / 380))))))))))%float.

Definition cos (x : float) : float :=
  let k := Math_round (x / (2 * PI))%float in
  cos_poly (x - k * (2 * PI))%float.

End Binary64.

Definition binary64 (cos : float -> float) : Float64 :=
  {| num := float;
     classify := Binary64.classify;
     of_Z := Binary64.of_Z;
     lit := Binary64.lit;
     NaN := PrimFloat.nan;
     PI := Binary64.PI;
     add := PrimFloat.add;
     sub := PrimFloat.sub;
     mul := PrimFloat.mul;
     div := PrimFloat.div;
     Math_abs := PrimFloat.abs;
     Math_max := Binary64.Math_max;
     Math_min := Binary64.Math_min;
     Math_cos := cos;
     Math_round := Binary64.Math_round |}.

(** * Properties *)

(** ** Loops as folds *)

(** the values a counted loop gives its counter *)
Definition zseq (lo : Z) (k : nat) : list Z := map (fun j => lo + Z.of_nat j) (seq 0 k).

Definition zrange (lo hi : Z) : list Z := zseq lo (Z.to_nat (hi - lo)).

Lemma zseq_S lo k : zseq lo (S k) = lo :: zseq (lo + 1) k.
Proof.
  unfold zseq. simpl. rewrite Z.add_0_r. f_equal.
  rewrite <- seq_shift, map_map. apply map_ext. intros j. lia.
Qed.

Lemma zseq_length lo k : length (zseq lo k) = k.
Proof. unfold zseq. now rewrite length_map, length_seq. Qed.

Lemma zseq_In lo k j : In j (zseq lo k) <-> lo <= j < lo + Z.of_nat k.
Proof.
  unfold zseq. rewrite in_map_iff. split.
  - intros (i & <- & Hi). apply in_seq in Hi. lia.
  - intros Hj. exists (Z.to_nat (j - lo)). split; [lia|]. apply in_seq. lia.
Qed.

Lemma zrange_In lo hi j : In j (zrange lo hi) <-> lo <= j < hi.
Proof. unfold zrange. rewrite zseq_In. lia. Qed.

Lemma iter_from_fold {S} (body : Z -> S -> S) k : forall lo s,
  iter_from k lo body s = fold_left (fun s j => body j s) (zseq lo k) s.
Proof.
  induction k as [|k IH]; intros lo s; [reflexivity|].
  rewrite zseq_S. simpl. apply IH.
Qed.

Lemma for_range_fold {S} (body : Z -> S -> S) lo hi s :
  for_range lo hi body s = fold_left (fun s j => body j s) (zrange lo hi) s.
Proof. apply iter_from_fold. Qed.

Lemma iter_from_ext {S} (f g : Z -> S -> S) k : forall lo s,
  (forall j s, lo <= j < lo + Z.of_nat k -> f j s = g j s) ->
  iter_from k lo f s = iter_from k lo g s.
Proof.
  induction k as [|k IH]; intros lo s H; [reflexivity|].
  simpl. rewrite H by lia. apply IH. intros. apply H. lia.
Qed.

Lemma iter_fromM_ok {S} (body : Z -> S -> result S) (g : Z -> S -> S) k :
  forall lo s,
  (forall j s, lo <= j < lo + Z.of_nat k -> body j s = Ok (g j s)) ->
  iter_fromM k lo body s = Ok (iter_from k lo g s).
Proof.
  induction k as [|k IH]; intros lo s H; [reflexivity|].
  simpl. rewrite H by lia. simpl. apply IH. intros. apply H. lia.
Qed.

Lemma for_while_count {S} (cond : Z -> bool) (body : Z -> S -> S) k :
  forall fuel lo s,
  (forall j, lo <= j < lo + Z.of_nat k -> cond j = true) ->
  cond (lo + Z.of_nat k) = false ->
  (k < fuel)%nat ->
  for_while fuel cond lo body s = Ok (iter_from k lo body s).
Proof.
  induction k as [|k IH]; intros fuel lo s Ht Hf Hk.
  - destruct fuel; [lia|]. simpl. rewrite Z.add_0_r in Hf. now rewrite Hf.
  - destruct fuel; [lia|]. simpl. rewrite Ht by lia.
    apply IH; [intros; apply Ht; lia | | lia].
    rewrite <- Hf. f_equal. lia.
Qed.

(** the pure loop nest: what [tri_loop] computes when it has fuel enough *)
Definition tri_fold {S} (n : Z) (first_cx : Z -> Z) (body : Z -> Z -> S -> S)
  (s : S) : S :=
  for_range 0 n (fun cy s => for_range (first_cx cy) (n - cy) (body cy) s) s.

Lemma tri_cond n cy cx : 0 < n -> (cx * n <? n * (n - cy)) = (cx <? n - cy).
Proof.
  intros Hn. destruct (Z.ltb_spec cx (n - cy)); [apply Z.ltb_lt | apply Z.ltb_ge]; nia.
Qed.

Lemma tri_loop_ok {S} fuel n first_cx (body : Z -> Z -> S -> S) s :
  n < Z.of_nat fuel ->
  (forall cy, 0 <= first_cx cy) ->
  tri_loop fuel n first_cx body s = Ok (tri_fold n first_cx body s).
Proof.
  intros Hfuel Hfirst. unfold tri_loop, tri_fold, for_rangeM, for_range.
  apply iter_fromM_ok. intros cy s' Hcy.
  assert (Hn : 0 < n) by lia.
  destruct (Z.le_gt_cases (n - cy) (first_cx cy)) as [Hle | Hgt].
  - replace (Z.to_nat (n - cy - first_cx cy)) with 0%nat by lia.
    apply for_while_count; [simpl; lia | | lia].
    simpl. rewrite Z.add_0_r, tri_cond by lia. apply Z.ltb_ge. lia.
  - specialize (Hfirst cy).
    apply for_while_count; [ | | lia].
    + intros j Hj. rewrite tri_cond by lia. apply Z.ltb_lt. lia.
    + rewrite tri_cond by lia. apply Z.ltb_ge. lia.
Qed.

(** the coefficient indices in the order the loop nest visits them *)
Definition tri_indices (n : Z) (first_cx : Z -> Z) : list (Z * Z) :=
  flat_map (fun cy => map (fun cx => (cx, cy)) (zrange (first_cx cy) (n - cy)))
           (zrange 0 n).

Lemma tri_fold_indices {S} n first_cx (body : Z -> Z -> S -> S) s :
  tri_fold n first_cx body s
  = fold_left (fun s '(cx, cy) => body cy cx s) (tri_indices n first_cx) s.
Proof.
  unfold tri_fold, tri_indices. rewrite for_range_fold.
  generalize (zrange 0 n) as cys. intros cys. revert s.
  induction cys as [|cy cys IH]; intros s; [reflexivity|].
  simpl. rewrite fold_left_app, <- IH. f_equal.
  rewrite for_range_fold. generalize (zrange (first_cx cy) (n - cy)) as cxs.
  intros cxs. revert s. induction cxs as [|cx cxs IHx]; intros s; [reflexivity|].
  simpl. apply IHx.
Qed.

(** ** Arrays *)

Lemma list_upd_length {A} (a : list A) v : forall i, length (list_upd a i v) = length a.
Proof. induction a as [|x a IH]; intros [|i]; simpl; auto. Qed.

Lemma list_upd_nth {A} (d : A) (a : list A) v : forall i j,
  (i < length a)%nat ->
  nth j (list_upd a i v) d = if Nat.eqb j i then v else nth j a d.
Proof.
  induction a as [|x a IH]; intros [|i] [|j] Hi; simpl in *; try lia; auto.
  apply IH. lia.
Qed.

Lemma arr_set_length {A} (hole : A) a i v :
  0 <= i ->
  length (arr_set hole a i v) = Nat.max (length a) (S (Z.to_nat i)).
Proof.
  intros Hi. unfold arr_set. destruct (Z.ltb_spec i 0); [lia|].
  destruct (Z.ltb_spec i (Z.of_nat (length a))).
  - rewrite list_upd_length. lia.
  - rewrite !length_app, repeat_length. simpl. lia.
Qed.

Lemma arr_get_set {A} (hole : A) a i v j :
  0 <= i -> i <= Z.of_nat (length a) -> 0 <= j ->
  arr_get hole (arr_set hole a i v) j = if j =? i then v else arr_get hole a j.
Proof.
  intros Hi Hle Hj. unfold arr_get, arr_set.
  destruct (Z.ltb_spec j 0); [lia|]. destruct (Z.ltb_spec i 0); [lia|].
  destruct (Z.ltb_spec i (Z.of_nat (length a))).
  - rewrite list_upd_nth by lia.
    destruct (Nat.eqb_spec (Z.to_nat j) (Z.to_nat i)), (Z.eqb_spec j i); auto; lia.
  - replace (Z.to_nat i - length a)%nat with 0%nat by lia. simpl.
    assert (Z.to_nat i = length a) by lia.
    destruct (Z.eqb_spec j i).
    + subst j. rewrite app_nth2 by lia. now replace (Z.to_nat i - length a)%nat with 0%nat by lia.
    + destruct (Z.ltb_spec j i).
      * rewrite app_nth1 by lia. reflexivity.
      * rewrite !nth_overflow; auto; [lia | rewrite length_app; simpl; lia].
Qed.

Lemma arr_set_end {A} (hole : A) a v :
  arr_set hole a (Z.of_nat (length a)) v = a ++ [v].
Proof.
  unfold arr_set. destruct (Z.ltb_spec (Z.of_nat (length a)) 0); [lia|].
  rewrite Z.ltb_irrefl. now replace (Z.to_nat (Z.of_nat (length a)) - length a)%nat with 0%nat by lia.
Qed.

Lemma iter_from_snoc {S} (body : Z -> S -> S) k : forall lo s,
  iter_from (Datatypes.S k) lo body s = body (lo + Z.of_nat k) (iter_from k lo body s).
Proof.
  induction k as [|k IH]; intros lo s.
  - simpl. now rewrite Z.add_0_r.
  - change (iter_from (Datatypes.S (Datatypes.S k)) lo body s)
      with (iter_from (Datatypes.S k) (lo + 1) body (body lo s)).
    rewrite IH. simpl. f_equal. lia.
Qed.

(** a loop that writes [g x] at every index [x] below [k] *)
Lemma fill_spec {A} (hole : A) (g : Z -> A) k a :
  let r := iter_from k 0 (fun x a => arr_set hole a x (g x)) a in
  length r = Nat.max (length a) k /\
  forall j, 0 <= j -> arr_get hole r j = if j <? Z.of_nat k then g j else arr_get hole a j.
Proof.
  induction k as [|k [IHl IHg]]; intros r.
  - subst r. simpl. split; [lia|]. intros j Hj.
    destruct (Z.ltb_spec j 0); [lia | reflexivity].
  - subst r. rewrite iter_from_snoc. simpl Z.add.
    set (r := iter_from k 0 _ a) in *. split.
    + rewrite arr_set_length by lia. lia.
    + intros j Hj. rewrite arr_get_set by lia.
      destruct (Z.eqb_spec j (Z.of_nat k)).
      * destruct (Z.ltb_spec j (Z.of_nat (Datatypes.S k))); [now subst j | lia].
      * rewrite IHg by lia.
        destruct (Z.ltb_spec j (Z.of_nat k)), (Z.ltb_spec j (Z.of_nat (Datatypes.S k)));
          auto; lia.
Qed.

Lemma arr_get_mid {A} (hole : A) done x rest :
  arr_get hole (done ++ x :: rest) (Z.of_nat (length done)) = x.
Proof.
  unfold arr_get. destruct (Z.ltb_spec (Z.of_nat (length done)) 0); [lia|].
  rewrite Nat2Z.id, app_nth2, Nat.sub_diag by lia. reflexivity.
Qed.

Lemma list_upd_mid {A} (done : list A) x rest v :
  list_upd (done ++ x :: rest) (length done) v = done ++ v :: rest.
Proof. induction done; simpl; congruence. Qed.

Lemma arr_set_mid {A} (hole : A) done x rest v :
  arr_set hole (done ++ x :: rest) (Z.of_nat (length done)) v = done ++ v :: rest.
Proof.
  unfold arr_set. destruct (Z.ltb_spec (Z.of_nat (length done)) 0); [lia|].
  destruct (Z.ltb_spec (Z.of_nat (length done)) (Z.of_nat (length (done ++ x :: rest)))) as [_|Hge].
  - rewrite Nat2Z.id. apply list_upd_mid.
  - rewrite length_app in Hge. simpl in Hge. lia.
Qed.

(** a loop that rewrites every element [x] of an array as [g x] *)
Lemma map_in_place {A} (hole : A) (g : A -> A) (a : list A) :
  for_range 0 (Z.of_nat (length a))
    (fun i a => arr_set hole a i (g (arr_get hole a i))) a
  = map g a.
Proof.
  unfold for_range. rewrite Z.sub_0_r, Nat2Z.id.
  enough (H : forall rest done,
            iter_from (length rest) (Z.of_nat (length done))
              (fun i a => arr_set hole a i (g (arr_get hole a i))) (done ++ rest)
            = done ++ map g rest) by apply (H a []).
  induction rest as [|x rest IH]; intros done; [reflexivity|].
  simpl iter_from. rewrite arr_get_mid, arr_set_mid.
  replace (done ++ g x :: rest) with ((done ++ [g x]) ++ rest) by now rewrite <- app_assoc.
  replace (Z.of_nat (length done) + 1) with (Z.of_nat (length (done ++ [g x])))
    by (rewrite length_app; simpl; lia).
  rewrite IH, <- app_assoc. reflexivity.
Qed.

(** ** The forward transform *)

Section Transform.
Context {fl : Float64}.

(** The pixels of a [w] by [h] raster, row by row. *)
Definition pixels (w h : Z) : list (Z * Z) :=
  flat_map (fun y => map (fun x => (x, y)) (zrange 0 w)) (zrange 0 h).

(** The coefficient of index [(cx, cy)], as the specification states it: the
    sum over the pixels of [channel[x + y*w] * cos(pi/w * cx * (x+0.5)) *
    cos(pi/h * cy * (y+0.5))], over [w*h].  The sum is taken row by row and
    the products left to right, in binary64. *)
Definition dct_coefficient (w h : Z) (channel : list num) (cx cy : Z) : num :=
  (fold_left
     (fun f '(x, y) =>
        (f + arr_get NaN channel (x + y * w)
             * Math_cos (PI / of_Z w * of_Z cx * (of_Z x + lit 0.5))
             * Math_cos (PI / of_Z h * of_Z cy * (of_Z y + lit 0.5)))%js)
     (pixels w h) (of_Z 0)
   / of_Z (w * h))%js.

(** The indices of the AC terms, in enumeration order. *)
Definition ac_indices (n : Z) : list (Z * Z) := tri_indices n skip_dc.

Definition ac_coefficients (w h : Z) (channel : list num) (n : Z) : list num :=
  map (fun '(cx, cy) => dct_coefficient w h channel cx cy) (ac_indices n).

(** the largest absolute value of a list of terms, as [Math.max] folds it *)
Definition max_abs (ac : list num) : num :=
  fold_left (fun scale f => Math_max scale (Math_abs f)) ac (of_Z 0).

Lemma fill_fx_get w cx fx0 x :
  0 <= x < w ->
  arr_get NaN (fill_fx w cx fx0) x
  = Math_cos (PI / of_Z w * of_Z cx * (of_Z x + lit 0.5))%js.
Proof.
  intros Hx. unfold fill_fx, for_range.
  destruct (fill_spec NaN (fun x => Math_cos (PI / of_Z w * of_Z cx * (of_Z x + lit 0.5))%js)
              (Z.to_nat (w - 0)) fx0) as [_ Hg].
  cbv zeta in Hg. rewrite Hg by lia.
  destruct (Z.ltb_spec x (Z.of_nat (Z.to_nat (w - 0)))); [reflexivity | lia].
Qed.

Lemma dct_sum_spec w h channel cx cy fx0 :
  (dct_sum w h channel (fill_fx w cx fx0) cy / of_Z (w * h))%js
  = dct_coefficient w h channel cx cy.
Proof.
  unfold dct_coefficient, dct_sum, pixels. f_equal.
  rewrite for_range_fold. generalize (of_Z 0). generalize (zrange 0 h) as ys.
  induction ys as [|y ys IH]; intros f; [reflexivity|].
  simpl. rewrite fold_left_app, <- IH. f_equal.
  rewrite for_range_fold.
  assert (Hin : forall x, In x (zrange 0 w) -> 0 <= x < w) by (intros x; apply zrange_In).
  revert f Hin. generalize (zrange 0 w) as xs.
  induction xs as [|x xs IHx]; intros f Hin; [reflexivity|].
  simpl. rewrite fill_fx_get by (apply Hin; now left).
  apply IHx. intros x' Hx'. apply Hin. now right.
Qed.

(** what one pass of the inner loop does to the locals other than [fx] *)
Lemma ec_body_dc w h channel s :
  let s' := ec_body w h channel 0 0 s in
  ec_dc s' = dct_coefficient w h channel 0 0 /\ ec_ac s' = ec_ac s /\
  ec_scale s' = ec_scale s.
Proof. unfold ec_body. simpl. rewrite dct_sum_spec. auto. Qed.

Lemma ec_body_ac w h channel cy cx s :
  (cx, cy) <> (0, 0) ->
  let f := dct_coefficient w h channel cx cy in
  let s' := ec_body w h channel cy cx s in
  ec_dc s' = ec_dc s /\ ec_ac s' = ec_ac s ++ [f] /\
  ec_scale s' = Math_max (ec_scale s) (Math_abs f).
Proof.
  intros Hne. unfold ec_body. rewrite dct_sum_spec.
  destruct (Z.eqb_spec cx 0), (Z.eqb_spec cy 0); simpl; auto. congruence.
Qed.

Lemma ec_fold_ac w h channel idxs : forall s,
  (forall i, In i idxs -> i <> (0, 0)) ->
  let fs := map (fun '(cx, cy) => dct_coefficient w h channel cx cy) idxs in
  let s' := fold_left (fun s '(cx, cy) => ec_body w h channel cy cx s) idxs s in
  ec_dc s' = ec_dc s /\ ec_ac s' = ec_ac s ++ fs /\
  ec_scale s' = fold_left (fun scale f => Math_max scale (Math_abs f)) fs (ec_scale s).
Proof.
  induction idxs as [|[cx cy] idxs IH]; intros s Hne.
  - simpl. rewrite app_nil_r. auto.
  - simpl.
    destruct (ec_body_ac w h channel cy cx s) as (E1 & E2 & E3);
      [apply Hne; now left|].
    destruct (IH (ec_body w h channel cy cx s)) as (F1 & F2 & F3);
      [intros i Hi; apply Hne; now right|].
    cbv zeta in *. rewrite F1, F2, F3, E1, E2, E3, <- app_assoc. auto.
Qed.

Lemma zrange_cons lo hi : lo < hi -> zrange lo hi = lo :: zrange (lo + 1) hi.
Proof.
  intros H. unfold zrange.
  replace (Z.to_nat (hi - lo)) with (Datatypes.S (Z.to_nat (hi - (lo + 1)))) by lia.
  apply zseq_S.
Qed.

Lemma flat_map_ext_in {A B} (f g : A -> list B) l :
  (forall x, In x l -> f x = g x) -> flat_map f l = flat_map g l.
Proof.
  induction l as [|x l IH]; intros H; [reflexivity|].
  simpl. rewrite H by now left. f_equal. apply IH. intros. apply H. now right.
Qed.

(** the encoder's enumeration is the DC index followed by the AC indices *)
Lemma tri_indices_from_zero n :
  0 < n -> tri_indices n from_zero = (0, 0) :: ac_indices n.
Proof.
  intros Hn. unfold ac_indices, tri_indices. rewrite (zrange_cons 0 n) by lia.
  cbn [flat_map]. unfold from_zero at 1. unfold skip_dc at 1. simpl (0 =? 0).
  cbv iota. rewrite (zrange_cons 0 (n - 0)) by lia. simpl. do 2 f_equal.
  apply flat_map_ext_in. intros cy Hcy. apply zrange_In in Hcy.
  unfold from_zero, skip_dc. destruct (Z.eqb_spec cy 0); [lia | reflexivity].
Qed.

Lemma ac_indices_nonzero n i : In i (ac_indices n) -> i <> (0, 0).
Proof.
  unfold ac_indices, tri_indices. rewrite in_flat_map.
  intros (cy & Hcy & Hi). apply in_map_iff in Hi. destruct Hi as (cx & <- & Hcx).
  apply zrange_In in Hcy, Hcx. unfold skip_dc in Hcx.
  destruct (Z.eqb_spec cy 0); intros [= ? ?]; lia.
Qed.

Lemma normalize_ac_map scale ac :
  normalize_ac scale ac = map (fun f => (lit 0.5 + lit 0.5 / scale * f)%js) ac.
Proof.
  unfold normalize_ac.
  exact (map_in_place NaN (fun f => (lit 0.5 + lit 0.5 / scale * f)%js) ac).
Qed.

(** [encodeChannel] returns, and what it returns *)
Lemma encodeChannel_ok fuel w h channel n :
  0 < n < Z.of_nat fuel ->
  let ac := ac_coefficients w h channel n in
  let scale := max_abs ac in
  encodeChannel fuel w h channel n
  = Ok (dct_coefficient w h channel 0 0,
        (if truthy scale then map (fun f => (lit 0.5 + lit 0.5 / scale * f)%js) ac else ac),
        scale).
Proof.
  intros Hn ac scale. unfold encodeChannel.
  rewrite tri_loop_ok by (unfold from_zero; lia). cbn [bind].
  rewrite tri_fold_indices, tri_indices_from_zero by lia. cbn [fold_left].
  match goal with |- context [ec_body w h channel 0 0 ?s] =>
    destruct (ec_body_dc w h channel s) as (D1 & D2 & D3);
    destruct (ec_fold_ac w h channel (ac_indices n) (ec_body w h channel 0 0 s)
                (ac_indices_nonzero n)) as (E1 & E2 & E3)
  end.
  cbv zeta in *. rewrite D2 in E2. rewrite D3 in E3. cbn [ec_ac ec_scale app] in E2, E3.
  rewrite E1, D1, E2, E3. fold ac. fold (max_abs ac). fold scale.
  rewrite normalize_ac_map. reflexivity.
Qed.

End Transform.

(** ** The enumeration of the AC terms *)

(** The AC index set as the specification writes it: the pairs [(cx, cy)]
    with [cx * n < n * (n - cy)] other than [(0, 0)], [cy] outer and [cx]
    inner.  No pair outside the [n] by [n] grid satisfies the condition. *)
Definition ac_pairs (n : Z) : list (Z * Z) :=
  filter (fun '(cx, cy) => (cx * n <? n * (n - cy)) && negb ((cx =? 0) && (cy =? 0)))
         (pixels n n).

Definition ac_count (n : Z) : Z := Z.of_nat (length (ac_pairs n)).

(** the number of AC terms of the three channels *)
Definition totalAc (cfg : config) : Z :=
  ac_count (LUMINANCE_TERMS cfg) + ac_count (CHROMINANCE_TERMS cfg)
  + ac_count (CHROMINANCE_TERMS cfg).

Lemma zrange_nil lo hi : hi <= lo -> zrange lo hi = [].
Proof. intros H. unfold zrange. now replace (Z.to_nat (hi - lo)) with 0%nat by lia. Qed.

Lemma filter_zseq a b k : forall lo,
  filter (fun j => (a <=? j) && (j <? b)) (zseq lo k)
  = zrange (Z.max lo a) (Z.min (lo + Z.of_nat k) b).
Proof.
  induction k as [|k IH]; intros lo.
  - simpl. symmetry. apply zrange_nil. lia.
  - rewrite zseq_S. simpl. rewrite IH.
    destruct (Z.leb_spec a lo), (Z.ltb_spec lo b); simpl.
    + rewrite (zrange_cons (Z.max lo a)) by lia. f_equal; [lia|]. f_equal; lia.
    + rewrite !zrange_nil; auto; lia.
    + f_equal; lia.
    + rewrite !zrange_nil; auto; lia.
Qed.

Lemma filter_flat_map {A B} (f : B -> bool) (g : A -> list B) l :
  filter f (flat_map g l) = flat_map (fun x => filter f (g x)) l.
Proof.
  induction l as [|x l IH]; [reflexivity|]. simpl. now rewrite filter_app, IH.
Qed.

Lemma filter_map_comm {A B} (f : B -> bool) (h : A -> B) l :
  filter f (map h l) = map h (filter (fun x => f (h x)) l).
Proof.
  induction l as [|x l IH]; [reflexivity|]. simpl. destruct (f (h x)); simpl; now rewrite IH.
Qed.

Lemma filter_ext_in' {A} (f g : A -> bool) l :
  (forall x, In x l -> f x = g x) -> filter f l = filter g l.
Proof.
  induction l as [|x l IH]; intros H; [reflexivity|]. simpl.
  rewrite H by now left. rewrite IH; [reflexivity|]. intros. apply H. now right.
Qed.

(** the loop nest of the code visits exactly the index set of the
    specification, in its order *)
Lemma ac_pairs_indices n : 0 < n -> ac_pairs n = ac_indices n.
Proof.
  intros Hn. unfold ac_pairs, ac_indices, tri_indices, pixels.
  rewrite filter_flat_map. apply flat_map_ext_in. intros cy Hcy.
  apply zrange_In in Hcy. rewrite filter_map_comm. f_equal.
  rewrite (filter_ext_in' _ (fun cx => (skip_dc cy <=? cx) && (cx <? n - cy))).
  - unfold zrange at 1. rewrite filter_zseq. f_equal; unfold skip_dc.
    + destruct (Z.eqb_spec cy 0); lia.
    + lia.
  - intros cx Hcx. apply zrange_In in Hcx. rewrite tri_cond by lia. unfold skip_dc.
    destruct (Z.eqb_spec cy 0), (Z.eqb_spec cx 0), (Z.ltb_spec cx (n - cy));
      simpl; try reflexivity; try (symmetry; apply Z.leb_le; lia);
      try (symmetry; apply Z.leb_gt; lia); try lia.
    all: destruct (Z.leb_spec 1 cx), (Z.leb_spec 0 cx); simpl; auto; lia.
Qed.

Lemma ac_pairs_complete n cx cy :
  0 < n -> 0 <= cx -> 0 <= cy ->
  cx * n < n * (n - cy) -> (cx, cy) <> (0, 0) -> In (cx, cy) (ac_pairs n).
Proof.
  intros Hn Hx Hy Hc Hne. unfold ac_pairs. apply filter_In. split.
  - unfold pixels. apply in_flat_map. exists cy. split; [apply zrange_In; nia|].
    apply (in_map (fun x => (x, cy))). apply zrange_In. nia.
  - apply andb_true_intro. split; [now apply Z.ltb_lt|].
    destruct (Z.eqb_spec cx 0), (Z.eqb_spec cy 0); auto. subst. congruence.
Qed.

(** ** 32-bit operators on small operands *)

Ltac zdiv := Z.div_mod_to_equations; lia.

Lemma ToInt32_id z : - 2 ^ 31 <= z < 2 ^ 31 -> JS.ToInt32 z = z.
Proof.
  intros H. unfold JS.ToInt32. rewrite Z.mod_small; lia.
Qed.

Lemma sar_div a k : - 2 ^ 31 <= a < 2 ^ 31 -> 0 <= k < 32 -> JS.sar a k = a / 2 ^ k.
Proof.
  intros Ha Hk. unfold JS.sar. rewrite ToInt32_id, Z.mod_small by lia.
  apply Z.shiftr_div_pow2. lia.
Qed.

Lemma band_land a b :
  - 2 ^ 31 <= a < 2 ^ 31 -> - 2 ^ 31 <= b < 2 ^ 31 -> JS.band a b = Z.land a b.
Proof. intros Ha Hb. unfold JS.band. now rewrite !ToInt32_id. Qed.

Lemma land_1 a : Z.land a 1 = a mod 2.
Proof. change 1 with (Z.ones 1). rewrite Z.land_ones by lia. reflexivity. Qed.

(** ** The length of the hash *)

Section HashLength.
Context {fl : Float64}.

Lemma write_ac_length fs : forall hash idx,
  0 <= idx -> idx + Z.of_nat (length fs) < 2 ^ 31 ->
  Z.of_nat (length hash) = 5 + (idx + 1) / 2 ->
  let st := fold_left write_ac fs (hash, idx) in
  snd st = idx + Z.of_nat (length fs) /\
  Z.of_nat (length (fst st)) = 5 + (idx + Z.of_nat (length fs) + 1) / 2.
Proof.
  induction fs as [|f fs IH]; intros hash idx Hidx Hlt Hlen.
  - simpl. rewrite Z.add_0_r. auto.
  - cbn [fold_left length] in *.
    set (st1 := write_ac (hash, idx) f).
    assert (H1 : snd st1 = idx + 1) by reflexivity.
    assert (H2 : Z.of_nat (length (fst st1)) = 5 + (idx + 1 + 1) / 2).
    { subst st1. cbn [write_ac fst]. rewrite sar_div by lia. change (2 ^ 1) with 2.
      unfold ac_start. rewrite arr_set_length by zdiv. zdiv. }
    destruct st1 as [hash1 idx1]. cbn [fst snd] in H1, H2. subst idx1.
    destruct (IH hash1 (idx + 1)) as [E1 E2]; [lia | lia | assumption |].
    cbv zeta. rewrite E1, E2. split; [lia|]. do 2 f_equal. lia.
Qed.

Lemma fold_left_concat {A B} (f : A -> B -> A) (ls : list (list B)) : forall s,
  fold_left (fun s l => fold_left f l s) ls s = fold_left f (concat ls) s.
Proof.
  induction ls as [|l ls IH]; intros s; [reflexivity|].
  simpl. now rewrite fold_left_app, IH.
Qed.

(** the header bytes and AC terms [rgbaToThumbHash] packs *)
Definition channel_terms (w h : Z) (channel : list num) (n : Z) : num * list num * num :=
  let ac := ac_coefficients w h channel n in
  let scale := max_abs ac in
  (dct_coefficient w h channel 0 0,
   (if truthy scale then map (fun f => (lit 0.5 + lit 0.5 / scale * f)%js) ac else ac),
   scale).

Definition header_bytes (header24 header16 : Z) : list Z :=
  [ JS.band header24 255; JS.band (JS.sar header24 8) 255;
    JS.sar header24 16; JS.band header16 255; JS.sar header16 8 ].

Definition pack (cfg : config) (w h : Z) (rgba : list Z) : list Z * Z :=
  let '(l, p, q) := toLPQ w h rgba (average_color w h rgba) in
  let '(l_dc, l_ac, l_scale) := channel_terms w h l (LUMINANCE_TERMS cfg) in
  let '(p_dc, p_ac, p_scale) := channel_terms w h p (CHROMINANCE_TERMS cfg) in
  let '(q_dc, q_ac, q_scale) := channel_terms w h q (CHROMINANCE_TERMS cfg) in
  fold_left write_ac (l_ac ++ p_ac ++ q_ac)
    (header_bytes (header24_of l_dc p_dc q_dc l_scale) (header16_of p_scale q_scale), 0).

Lemma rgbaToThumbHash_ok fuel cfg w h rgba :
  w <= 100 -> h <= 100 ->
  0 < LUMINANCE_TERMS cfg < Z.of_nat fuel ->
  0 < CHROMINANCE_TERMS cfg < Z.of_nat fuel ->
  rgbaToThumbHash fuel cfg w h rgba = Ok (map JS.ToUint8 (fst (pack cfg w h rgba))).
Proof.
  intros Hw Hh HL HC. unfold rgbaToThumbHash, pack, channel_terms.
  destruct (Z.gtb_spec w 100); [lia|]. destruct (Z.gtb_spec h 100); [lia|].
  cbn [orb]. destruct (toLPQ w h rgba (average_color w h rgba)) as [[l p] q].
  rewrite !encodeChannel_ok by assumption. cbn [bind]. cbv zeta.
  rewrite fold_left_concat. cbn [concat]. rewrite app_nil_r.
  unfold header_bytes. destruct (fold_left write_ac _ _). reflexivity.
Qed.

Lemma channel_terms_length w h channel n :
  0 < n ->
  Z.of_nat (length (snd (fst (channel_terms w h channel n)))) = ac_count n.
Proof.
  intros Hn. unfold channel_terms, ac_count. cbn [fst snd].
  rewrite ac_pairs_indices by assumption.
  destruct (truthy _); unfold ac_coefficients; now rewrite ?length_map.
Qed.

Lemma pixels_length w h : length (pixels w h) = (Z.to_nat h * Z.to_nat w)%nat.
Proof.
  unfold pixels, zrange at 2. rewrite Z.sub_0_r.
  generalize 0 at 2. induction (Z.to_nat h) as [|k IH]; intros lo; [reflexivity|].
  rewrite zseq_S. cbn [flat_map]. rewrite length_app, IH, length_map.
  unfold zrange. rewrite zseq_length. lia.
Qed.

Lemma ac_count_bound n : 0 <= n -> 0 <= ac_count n <= n * n.
Proof.
  intros Hn. unfold ac_count, ac_pairs. split; [lia|].
  etransitivity; [apply inj_le, filter_length_le|].
  rewrite pixels_length. lia.
Qed.

End HashLength.

(** [ceil(z / 2)] *)
Definition ceil_half (z : Z) : Z := (z + 1) / 2.

Lemma ceil_half_spec z : z <= 2 * ceil_half z <= z + 1.
Proof. unfold ceil_half. zdiv. Qed.

Lemma pack_length {fl : Float64} cfg w h rgba :
  0 < LUMINANCE_TERMS cfg <= 10 -> 0 < CHROMINANCE_TERMS cfg <= 10 ->
  Z.of_nat (length (fst (pack cfg w h rgba))) = 5 + ceil_half (totalAc cfg).
Proof.
  intros HL HC. unfold pack, totalAc, ceil_half.
  destruct (toLPQ w h rgba (average_color w h rgba)) as [[l p] q].
  pose proof (channel_terms_length w h l (LUMINANCE_TERMS cfg) ltac:(lia)) as El.
  pose proof (channel_terms_length w h p (CHROMINANCE_TERMS cfg) ltac:(lia)) as Ep.
  pose proof (channel_terms_length w h q (CHROMINANCE_TERMS cfg) ltac:(lia)) as Eq.
  destruct (channel_terms w h l _) as [[l_dc l_ac] l_scale].
  destruct (channel_terms w h p _) as [[p_dc p_ac] p_scale].
  destruct (channel_terms w h q _) as [[q_dc q_ac] q_scale].
  cbn [fst snd] in El, Ep, Eq.
  pose proof (ac_count_bound (LUMINANCE_TERMS cfg) ltac:(lia)).
  pose proof (ac_count_bound (CHROMINANCE_TERMS cfg) ltac:(lia)).
  match goal with |- context [fold_left write_ac ?fs (?hh, 0)] =>
    destruct (write_ac_length fs hh 0) as [_ E];
      [lia | rewrite !length_app; nia | reflexivity |]
  end.
  cbv zeta in E. rewrite E, !length_app. do 2 f_equal. lia.
Qed.

(** C1. For [w], [h] in [1,100], an [rgba] buffer of [w*h*4] bytes and term
    counts in [1,10], [rgbaToThumbHash] returns a byte sequence of length
    [5 + ceil(totalAc/2)], where [totalAc] counts, over the three channels,
    the pairs [(cx,cy) <> (0,0)] with [cx*n < n*(n-cy)]. *)
Theorem rgbaToThumbHash_length {fl : Float64} (fuel : nat) cfg w h rgba :
  1 <= w <= 100 -> 1 <= h <= 100 ->
  Z.of_nat (length rgba) = w * h * 4 ->
  1 <= LUMINANCE_TERMS cfg <= 10 -> 1 <= CHROMINANCE_TERMS cfg <= 10 ->
  (10 < fuel)%nat ->
  exists hash,
    rgbaToThumbHash fuel cfg w h rgba = Ok hash /\
    Z.of_nat (length hash) = 5 + ceil_half (totalAc cfg).
Proof.
  intros Hw Hh _ HL HC Hfuel. eexists. split.
  - apply rgbaToThumbHash_ok; lia.
  - rewrite length_map. apply pack_length; lia.
Qed.

(** binary64 with the cosine above *)
Definition js64 : Float64 := binary64 Binary64.cos.

Lemma rgbaToThumbHash_length_witness :
  exists hash,
    @rgbaToThumbHash js64 11 default_config 2 1 [255; 0; 0; 255; 0; 0; 255; 128] = Ok hash /\
    Z.of_nat (length hash) = 5 + ceil_half (totalAc default_config).
Proof.
  apply (@rgbaToThumbHash_length js64 11 default_config 2 1); simpl; lia.
Defined.

(** ** The dimension check *)

Lemma for_while_no_throw {S} (cond : Z -> bool) (body : Z -> S -> S) fuel :
  forall i s e, for_while fuel cond i body s <> Throw e.
Proof.
  induction fuel as [|k IH]; intros i s e; simpl; [discriminate|].
  destruct (cond i); [apply IH | discriminate].
Qed.

Lemma iter_fromM_no_throw {S} (body : Z -> S -> result S) k :
  (forall i s e, body i s <> Throw e) ->
  forall i s e, iter_fromM k i body s <> Throw e.
Proof.
  intros Hb. induction k as [|k IH]; intros i s e; simpl; [discriminate|].
  destruct (body i s) eqn:E; simpl; [apply IH | now apply Hb in E | discriminate].
Qed.

Lemma encodeChannel_no_throw {fl : Float64} fuel w h channel n e :
  encodeChannel fuel w h channel n <> Throw e.
Proof.
  unfold encodeChannel, tri_loop, for_rangeM.
  match goal with |- bind ?m _ <> _ => destruct m eqn:E end; simpl; try discriminate.
  exfalso. revert E. apply iter_fromM_no_throw. intros. apply for_while_no_throw.
Qed.

Lemma rgbaToThumbHash_no_throw {fl : Float64} fuel cfg w h rgba e :
  w <= 100 -> h <= 100 -> rgbaToThumbHash fuel cfg w h rgba <> Throw e.
Proof.
  intros Hw Hh. unfold rgbaToThumbHash.
  destruct (Z.gtb_spec w 100); [lia|]. destruct (Z.gtb_spec h 100); [lia|].
  cbn [orb]. destruct (toLPQ w h rgba (average_color w h rgba)) as [[l p] q].
  destruct (encodeChannel fuel w h l _) as [[[? ?] ?]| |] eqn:El; cbn [bind];
    [| now apply encodeChannel_no_throw in El | discriminate].
  destruct (encodeChannel fuel w h p _) as [[[? ?] ?]| |] eqn:Ep; cbn [bind];
    [| now apply encodeChannel_no_throw in Ep | discriminate].
  destruct (encodeChannel fuel w h q _) as [[[? ?] ?]| |] eqn:Eq; cbn [bind];
    [| now apply encodeChannel_no_throw in Eq | discriminate].
  destruct (fold_left _ _ _). discriminate.
Qed.

(** C6. [rgbaToThumbHash] throws its dimension error exactly when [w > 100]
    or [h > 100]: it throws it then and throws nothing otherwise, whatever
    the buffer and the configuration; and within the limit (so at 100 by
    100) it returns a hash. *)
Theorem rgbaToThumbHash_throws {fl : Float64} (fuel : nat) cfg w h rgba :
  (w > 100 \/ h > 100 ->
     rgbaToThumbHash fuel cfg w h rgba = Throw (DimensionError w h)) /\
  ((exists e, rgbaToThumbHash fuel cfg w h rgba = Throw e) <-> w > 100 \/ h > 100) /\
  (w <= 100 /\ h <= 100 ->
   1 <= LUMINANCE_TERMS cfg <= 10 -> 1 <= CHROMINANCE_TERMS cfg <= 10 ->
   (10 < fuel)%nat ->
     exists hash, rgbaToThumbHash fuel cfg w h rgba = Ok hash).
Proof.
  assert (Hthrow : w > 100 \/ h > 100 ->
            rgbaToThumbHash fuel cfg w h rgba = Throw (DimensionError w h)).
  { intros Hd. unfold rgbaToThumbHash.
    destruct (Z.gtb_spec w 100), (Z.gtb_spec h 100); simpl; auto. lia. }
  repeat split; auto.
  - intros [e He]. destruct (Z_le_gt_dec w 100), (Z_le_gt_dec h 100); auto.
    now apply rgbaToThumbHash_no_throw in He.
  - intros Hd. eexists. now apply Hthrow.
  - intros [Hw Hh] HL HC Hfuel. eexists. apply rgbaToThumbHash_ok; lia.
Qed.

Lemma rgbaToThumbHash_throws_witness :
  @rgbaToThumbHash js64 11 default_config 101 1 [] = Throw (DimensionError 101 1) /\
  (exists hash, @rgbaToThumbHash js64 11 default_config 100 100 [] = Ok hash).
Proof.
  split.
  - apply (@rgbaToThumbHash_throws js64 11 default_config 101 1 []). left. lia.
  - apply (@rgbaToThumbHash_throws js64 11 default_config 100 100 []); simpl; lia.
Defined.

(** ** The reference term counts *)

(** C8 (the code against its documentation).  With the reference constants
    [LUMINANCE_TERMS = 4] and [CHROMINANCE_TERMS = 3] the enumeration has
    9 + 5 + 5 = 19 AC terms, not 17, and the hash of a one-pixel image has
    15 bytes, not the 14 of the documentation comment. *)
Theorem reference_hash_length :
  ac_count 4 = 9 /\ ac_count 3 = 5 /\ totalAc reference_config = 19 /\
  forall fl : Float64, exists hash,
    @rgbaToThumbHash fl 11 reference_config 1 1 [0; 0; 0; 255] = Ok hash /\
    length hash = 15%nat.
Proof.
  repeat split; try reflexivity.
  intros fl.
  destruct (@rgbaToThumbHash_length fl 11 reference_config 1 1 [0; 0; 0; 255])
    as (hash & E & L); simpl; try lia.
  exists hash. split; [assumption|].
  change (totalAc reference_config) with 19 in L. change (ceil_half 19) with 10 in L. lia.
Qed.

(** ** The decoded raster *)

Lemma typed_set_length {A} (a : list A) i v : length (typed_set a i v) = length a.
Proof. unfold typed_set. destruct (_ && _); [apply list_upd_length | reflexivity]. Qed.

Lemma typed_set_nth {A} (d : A) (a : list A) i v j :
  nth j (typed_set a i v) d
  = if (0 <=? i) && (i <? Z.of_nat (length a)) && (Z.of_nat j =? i) then v else nth j a d.
Proof.
  unfold typed_set.
  destruct (Z.leb_spec 0 i), (Z.ltb_spec i (Z.of_nat (length a))); cbn [andb]; auto.
  rewrite list_upd_nth by lia.
  destruct (Nat.eqb_spec j (Z.to_nat i)), (Z.eqb_spec (Z.of_nat j) i); auto; lia.
Qed.

Lemma iter_fromM_inv {S} (P : Z -> S -> Prop) (body : Z -> S -> result S) k :
  forall lo s,
  P lo s ->
  (forall i s, lo <= i < lo + Z.of_nat k -> P i s ->
               exists s', body i s = Ok s' /\ P (i + 1) s') ->
  exists s', iter_fromM k lo body s = Ok s' /\ P (lo + Z.of_nat k) s'.
Proof.
  induction k as [|k IH]; intros lo s H0 Hstep.
  - exists s. rewrite Z.add_0_r. auto.
  - destruct (Hstep lo s ltac:(lia) H0) as (s1 & E1 & P1).
    destruct (IH (lo + 1) s1 P1) as (s' & E & P').
    { intros i s2 Hi. apply Hstep. lia. }
    exists s'. cbn [iter_fromM]. rewrite E1. cbn [bind]. split; [assumption|].
    now replace (lo + Z.of_nat (Datatypes.S k)) with (lo + 1 + Z.of_nat k) by lia.
Qed.

Section Raster.
Context {fl : Float64}.

Lemma skip_dc_nonneg cy : 0 <= skip_dc cy.
Proof. unfold skip_dc. destruct (cy =? 0); lia. Qed.

Lemma pixel_step_ok fuel cfg hd l_ac p_ac q_ac w h y x s :
  LUMINANCE_TERMS cfg < Z.of_nat fuel -> CHROMINANCE_TERMS cfg < Z.of_nat fuel ->
  exists r g b fx fy,
    pixel_step fuel cfg hd l_ac p_ac q_ac w h y x s
    = Ok {| px_rgba := typed_set (typed_set (typed_set (typed_set (px_rgba s)
                         (px_i s) r) (px_i s + 1) g) (px_i s + 2) b) (px_i s + 3) 255;
            px_fx := fx; px_fy := fy; px_i := px_i s + 4 |}.
Proof.
  intros HL HC. unfold pixel_step, decode_pixel, decode_L, decode_PQ.
  rewrite !tri_loop_ok by (assumption || apply skip_dc_nonneg). cbn [bind].
  destruct (tri_fold (LUMINANCE_TERMS cfg) _ _ _) as [l jl].
  destruct (tri_fold (CHROMINANCE_TERMS cfg) _ _ _) as [[p q] jq].
  destruct (fromLPQ l p q) as [[r g] b]. cbn [bind].
  now eexists _, _, _, _, _.
Qed.

(** the raster invariant after [k] pixels *)
Definition raster_inv (k : Z) (s : px_state) : Prop :=
  px_i s = 4 * k /\ length (px_rgba s) = 4096%nat /\
  forall j, 0 <= j < k -> nth (Z.to_nat (4 * j + 3)) (px_rgba s) 0 = 255.

Lemma pixel_step_inv fuel cfg hd l_ac p_ac q_ac w h y x k s :
  LUMINANCE_TERMS cfg < Z.of_nat fuel -> CHROMINANCE_TERMS cfg < Z.of_nat fuel ->
  0 <= k < 1024 -> raster_inv k s ->
  exists s', pixel_step fuel cfg hd l_ac p_ac q_ac w h y x s = Ok s' /\
             raster_inv (k + 1) s'.
Proof.
  intros HL HC Hk (Hi & Hlen & Ha).
  destruct (pixel_step_ok fuel cfg hd l_ac p_ac q_ac w h y x s HL HC)
    as (r & g & b & fx & fy & E).
  eexists. split; [exact E|]. unfold raster_inv. cbn [px_i px_rgba].
  split; [lia|]. split; [now rewrite !typed_set_length|].
  intros j Hj. rewrite !typed_set_nth, !typed_set_length, Hlen, Hi.
  destruct (Z.eq_dec j k) as [->|Hne].
  - replace ((0 <=? 4 * k + 3) && (4 * k + 3 <? Z.of_nat 4096)
             && (Z.of_nat (Z.to_nat (4 * k + 3)) =? 4 * k + 3)) with true; [reflexivity|].
    symmetry. rewrite !andb_true_iff, Z.leb_le, Z.ltb_lt, Z.eqb_eq. lia.
  - repeat match goal with
      |- context [?c && (Z.of_nat (Z.to_nat (4 * j + 3)) =? ?t)] =>
        replace (Z.of_nat (Z.to_nat (4 * j + 3)) =? t) with false
          by (symmetry; apply Z.eqb_neq; lia);
        rewrite (andb_false_r c)
    end.
    apply Ha. lia.
Qed.

Lemma decodeChannel_ok fuel hash n scale ac_index :
  n < Z.of_nat fuel ->
  exists ac i, decodeChannel fuel hash n scale ac_index = Ok (ac, i).
Proof.
  intros Hn. unfold decodeChannel. rewrite tri_loop_ok by (assumption || apply skip_dc_nonneg).
  destruct (tri_fold _ _ _ _) as [ac i]. now exists ac, i.
Qed.

(** [thumbHashToRGBA] returns a 32 by 32 raster whose alpha samples are 255,
    whatever the bytes of the hash *)
Lemma thumbHashToRGBA_raster fuel cfg hash :
  LUMINANCE_TERMS cfg < Z.of_nat fuel -> CHROMINANCE_TERMS cfg < Z.of_nat fuel ->
  exists img,
    thumbHashToRGBA fuel cfg hash = Ok img /\
    img_w img = 32 /\ img_h img = 32 /\
    length (img_rgba img) = 4096%nat /\
    forall k, 0 <= k < 1024 -> nth (Z.to_nat (4 * k + 3)) (img_rgba img) 0 = 255.
Proof.
  intros HL HC. unfold thumbHashToRGBA, read_terms.
  destruct (decodeChannel_ok fuel hash (LUMINANCE_TERMS cfg) (l_scale (read_header hash)) 0 HL)
    as (l_ac & i1 & ->). cbn [bind].
  destruct (decodeChannel_ok fuel hash (CHROMINANCE_TERMS cfg)
              (p_scale (read_header hash) * lit 1.25)%js i1 HC) as (p_ac & i2 & ->).
  cbn [bind].
  destruct (decodeChannel_ok fuel hash (CHROMINANCE_TERMS cfg)
              (q_scale (read_header hash) * lit 1.25)%js i2 HC) as (q_ac & i3 & ->).
  cbn [bind]. unfold for_rangeM at 1.
  match goal with |- context [iter_fromM ?k 0 ?body ?s0] =>
    destruct (iter_fromM_inv (fun y s => raster_inv (32 * y) s) body k 0 s0)
      as (s' & E & (Hi & Hlen & Ha))
  end.
  - unfold raster_inv. cbn [px_i px_rgba]. split; [reflexivity|].
    split; [reflexivity|]. intros j Hj. lia.
  - intros y s Hy Hs. unfold for_rangeM.
    match goal with |- context [iter_fromM ?k 0 ?body s] =>
      destruct (iter_fromM_inv (fun x s => raster_inv (32 * y + x) s) body k 0 s)
        as (s1 & E1 & H1)
    end.
    + now rewrite Z.add_0_r.
    + intros x s1 Hx Hs1.
      destruct (pixel_step_inv fuel cfg (read_header hash) l_ac p_ac q_ac 32 32 y x
                  (32 * y + x) s1 HL HC) as (s2 & E2 & H2); [lia | assumption |].
      exists s2. split; [assumption|]. now rewrite Z.add_assoc.
    + exists s1. split; [assumption|].
      replace (32 * (y + 1)) with (32 * y + (0 + Z.of_nat (Z.to_nat (32 - 0)))) by lia.
      assumption.
  - rewrite E. cbn [bind]. eexists. split; [reflexivity|]. cbn [img_w img_h img_rgba].
    repeat split; auto. all: intros k Hk; apply Ha; lia.
Qed.

End Raster.

(** C2. For every hash [rgbaToThumbHash] produces from a valid input,
    [thumbHashToRGBA] returns width 32, height 32 and a buffer of
    32*32*4 = 4096 bytes in which every fourth byte from index 3 on is 255. *)
Theorem decode_of_encode_raster {fl : Float64} (fuel : nat) cfg w h rgba :
  1 <= w <= 100 -> 1 <= h <= 100 ->
  Z.of_nat (length rgba) = w * h * 4 ->
  1 <= LUMINANCE_TERMS cfg <= 10 -> 1 <= CHROMINANCE_TERMS cfg <= 10 ->
  (10 < fuel)%nat ->
  exists hash img,
    rgbaToThumbHash fuel cfg w h rgba = Ok hash /\
    thumbHashToRGBA fuel cfg hash = Ok img /\
    img_w img = 32 /\ img_h img = 32 /\
    Z.of_nat (length (img_rgba img)) = 32 * 32 * 4 /\
    forall k, 0 <= k -> 4 * k + 3 < 32 * 32 * 4 ->
              nth (Z.to_nat (4 * k + 3)) (img_rgba img) 0 = 255.
Proof.
  intros Hw Hh Hlen HL HC Hfuel.
  destruct (rgbaToThumbHash_length fuel cfg w h rgba Hw Hh Hlen HL HC Hfuel)
    as (hash & E & _).
  destruct (thumbHashToRGBA_raster fuel cfg hash) as (img & D & Ew & Eh & El & Ea); [lia..|].
  exists hash, img. repeat split; auto.
  - rewrite El. reflexivity.
  - intros k Hk Hk'. apply Ea. lia.
Qed.

Lemma decode_of_encode_raster_witness :
  exists hash img,
    @rgbaToThumbHash js64 11 default_config 2 1 [255; 0; 0; 255; 0; 0; 255; 128] = Ok hash /\
    @thumbHashToRGBA js64 11 default_config hash = Ok img /\
    img_w img = 32 /\ img_h img = 32 /\
    Z.of_nat (length (img_rgba img)) = 32 * 32 * 4 /\
    forall k, 0 <= k -> 4 * k + 3 < 32 * 32 * 4 ->
              nth (Z.to_nat (4 * k + 3)) (img_rgba img) 0 = 255.
Proof.
  apply (@decode_of_encode_raster js64 11 default_config 2 1); simpl; lia.
Defined.

(** ** The PNG stream, as the formats define it *)

Module PNGSpec.

(** Adler-32 (RFC 1950): two sums modulo 65521, one byte at a time. *)
Definition adler_step (s : Z * Z) (byte : Z) : Z * Z :=
  let s1 := (fst s + byte) mod 65521 in (s1, (snd s + s1) mod 65521).

Definition adler32 (data : list Z) : Z :=
  let s := fold_left adler_step data (1, 0) in snd s * 65536 + fst s.

(** CRC-32 (PNG, ISO 3309): the reflected polynomial [0xEDB88320], one bit
    at a time, initial value and final complement [0xFFFFFFFF]. *)
Definition poly : Z := 0xEDB88320.

Definition crc_bit (c : Z) : Z :=
  Z.lxor (Z.shiftr c 1) (if Z.testbit c 0 then poly else 0).

Definition crc_byte (c byte : Z) : Z :=
  Nat.iter 8 crc_bit (Z.lxor c byte).

Definition crc32 (data : list Z) : Z :=
  Z.lxor (fold_left crc_byte data 0xFFFFFFFF) 0xFFFFFFFF.

(** four bytes, most significant first *)
Definition be32 (z : Z) : list Z :=
  [ z / 2 ^ 24 mod 256; z / 2 ^ 16 mod 256; z / 2 ^ 8 mod 256; z mod 256 ].

(** a chunk: length, type tag, payload, and the CRC-32 of tag and payload *)
Definition chunk (tag payload : list Z) : list Z :=
  be32 (Z.of_nat (length payload)) ++ tag ++ payload ++ be32 (crc32 (tag ++ payload)).

(** the [w * 4] bytes of scanline [y] *)
Definition scanline (w : Z) (rgba : list Z) (y : Z) : list Z :=
  map (fun i => nth (Z.to_nat i) rgba 0) (zrange (y * (w * 4)) ((y + 1) * (w * 4))).

(** scanline [y] behind its filter byte 0 ("none") *)
Definition filtered (w : Z) (rgba : list Z) (y : Z) : list Z := 0 :: scanline w rgba y.

(** a DEFLATE stored block: [BFINAL], [LEN] and its complement, low byte
    first, then the data *)
Definition stored_block (final : bool) (data : list Z) : list Z :=
  let len := Z.of_nat (length data) in
  [ (if final then 1 else 0); len mod 256; len / 256;
    255 - len mod 256; 255 - len / 256 ] ++ data.

(** the zlib stream: header, one stored block per scanline, Adler-32 of the
    filtered scanlines *)
Definition zlib_stream (w h : Z) (rgba : list Z) : list Z :=
  [ 0x78; 0x01 ]
  ++ flat_map (fun y => stored_block (y =? h - 1) (filtered w rgba y)) (zrange 0 h)
  ++ be32 (adler32 (flat_map (filtered w rgba) (zrange 0 h))).

Definition signature : list Z := [ 137; 80; 78; 71; 13; 10; 26; 10 ].
Definition IHDR : list Z := [ 73; 72; 68; 82 ].
Definition IDAT : list Z := [ 73; 68; 65; 84 ].
Definition IEND : list Z := [ 73; 69; 78; 68 ].

Definition png (w h : Z) (rgba : list Z) : list Z :=
  signature
  ++ chunk IHDR (be32 w ++ be32 h ++ [ 8; 6; 0; 0; 0 ])
  ++ chunk IDAT (zlib_stream w h rgba)
  ++ chunk IEND [].

Definition is_byte (x : Z) : Prop := 0 <= x <= 255.

End PNGSpec.

Example png_1x1_white :
  PNG.png_bytes 1 1 [255; 255; 255; 255] = PNGSpec.png 1 1 [255; 255; 255; 255].
Proof. vm_compute. reflexivity. Qed.

Example png_2x3 :
  let rgba := map (fun i => (i * 37) mod 256) (zrange 0 24) in
  PNG.png_bytes 2 3 rgba = PNGSpec.png 2 3 rgba.
Proof. vm_compute. reflexivity. Qed.

(** ** 32-bit operators modulo [2^32] *)

Lemma ToInt32_mod z : JS.ToInt32 z mod 2 ^ 32 = z mod 2 ^ 32.
Proof.
  unfold JS.ToInt32.
  rewrite <- (Z.mod_add (_ - _) 1 (2 ^ 32)) by lia.
  replace ((z + 2 ^ 31) mod 2 ^ 32 - 2 ^ 31 + 1 * 2 ^ 32)
    with ((z + 2 ^ 31) mod 2 ^ 32 + 2 ^ 31) by lia.
  rewrite Z.add_mod_idemp_l by lia.
  replace (z + 2 ^ 31 + 2 ^ 31) with (z + 1 * 2 ^ 32) by lia.
  apply Z.mod_add. lia.
Qed.

Lemma lxor_mod a b n :
  0 <= n -> Z.lxor a b mod 2 ^ n = Z.lxor (a mod 2 ^ n) (b mod 2 ^ n).
Proof.
  intros Hn. rewrite <- !Z.land_ones by assumption.
  apply Z.bits_inj'. intros i Hi.
  rewrite Z.lxor_spec, !Z.land_spec, Z.lxor_spec.
  destruct (Z.testbit (Z.ones n) i); now rewrite ?andb_true_r, ?andb_false_r.
Qed.

Lemma bxor_mod a b : JS.bxor a b mod 2 ^ 32 = Z.lxor (a mod 2 ^ 32) (b mod 2 ^ 32).
Proof. unfold JS.bxor. now rewrite lxor_mod, !ToInt32_mod by lia. Qed.

Lemma lxor_ones u n : 0 < n -> 0 <= u < 2 ^ n -> Z.lxor u (Z.ones n) = Z.ones n - u.
Proof.
  intros Hn Hu.
  assert (Hlog : Z.log2 u < n).
  { destruct (Z.eq_dec u 0) as [->|Hne]; [simpl; lia|]. apply Z.log2_lt_pow2; lia. }
  rewrite <- Z.ldiff_ones_l_low by lia. symmetry. apply Z.sub_nocarry_ldiff.
  apply Z.ldiff_ones_r_low; lia.
Qed.

Lemma bnot_mod a : JS.bnot a mod 2 ^ 32 = Z.lxor (a mod 2 ^ 32) 0xFFFFFFFF.
Proof.
  unfold JS.bnot. change 0xFFFFFFFF with (Z.ones 32).
  rewrite lxor_ones by (try apply Z.mod_pos_bound; lia).
  rewrite <- (ToInt32_mod a). generalize (JS.ToInt32 a). intros x.
  unfold Z.lnot. change (Z.ones 32) with (2 ^ 32 - 1). zdiv.
Qed.

Lemma shr_mod c k : 0 <= k < 32 -> JS.shr c k = (c mod 2 ^ 32) / 2 ^ k.
Proof.
  intros Hk. unfold JS.shr, JS.ToUint32. rewrite (Z.mod_small k) by lia.
  apply Z.shiftr_div_pow2. lia.
Qed.

Lemma band_low c n :
  0 <= n <= 31 -> JS.band c (Z.ones n) = (c mod 2 ^ 32) mod 2 ^ n.
Proof.
  intros Hn. unfold JS.band.
  assert (Hones : 0 <= Z.ones n < 2 ^ 31).
  { rewrite Z.ones_equiv. assert (2 ^ n <= 2 ^ 31) by (apply Z.pow_le_mono_r; lia). lia. }
  rewrite (ToInt32_id (Z.ones n)) by lia.
  rewrite Z.land_ones by lia. rewrite <- (ToInt32_mod c).
  generalize (JS.ToInt32 c). intros x.
  assert (E : 2 ^ 32 = 2 ^ (32 - n) * 2 ^ n) by (rewrite <- Z.pow_add_r; f_equal; lia).
  assert (0 < 2 ^ n) by (apply Z.pow_pos_nonneg; lia).
  rewrite (Z.mod_eq x (2 ^ 32)) by lia. rewrite E at 1.
  replace (x - 2 ^ (32 - n) * 2 ^ n * (x / 2 ^ 32))
    with (x + (- (2 ^ (32 - n) * (x / 2 ^ 32))) * 2 ^ n) by ring.
  symmetry. apply Z.mod_add. lia.
Qed.

(** ** CRC-32: the table steps against the bit steps *)

Module CRC.
Import PNGSpec.

Lemma iter_add {A} (f : A -> A) j k x :
  Nat.iter (j + k) f x = Nat.iter j f (Nat.iter k f x).
Proof. induction j as [|j IH]; simpl; congruence. Qed.

Lemma crc_bit_lxor a b : crc_bit (Z.lxor a b) = Z.lxor (crc_bit a) (crc_bit b).
Proof.
  unfold crc_bit. rewrite Z.shiftr_lxor, Z.lxor_spec.
  destruct (Z.testbit a 0), (Z.testbit b 0); simpl xorb; cbv iota;
    rewrite ?Z.lxor_0_r.
  - rewrite Z.lxor_assoc, <- (Z.lxor_assoc poly), (Z.lxor_comm poly (Z.shiftr b 1)).
    now rewrite Z.lxor_assoc, Z.lxor_nilpotent, Z.lxor_0_r.
  - now rewrite !Z.lxor_assoc, (Z.lxor_comm poly).
  - now rewrite Z.lxor_assoc.
  - reflexivity.
Qed.

Lemma crc_bit_shiftl x k : 0 <= k -> crc_bit (Z.shiftl x (k + 1)) = Z.shiftl x k.
Proof.
  intros Hk. unfold crc_bit. rewrite Z.shiftl_spec_low by lia.
  rewrite Z.lxor_0_r, Z.shiftr_shiftl_l by lia. f_equal. lia.
Qed.

Lemma iter_lxor k a b :
  Nat.iter k crc_bit (Z.lxor a b) = Z.lxor (Nat.iter k crc_bit a) (Nat.iter k crc_bit b).
Proof.
  induction k as [|k IH]; [reflexivity|]. simpl. now rewrite IH, crc_bit_lxor.
Qed.

Lemma iter_shiftl k x :
  Nat.iter k crc_bit (Z.shiftl x (Z.of_nat k)) = x.
Proof.
  revert x. induction k as [|k IH]; intros x; [apply Z.shiftl_0_r|].
  rewrite Nat.iter_succ_r. replace (Z.of_nat (Datatypes.S k)) with (Z.of_nat k + 1) by lia.
  rewrite crc_bit_shiftl by lia. apply IH.
Qed.

Lemma split_nibble u : 0 <= u -> u = Z.lxor (Z.shiftl (u / 16) 4) (u mod 16).
Proof.
  intros Hu. rewrite <- Z.add_nocarry_lxor.
  - rewrite Z.shiftl_mul_pow2 by lia. change (2 ^ 4) with 16. zdiv.
  - change 16 with (2 ^ 4). rewrite <- Z.land_ones by lia.
    apply Z.bits_inj'. intros i Hi. rewrite !Z.land_spec, Z.bits_0.
    destruct (Z.ltb_spec i 4).
    + rewrite Z.shiftl_spec_low by lia. reflexivity.
    + rewrite Z.ones_spec_high by lia. now rewrite !andb_false_r.
Qed.

Lemma four_steps u :
  0 <= u ->
  Nat.iter 4 crc_bit u = Z.lxor (u / 16) (Nat.iter 4 crc_bit (u mod 16)).
Proof.
  intros Hu. rewrite (split_nibble u Hu) at 1.
  rewrite iter_lxor. f_equal. apply (iter_shiftl 4).
Qed.

Lemma table_steps j :
  0 <= j < 16 -> arr_get 0 PNG.table j mod 2 ^ 32 = Nat.iter 4 crc_bit j.
Proof.
  intros Hj.
  assert (H : forallb (fun j => arr_get 0 PNG.table j mod 2 ^ 32 =? Nat.iter 4 crc_bit j)
                (zrange 0 16) = true) by (vm_compute; reflexivity).
  rewrite forallb_forall in H. apply Z.eqb_eq, H, zrange_In. lia.
Qed.

(** one table step is four bit steps *)
Lemma nibble_step c :
  JS.bxor (JS.shr c 4) (arr_get 0 PNG.table (JS.band c 15)) mod 2 ^ 32
  = Nat.iter 4 crc_bit (c mod 2 ^ 32).
Proof.
  pose proof (Z.mod_pos_bound c (2 ^ 32) ltac:(lia)) as Hu.
  rewrite bxor_mod, shr_mod by lia. change 15 with (Z.ones 4). rewrite band_low by lia.
  change (2 ^ 4) with 16. rewrite table_steps by (apply Z.mod_pos_bound; lia).
  rewrite (four_steps (c mod 2 ^ 32)) by lia. f_equal.
  apply Z.mod_small. zdiv.
Qed.

(** one round of the checksum loop is the CRC of one more byte *)
Lemma crc_step_byte bs i c :
  is_byte (arr_get 0 bs i) ->
  PNG.crc_step bs i c mod 2 ^ 32 = crc_byte (c mod 2 ^ 32) (arr_get 0 bs i).
Proof.
  intros Hb. unfold PNG.crc_step, crc_byte. rewrite !nibble_step, bxor_mod.
  rewrite (Z.mod_small (arr_get 0 bs i)) by (unfold is_byte in Hb; lia).
  generalize (Z.lxor (c mod 2 ^ 32) (arr_get 0 bs i)). intros u.
  symmetry. apply (iter_add crc_bit 4%nat 4%nat).
Qed.

Global Opaque crc_byte.

End CRC.

(** ** The emitter against the formats *)

Module PNGProofs.
Import PNGSpec.

Local Opaque PNG.crc_step.

Lemma arr_get_at {A} (hole : A) done x rest i :
  i = Z.of_nat (length done) -> arr_get hole (done ++ x :: rest) i = x.
Proof. intros ->. apply arr_get_mid. Qed.

Lemma arr_set_at {A} (hole : A) done x rest i v :
  i = Z.of_nat (length done) -> arr_set hole (done ++ x :: rest) i v = done ++ v :: rest.
Proof. intros ->. apply arr_set_mid. Qed.

Lemma fold_left_cons {A B} (f : A -> B -> A) x l a :
  fold_left f (x :: l) a = fold_left f l (f a x).
Proof. reflexivity. Qed.

Lemma zseq_cons_length {A} lo (x : A) body :
  zseq lo (length (x :: body)) = lo :: zseq (lo + 1) (length body).
Proof. apply zseq_S. Qed.

Lemma crc_step_value bs i c x :
  arr_get 0 bs i = x -> is_byte x ->
  PNG.crc_step bs i c mod 2 ^ 32 = crc_byte (c mod 2 ^ 32) x.
Proof. intros <-. apply CRC.crc_step_byte. Qed.

Lemma fold_crc bs body : forall lo c,
  Forall is_byte body ->
  (forall j, (j < length body)%nat -> arr_get 0 bs (lo + Z.of_nat j) = nth j body 0) ->
  fold_left (fun c i => PNG.crc_step bs i c) (zseq lo (length body)) c mod 2 ^ 32
  = fold_left crc_byte body (c mod 2 ^ 32).
Proof.
  induction body as [|x body IH]; intros lo c Hb Hget; [reflexivity|].
  rewrite zseq_cons_length, !fold_left_cons.
  inversion Hb as [|? ? Hx Hb']; subst.
  assert (E0 : arr_get 0 bs lo = x).
  { rewrite <- (Z.add_0_r lo). apply (Hget 0%nat). simpl. lia. }
  rewrite IH.
  - rewrite (crc_step_value bs lo c x E0 Hx). reflexivity.
  - assumption.
  - intros j Hj. replace (lo + 1 + Z.of_nat j) with (lo + Z.of_nat (Datatypes.S j)) by lia.
    apply (Hget (Datatypes.S j)). simpl. lia.
Qed.

Lemma arr_get_app_mid {A} (hole : A) pre body post j :
  (j < length body)%nat ->
  arr_get hole (pre ++ body ++ post) (Z.of_nat (length pre) + Z.of_nat j) = nth j body hole.
Proof.
  intros Hj. unfold arr_get.
  destruct (Z.ltb_spec (Z.of_nat (length pre) + Z.of_nat j) 0); [lia|].
  replace (Z.to_nat (Z.of_nat (length pre) + Z.of_nat j)) with (length pre + j)%nat by lia.
  rewrite app_nth2_plus, app_nth1 by assumption. reflexivity.
Qed.

Lemma crc_loop pre body post c :
  Forall is_byte body ->
  for_range (Z.of_nat (length pre)) (Z.of_nat (length pre) + Z.of_nat (length body))
    (PNG.crc_step (pre ++ body ++ post)) c mod 2 ^ 32
  = fold_left crc_byte body (c mod 2 ^ 32).
Proof.
  intros Hb. rewrite for_range_fold. unfold zrange.
  replace (Z.to_nat (_ - _)) with (length body) by lia.
  apply fold_crc; [assumption|]. intros j Hj. now apply arr_get_app_mid.
Qed.

Lemma be32_of_mod c :
  [ JS.shr c 24; JS.band (JS.sar c 16) 255; JS.band (JS.sar c 8) 255; JS.band c 255 ]
  = be32 (c mod 2 ^ 32).
Proof.
  unfold be32. change 255 with (Z.ones 8). rewrite !band_low, shr_mod by lia.
  unfold JS.sar. rewrite !(Z.mod_small _ 32) by lia.
  rewrite !Z.shiftr_div_pow2 by lia.
  pose proof (ToInt32_mod c) as E. revert E. generalize (JS.ToInt32 c). intros t E.
  change (2 ^ 8) with 256 in *. change (2 ^ 16) with 65536 in *.
  change (2 ^ 24) with 16777216 in *. change (2 ^ 32) with 4294967296 in *.
  repeat (apply (f_equal2 (@cons Z)); [zdiv|]). reflexivity.
Qed.

(** the body of the checksum loop writes the CRC-32 of the bytes in its
    range behind them *)
Lemma write_crc_spec pre body x0 x1 x2 x3 post :
  Forall is_byte body ->
  PNG.write_crc (pre ++ body ++ [x0; x1; x2; x3] ++ post)
    (Z.of_nat (length pre), Z.of_nat (length pre) + Z.of_nat (length body))
  = pre ++ body ++ be32 (crc32 body) ++ post.
Proof.
  intros Hb. unfold PNG.write_crc.
  set (c := JS.bnot (for_range _ _ _ _)).
  assert (Hc : c mod 2 ^ 32 = crc32 body).
  { subst c. rewrite bnot_mod, crc_loop by assumption. reflexivity. }
  pose proof (be32_of_mod c) as Hbe. rewrite Hc in Hbe.
  set (v0 := JS.shr c 24) in *. set (v1 := JS.band (JS.sar c 16) 255) in *.
  set (v2 := JS.band (JS.sar c 8) 255) in *. set (v3 := JS.band c 255) in *.
  rewrite <- Hbe. clearbody v0 v1 v2 v3. clear.
  rewrite !app_assoc. set (p := pre ++ body).
  assert (Hp : Z.of_nat (length pre) + Z.of_nat (length body) = Z.of_nat (length p))
    by (subst p; rewrite length_app; lia).
  rewrite Hp. clearbody p. clear. rewrite <- !app_assoc. cbn [app].
  rewrite (arr_set_at 0 p) by reflexivity.
  replace (p ++ v0 :: x1 :: x2 :: x3 :: post) with ((p ++ [v0]) ++ x1 :: x2 :: x3 :: post)
    by (rewrite <- app_assoc; reflexivity).
  rewrite (arr_set_at 0 (p ++ [v0])) by (rewrite length_app; simpl; lia).
  replace ((p ++ [v0]) ++ v1 :: x2 :: x3 :: post) with ((p ++ [v0; v1]) ++ x2 :: x3 :: post)
    by (rewrite <- !app_assoc; reflexivity).
  rewrite (arr_set_at 0 (p ++ [v0; v1])) by (rewrite length_app; simpl; lia).
  replace ((p ++ [v0; v1]) ++ v2 :: x3 :: post) with ((p ++ [v0; v1; v2]) ++ x3 :: post)
    by (rewrite <- !app_assoc; reflexivity).
  rewrite (arr_set_at 0 (p ++ [v0; v1; v2])) by (rewrite length_app; simpl; lia).
  rewrite <- !app_assoc. reflexivity.
Qed.

Lemma nth_byte rgba j : Forall is_byte rgba -> is_byte (nth j rgba 0).
Proof.
  intros H. revert j. induction H as [|x l Hx _ IH]; intros [|j]; simpl; auto;
    unfold is_byte; lia.
Qed.

Lemma band_byte x : is_byte x -> JS.band x 255 = x.
Proof.
  unfold is_byte. intros H. change 255 with (Z.ones 8). rewrite band_low by lia.
  rewrite (Z.mod_small x (2 ^ 32)) by lia. apply Z.mod_small. lia.
Qed.

Lemma adler_step_range s x :
  let s' := adler_step s x in 0 <= fst s' < 65521 /\ 0 <= snd s' < 65521.
Proof. unfold adler_step. cbn [fst snd]. split; apply Z.mod_pos_bound; lia. Qed.

Lemma adler_fold_range data : forall s,
  0 <= fst s < 65521 -> 0 <= snd s < 65521 ->
  let s' := fold_left adler_step data s in 0 <= fst s' < 65521 /\ 0 <= snd s' < 65521.
Proof.
  induction data as [|x data IH]; intros s H1 H2; [simpl; auto|].
  simpl. apply IH; apply adler_step_range.
Qed.

(** the inner loop of the scanline loop *)
Lemma pixels_loop rgba k : forall lo s,
  0 <= lo -> Forall is_byte rgba -> 0 <= PNG.a s < 65521 -> 0 <= PNG.b s < 65521 ->
  let data := map (fun i => nth (Z.to_nat i) rgba 0) (zseq lo k) in
  let st := fold_left adler_step data (PNG.a s, PNG.b s) in
  let s' := iter_from k lo (PNG.push_pixel rgba) s in
  PNG.bytes s' = PNG.bytes s ++ data /\ PNG.a s' = fst st /\ PNG.b s' = snd st /\
  PNG.i s' = (if Nat.eqb k 0 then PNG.i s else lo + Z.of_nat k) /\
  PNG.end_ s' = PNG.end_ s.
Proof.
  induction k as [|k IH]; intros lo s Hlo Hb Ha Hbb.
  - simpl. rewrite app_nil_r. auto.
  - rewrite zseq_S. cbn [iter_from map fold_left]. cbv zeta.
    set (s1 := PNG.push_pixel rgba lo s).
    set (u := JS.band (arr_get 0 rgba lo) 255).
    assert (Hu : u = nth (Z.to_nat lo) rgba 0).
    { subst u. unfold arr_get. destruct (Z.ltb_spec lo 0); [lia|].
      apply band_byte, nth_byte, Hb. }
    assert (Hub : is_byte u) by (rewrite Hu; apply nth_byte, Hb).
    unfold is_byte in Hub.
    assert (E1 : (PNG.a s1, PNG.b s1) = adler_step (PNG.a s, PNG.b s) (nth (Z.to_nat lo) rgba 0)).
    { subst s1. unfold PNG.push_pixel. cbn [PNG.a PNG.b]. fold u. rewrite <- Hu.
      unfold adler_step. cbn [fst snd].
      pose proof (Z.mod_pos_bound (PNG.a s + u) 65521 ltac:(lia)).
      rewrite !Z.rem_mod_nonneg by lia. reflexivity. }
    assert (E2 : PNG.bytes s1 = PNG.bytes s ++ [nth (Z.to_nat lo) rgba 0]
                 /\ PNG.i s1 = lo + 1 /\ PNG.end_ s1 = PNG.end_ s).
    { subst s1. unfold PNG.push_pixel. cbn [PNG.bytes PNG.i PNG.end_]. fold u.
      rewrite Hu. auto. }
    destruct E2 as (E2 & E3 & E4).
    pose proof (adler_step_range (PNG.a s, PNG.b s) (nth (Z.to_nat lo) rgba 0)) as Hr.
    cbv zeta in Hr. rewrite <- E1 in Hr. cbn [fst snd] in Hr.
    destruct (IH (lo + 1) s1 ltac:(lia) Hb (proj1 Hr) (proj2 Hr)) as (B & A1 & B1 & I1 & En).
    cbv zeta in *. rewrite <- E1. rewrite B, A1, B1, I1, En, E2, E3, E4, <- app_assoc.
    cbn [app]. repeat split; auto. destruct k; simpl Nat.eqb; cbv iota; lia.
Qed.

Lemma scanline_zseq w rgba y :
  0 <= w -> scanline w rgba y
            = map (fun i => nth (Z.to_nat i) rgba 0) (zseq (y * (w * 4)) (Z.to_nat (w * 4))).
Proof.
  intros Hw. unfold scanline, zrange. do 2 f_equal. lia.
Qed.

Lemma scanline_length w rgba y : 0 <= w -> Z.of_nat (length (scanline w rgba y)) = w * 4.
Proof. intros Hw. rewrite scanline_zseq, length_map, zseq_length by lia. lia. Qed.

(** the header bytes the loop pushes are the stored-block header *)
Lemma block_header row :
  0 < row < 65536 ->
  [ JS.band row 255; JS.sar row 8; JS.band (JS.bnot row) 255; JS.bxor (JS.sar row 8) 255 ]
  = [ row mod 256; row / 256; 255 - row mod 256; 255 - row / 256 ].
Proof.
  intros Hr.
  assert (E1 : JS.band row 255 = row mod 256).
  { change 255 with (Z.ones 8). rewrite band_low by lia.
    rewrite (Z.mod_small row (2 ^ 32)) by lia. reflexivity. }
  assert (E2 : JS.sar row 8 = row / 256) by (rewrite sar_div by lia; reflexivity).
  assert (E3 : JS.band (JS.bnot row) 255 = 255 - row mod 256).
  { change 255 with (Z.ones 8) at 1. rewrite band_low, bnot_mod by lia.
    change 0xFFFFFFFF with (Z.ones 32).
    rewrite lxor_ones by (try apply Z.mod_pos_bound; lia).
    change (Z.ones 32) with 4294967295. change (2 ^ 32) with 4294967296.
    change (2 ^ 8) with 256. zdiv. }
  assert (E4 : JS.bxor (JS.sar row 8) 255 = 255 - row / 256).
  { rewrite E2. unfold JS.bxor. rewrite !ToInt32_id by zdiv.
    change 255 with (Z.ones 8). apply lxor_ones; [lia | zdiv]. }
  now rewrite E4, E3, E1, E2.
Qed.

(** one pass of the scanline loop *)
Lemma row_step_spec w h rgba y s :
  1 <= w <= 16383 -> 0 <= y < h -> Forall is_byte rgba ->
  0 <= PNG.a s < 65521 -> 0 <= PNG.b s < 65521 ->
  PNG.i s = y * (w * 4) -> PNG.end_ s = (y + 1) * (w * 4) ->
  let st := fold_left adler_step (filtered w rgba y) (PNG.a s, PNG.b s) in
  let s' := PNG.row_step h (w * 4 + 1) rgba y s in
  PNG.bytes s' = PNG.bytes s ++ stored_block (y =? h - 1) (filtered w rgba y) /\
  PNG.a s' = fst st /\ PNG.b s' = snd st /\
  PNG.i s' = (y + 1) * (w * 4) /\ PNG.end_ s' = (y + 1 + 1) * (w * 4).
Proof.
  intros Hw Hy Hb Ha Hbb Hi He. unfold PNG.row_step, PNG.row_pixels.
  cbn [PNG.bytes PNG.a PNG.b PNG.i PNG.end_]. unfold for_range.
  rewrite Hi, He.
  replace (Z.to_nat ((y + 1) * (w * 4) - y * (w * 4))) with (Z.to_nat (w * 4)) by lia.
  match goal with |- context [iter_from _ _ ?body ?s0] =>
    destruct (pixels_loop rgba (Z.to_nat (w * 4)) (y * (w * 4)) s0) as (B & A1 & B1 & I1 & En)
  end; cbn [PNG.a PNG.b]; try assumption; try nia.
  { rewrite Z.rem_mod_nonneg by lia. apply Z.mod_pos_bound. lia. }
  cbv zeta in *. cbn [PNG.bytes PNG.a PNG.b PNG.i PNG.end_] in *.
  rewrite B, A1, B1, I1, En. rewrite <- scanline_zseq by lia.
  unfold filtered at 2 3. cbn [fold_left].
  assert (E0 : adler_step (PNG.a s, PNG.b s) 0 = (PNG.a s, Z.rem (PNG.b s + PNG.a s) 65521)).
  { unfold adler_step. cbn [fst snd].
    rewrite Z.add_0_r, (Z.mod_small (PNG.a s)), Z.rem_mod_nonneg by lia. reflexivity. }
  rewrite E0.
  repeat split; auto.
  - rewrite <- app_assoc. f_equal. unfold stored_block, filtered. cbn [length].
    rewrite Nat2Z.inj_succ, scanline_length by lia.
    replace (Z.succ (w * 4)) with (w * 4 + 1) by lia.
    pose proof (block_header (w * 4 + 1) ltac:(lia)) as Hh.
    injection Hh as -> -> -> ->. cbn [app]. f_equal.
    destruct (Z.ltb_spec (y + 1) h), (Z.eqb_spec y (h - 1)); auto; lia.
  - destruct (Nat.eqb_spec (Z.to_nat (w * 4)) 0); lia.
  - lia.
Qed.

Lemma zseq_snoc lo k : zseq lo (Datatypes.S k) = zseq lo k ++ [lo + Z.of_nat k].
Proof.
  unfold zseq. rewrite seq_S, map_app. reflexivity.
Qed.

(** the scanline loop *)
Lemma rows_spec w h rgba (k : nat) :
  1 <= w <= 16383 -> Z.of_nat k <= h -> Forall is_byte rgba ->
  let row := w * 4 + 1 in
  let idat := 6 + h * (5 + row) in
  let s := iter_from k 0 (PNG.row_step h row rgba)
             {| PNG.bytes := PNG.head w h idat; PNG.a := 1; PNG.b := 0;
                PNG.i := 0; PNG.end_ := row - 1 |} in
  let st := fold_left adler_step (flat_map (filtered w rgba) (zseq 0 k)) (1, 0) in
  PNG.bytes s = PNG.head w h idat
                ++ flat_map (fun y => stored_block (y =? h - 1) (filtered w rgba y)) (zseq 0 k) /\
  PNG.a s = fst st /\ PNG.b s = snd st /\
  PNG.i s = Z.of_nat k * (w * 4) /\ PNG.end_ s = (Z.of_nat k + 1) * (w * 4).
Proof.
  intros Hw Hk Hb row idat. induction k as [|k IH].
  - cbn [iter_from zseq seq map flat_map fold_left PNG.bytes PNG.a PNG.b PNG.i PNG.end_ fst snd].
    rewrite app_nil_r. repeat split; auto. subst row. lia.
  - rewrite iter_from_snoc. destruct (IH ltac:(lia)) as (B & A1 & B1 & I1 & En). clear IH.
    cbv zeta in *. simpl (0 + Z.of_nat k).
    set (s := iter_from k 0 _ _) in *.
    pose proof (adler_fold_range (flat_map (filtered w rgba) (zseq 0 k)) (1, 0)
                  ltac:(simpl; lia) ltac:(simpl; lia)) as Hr.
    cbv zeta in Hr. rewrite <- A1, <- B1 in Hr.
    destruct (row_step_spec w h rgba (Z.of_nat k) s Hw ltac:(lia) Hb (proj1 Hr) (proj2 Hr) I1 En)
      as (B' & A' & Bb' & I' & E').
    cbv zeta in *. subst row. rewrite B', A', Bb', I', E', B.
    rewrite zseq_snoc, !flat_map_app, fold_left_app. cbn [flat_map]. rewrite !app_nil_r.
    simpl (0 + Z.of_nat k). rewrite <- app_assoc.
    rewrite A1, B1, <- surjective_pairing.
    repeat split; auto; lia.
Qed.

Ltac byte_list :=
  repeat (apply Forall_cons; [unfold is_byte; zdiv|]); apply Forall_nil.

Lemma be32_bytes z : Forall is_byte (be32 z).
Proof. unfold be32. byte_list. Qed.

Lemma be32_mod z : be32 (z mod 2 ^ 32) = be32 z.
Proof.
  unfold be32. change (2 ^ 8) with 256. change (2 ^ 16) with 65536.
  change (2 ^ 24) with 16777216. change (2 ^ 32) with 4294967296.
  repeat (apply (f_equal2 (@cons Z)); [zdiv|]). reflexivity.
Qed.

Lemma be32_small z : 0 <= z < 65536 -> be32 z = [0; 0; JS.sar z 8; JS.band z 255].
Proof.
  intros Hz. unfold be32. rewrite sar_div by lia. change 255 with (Z.ones 8).
  rewrite band_low by lia. rewrite (Z.mod_small z (2 ^ 32)) by lia.
  change (2 ^ 8) with 256. change (2 ^ 16) with 65536. change (2 ^ 24) with 16777216.
  repeat (apply (f_equal2 (@cons Z)); [zdiv|]). reflexivity.
Qed.

Lemma head_spec w h idat :
  0 <= w < 65536 -> 0 <= h < 65536 ->
  PNG.head w h idat
  = (signature ++ be32 13) ++ (IHDR ++ be32 w ++ be32 h ++ [8; 6; 0; 0; 0])
    ++ [0; 0; 0; 0] ++ be32 idat ++ IDAT ++ [120; 1].
Proof.
  intros Hw Hh. rewrite <- (be32_mod idat), <- be32_of_mod, !be32_small by lia.
  reflexivity.
Qed.

Lemma adler_tail (a b : Z) :
  0 <= a < 65521 -> 0 <= b < 65521 ->
  [ JS.sar b 8; JS.band b 255; JS.sar a 8; JS.band a 255 ] = be32 (b * 65536 + a).
Proof.
  intros Ha Hb. unfold be32. rewrite !sar_div by lia. change 255 with (Z.ones 8).
  rewrite !band_low by lia. rewrite !(Z.mod_small _ (2 ^ 32)) by lia.
  change (2 ^ 8) with 256. change (2 ^ 16) with 65536. change (2 ^ 24) with 16777216.
  repeat (apply (f_equal2 (@cons Z)); [zdiv|]). reflexivity.
Qed.

Lemma flat_map_length_const {A B} (f : A -> list B) c l :
  (forall x, In x l -> length (f x) = c) -> length (flat_map f l) = (c * length l)%nat.
Proof.
  induction l as [|x l IH]; intros H; simpl; [lia|].
  rewrite length_app, H by now left.
  rewrite IH by (intros; apply H; now right). lia.
Qed.

Lemma zlib_length w h rgba :
  0 <= w -> 0 <= h ->
  Z.of_nat (length (zlib_stream w h rgba)) = 6 + h * (5 + (w * 4 + 1)).
Proof.
  intros Hw Hh. unfold zlib_stream. rewrite !length_app.
  rewrite (flat_map_length_const _ (Z.to_nat (5 + (w * 4 + 1)))).
  - unfold zrange. rewrite zseq_length. simpl length. nia.
  - intros y _. unfold stored_block, filtered. rewrite length_app. simpl length.
    pose proof (scanline_length w rgba y Hw). lia.
Qed.

Lemma scanline_bytes w rgba y : Forall is_byte rgba -> Forall is_byte (scanline w rgba y).
Proof.
  intros Hb. unfold scanline. apply Forall_forall. intros x Hx.
  apply in_map_iff in Hx. destruct Hx as (j & <- & _). now apply nth_byte.
Qed.

Lemma zlib_bytes w h rgba :
  1 <= w <= 16383 -> Forall is_byte rgba -> Forall is_byte (zlib_stream w h rgba).
Proof.
  intros Hw Hb. unfold zlib_stream. repeat (apply Forall_app; split).
  - byte_list.
  - apply Forall_forall. intros x Hx. apply in_flat_map in Hx.
    destruct Hx as (y & _ & Hx). unfold stored_block, filtered in Hx.
    cbn [length] in Hx. rewrite Nat2Z.inj_succ, scanline_length in Hx by lia.
    apply in_app_or in Hx. destruct Hx as [Hx | [<- | Hx]].
    + unfold is_byte. cbn [In] in Hx.
      decompose [or] Hx; subst; try contradiction; try (destruct (y =? h - 1); lia); zdiv.
    + unfold is_byte. lia.
    + revert x Hx. apply Forall_forall. now apply scanline_bytes.
  - apply be32_bytes.
Qed.

(** the bytes handed to [String.fromCharCode] are the PNG stream *)
Lemma png_bytes_spec w h rgba :
  1 <= w <= 16383 -> 1 <= h <= 65535 -> Forall is_byte rgba ->
  PNG.png_bytes w h rgba = png w h rgba.
Proof.
  intros Hw Hh Hb. unfold PNG.png_bytes, for_range. rewrite Z.sub_0_r.
  destruct (rows_spec w h rgba (Z.to_nat h) Hw ltac:(lia) Hb) as (B & A1 & B1 & _ & _).
  cbv zeta in B, A1, B1.
  set (s := iter_from _ _ _ _) in *.
  pose proof (adler_fold_range (flat_map (filtered w rgba) (zseq 0 (Z.to_nat h))) (1, 0)
                ltac:(simpl; lia) ltac:(simpl; lia)) as Hr.
  cbv zeta in Hr. rewrite <- A1, <- B1 in Hr.
  rewrite B, head_spec by lia.
  change (?l ++ JS.sar (PNG.b s) 8 :: JS.band (PNG.b s) 255 :: JS.sar (PNG.a s) 8
             :: JS.band (PNG.a s) 255 :: ?t)
    with (l ++ [JS.sar (PNG.b s) 8; JS.band (PNG.b s) 255; JS.sar (PNG.a s) 8;
                JS.band (PNG.a s) 255] ++ t).
  rewrite adler_tail by lia. rewrite A1, B1.
  fold (adler32 (flat_map (filtered w rgba) (zseq 0 (Z.to_nat h)))).
  replace (zseq 0 (Z.to_nat h)) with (zrange 0 h) by (unfold zrange; now rewrite Z.sub_0_r).
  set (blocks := flat_map _ (zrange 0 h)).
  set (ad := be32 (adler32 _)).
  set (idat := 6 + h * (5 + (w * 4 + 1))).
  set (ihdr := IHDR ++ be32 w ++ be32 h ++ [8; 6; 0; 0; 0]).
  assert (Ez : [120; 1] ++ blocks ++ ad = zlib_stream w h rgba) by reflexivity.
  assert (El : Z.of_nat (length (zlib_stream w h rgba)) = idat) by (apply zlib_length; lia).
  cbn [fold_left].
  (* the IHDR checksum *)
  match goal with |- PNG.write_crc (PNG.write_crc ?L _) _ = _ =>
    replace L with ((signature ++ be32 13) ++ ihdr ++ [0; 0; 0; 0]
                    ++ (be32 idat ++ (IDAT ++ zlib_stream w h rgba) ++ [0; 0; 0; 0]
                        ++ [0; 0; 0; 0; 73; 69; 78; 68; 174; 66; 96; 130]))
      by (rewrite <- Ez, <- !app_assoc; reflexivity)
  end.
  change (12, 29) with (Z.of_nat (length (signature ++ be32 13)),
                        Z.of_nat (length (signature ++ be32 13)) + Z.of_nat (length ihdr)).
  rewrite write_crc_spec.
  2:{ subst ihdr. repeat (apply Forall_app; split); try apply be32_bytes; byte_list. }
  (* the IDAT checksum *)
  set (pre := (signature ++ be32 13) ++ ihdr ++ be32 (crc32 ihdr) ++ be32 idat).
  match goal with |- PNG.write_crc ?L _ = _ =>
    replace L with (pre ++ (IDAT ++ zlib_stream w h rgba) ++ [0; 0; 0; 0]
                    ++ [0; 0; 0; 0; 73; 69; 78; 68; 174; 66; 96; 130])
      by (subst pre; rewrite <- !app_assoc; reflexivity)
  end.
  replace (37, 41 + idat)
    with (Z.of_nat (length pre),
          Z.of_nat (length pre) + Z.of_nat (length (IDAT ++ zlib_stream w h rgba))).
  2:{ rewrite length_app, Nat2Z.inj_add, El. subst pre. f_equal. simpl length. lia. }
  rewrite write_crc_spec.
  2:{ apply Forall_app. split; [byte_list|]. apply zlib_bytes; assumption. }
  unfold png, chunk. rewrite El. subst pre ihdr. rewrite <- !app_assoc. reflexivity.
Qed.

(** *** Wide images: what the array holds at index 45 *)

Lemma arr_get_set_other {A} (hole : A) a i v j :
  0 <= i -> 0 <= j -> j <> i ->
  arr_get hole (arr_set hole a i v) j = arr_get hole a j.
Proof.
  intros Hi Hj Hne. unfold arr_get, arr_set.
  destruct (Z.ltb_spec j 0); [lia|]. destruct (Z.ltb_spec i 0); [lia|].
  destruct (Z.ltb_spec i (Z.of_nat (length a))).
  - rewrite list_upd_nth by lia.
    destruct (Nat.eqb_spec (Z.to_nat j) (Z.to_nat i)); [lia | reflexivity].
  - destruct (Z.ltb_spec j (Z.of_nat (length a))).
    + rewrite app_nth1 by lia. reflexivity.
    + rewrite app_nth2 by lia. rewrite (nth_overflow a) by lia.
      destruct (Z.ltb_spec j i).
      * rewrite app_nth1 by (rewrite repeat_length; lia). apply nth_repeat.
      * apply nth_overflow. rewrite length_app, repeat_length. simpl. lia.
Qed.

Lemma write_crc_other bs start e j :
  0 <= e -> 0 <= j -> (j < e \/ e + 3 < j) ->
  arr_get 0 (PNG.write_crc bs (start, e)) j = arr_get 0 bs j.
Proof.
  intros He Hj Hout. unfold PNG.write_crc.
  rewrite !arr_get_set_other by lia. reflexivity.
Qed.

Lemma pixels_append rgba k : forall lo s,
  exists t,
    PNG.bytes (iter_from k lo (PNG.push_pixel rgba) s) = PNG.bytes s ++ t.
Proof.
  induction k as [|k IH]; intros lo s.
  - exists []. simpl. now rewrite app_nil_r.
  - cbn [iter_from]. destruct (IH (lo + 1) (PNG.push_pixel rgba lo s)) as [t Ht].
    rewrite Ht. unfold PNG.push_pixel. cbn [PNG.bytes]. rewrite <- app_assoc. now eexists.
Qed.

Lemma row_step_append h row rgba y s :
  exists t,
    PNG.bytes (PNG.row_step h row rgba y s)
    = PNG.bytes s ++ [ (if y + 1 <? h then 0 else 1); JS.band row 255; JS.sar row 8 ] ++ t.
Proof.
  unfold PNG.row_step, PNG.row_pixels, for_range. cbn [PNG.bytes PNG.i PNG.end_].
  match goal with |- context [iter_from ?k ?lo ?f ?s1] =>
    destruct (pixels_append rgba k lo s1) as [t Ht] end.
  rewrite Ht. cbn [PNG.bytes]. rewrite <- app_assoc. cbn [app]. now eexists.
Qed.

Lemma rows_append h row rgba k : forall lo s,
  exists t, PNG.bytes (iter_from k lo (PNG.row_step h row rgba) s) = PNG.bytes s ++ t.
Proof.
  induction k as [|k IH]; intros lo s.
  - exists []. simpl. now rewrite app_nil_r.
  - cbn [iter_from]. destruct (IH (lo + 1) (PNG.row_step h row rgba lo s)) as [t Ht].
    destruct (row_step_append h row rgba lo s) as [t' Ht'].
    rewrite Ht, Ht', <- app_assoc. now eexists.
Qed.

(** the high byte of the block length, as the array holds it *)
Lemma png_bytes_len_hi w h rgba :
  0 <= w -> 1 <= h ->
  arr_get 0 (PNG.png_bytes w h rgba) 45 = JS.sar (w * 4 + 1) 8.
Proof.
  intros Hw Hh. unfold PNG.png_bytes. cbn [fold_left].
  rewrite !write_crc_other by nia.
  unfold for_range. replace (Z.to_nat (h - 0)) with (Datatypes.S (Z.to_nat (h - 1))) by lia.
  cbn [iter_from].
  match goal with |- context [iter_from ?k ?lo ?f (PNG.row_step ?hh ?row ?r 0 ?s0)] =>
    destruct (rows_append hh row r k lo (PNG.row_step hh row r 0 s0)) as [t Ht];
    destruct (row_step_append hh row r 0 s0) as [t' Ht']
  end.
  rewrite Ht, Ht'. cbn [PNG.bytes]. unfold PNG.head.
  rewrite <- !app_assoc. cbn [app]. reflexivity.
Qed.

Lemma btoa_throws codes x :
  In x codes -> 255 < x -> PNG.btoa codes = Throw InvalidCharacterError.
Proof.
  intros Hin Hx. unfold PNG.btoa.
  destruct (forallb (fun c => c <=? 255) codes) eqn:E; [|reflexivity].
  rewrite forallb_forall in E. apply E, Z.leb_le in Hin. lia.
Qed.

(** *** The length of the array *)

Lemma pixels_count rgba k : forall lo s,
  let s' := iter_from k lo (PNG.push_pixel rgba) s in
  length (PNG.bytes s') = (length (PNG.bytes s) + k)%nat /\
  PNG.i s' = (if Nat.eqb k 0 then PNG.i s else lo + Z.of_nat k) /\
  PNG.end_ s' = PNG.end_ s.
Proof.
  induction k as [|k IH]; intros lo s.
  - simpl. auto.
  - cbn [iter_from]. cbv zeta.
    destruct (IH (lo + 1) (PNG.push_pixel rgba lo s)) as (L & I1 & En).
    cbv zeta in *. rewrite L, I1, En. unfold PNG.push_pixel.
    cbn [PNG.bytes PNG.i PNG.end_]. rewrite length_app. cbn [length].
    repeat split; try lia. destruct k; simpl Nat.eqb; cbv iota; lia.
Qed.

Lemma row_step_count h row rgba y s :
  PNG.i s <= PNG.end_ s ->
  let s' := PNG.row_step h row rgba y s in
  Z.of_nat (length (PNG.bytes s'))
  = Z.of_nat (length (PNG.bytes s)) + 6 + (PNG.end_ s - PNG.i s) /\
  PNG.i s' = PNG.end_ s /\ PNG.end_ s' = PNG.end_ s + (row - 1).
Proof.
  intros Hi. unfold PNG.row_step, PNG.row_pixels.
  cbn [PNG.bytes PNG.a PNG.b PNG.i PNG.end_]. unfold for_range.
  match goal with |- context [iter_from ?k ?lo ?body ?s0] =>
    destruct (pixels_count rgba k lo s0) as (L & I1 & En)
  end.
  cbv zeta in *. cbn [PNG.bytes PNG.i PNG.end_] in *.
  rewrite L, I1, En, length_app. cbn [length].
  repeat split; try lia.
  destruct (Nat.eqb_spec (Z.to_nat (PNG.end_ s - PNG.i s)) 0); lia.
Qed.

Lemma rows_count w h idat rgba (k : nat) :
  0 <= w ->
  let row := w * 4 + 1 in
  let s := iter_from k 0 (PNG.row_step h row rgba)
             {| PNG.bytes := PNG.head w h idat; PNG.a := 1; PNG.b := 0;
                PNG.i := 0; PNG.end_ := row - 1 |} in
  Z.of_nat (length (PNG.bytes s)) = 43 + Z.of_nat k * (4 * w + 6) /\
  PNG.i s = Z.of_nat k * (w * 4) /\ PNG.end_ s = (Z.of_nat k + 1) * (w * 4).
Proof.
  intros Hw row. induction k as [|k IH].
  - cbn [iter_from PNG.bytes PNG.i PNG.end_]. subst row. repeat split; lia.
  - rewrite iter_from_snoc. destruct IH as (L & I1 & En). cbv zeta in *.
    set (s := iter_from k 0 _ _) in *.
    destruct (row_step_count h row rgba (0 + Z.of_nat k) s ltac:(nia)) as (L' & I' & E').
    cbv zeta in *. rewrite L', I', E', L, I1, En. subst row. repeat split; nia.
Qed.

Lemma write_crc_length bs start e :
  0 <= e -> e + 3 < Z.of_nat (length bs) ->
  length (PNG.write_crc bs (start, e)) = length bs.
Proof.
  intros He Hlen. unfold PNG.write_crc. rewrite !arr_set_length by lia. lia.
Qed.

(** the array has [63 + h * (4 * w + 6)] elements *)
Lemma png_bytes_length w h rgba :
  0 <= w -> 0 <= h ->
  Z.of_nat (length (PNG.png_bytes w h rgba)) = 63 + h * (4 * w + 6).
Proof.
  intros Hw Hh. unfold PNG.png_bytes. cbv zeta. cbn [fold_left]. unfold for_range.
  rewrite Z.sub_0_r.
  destruct (rows_count w h (6 + h * (5 + (w * 4 + 1))) rgba (Z.to_nat h) Hw) as (L & _ & _).
  cbv zeta in L. set (s := iter_from _ _ _ _) in *.
  assert (L1 : Z.of_nat (length (PNG.bytes s ++
                 [ JS.sar (PNG.b s) 8; JS.band (PNG.b s) 255; JS.sar (PNG.a s) 8;
                   JS.band (PNG.a s) 255; 0; 0; 0; 0; 0; 0; 0; 0; 73; 69; 78; 68;
                   174; 66; 96; 130 ])) = 63 + h * (4 * w + 6)).
  { rewrite length_app. cbn [length]. nia. }
  rewrite !write_crc_length; rewrite ?write_crc_length; try assumption; try nia.
Qed.

(** a stream the engine takes as the arguments of one call *)
Lemma fromCharCode_bytes {eng : Engine} bs :
  Z.of_nat (length bs) <= max_args -> Forall is_byte bs ->
  PNG.fromCharCode bs = Ok bs.
Proof.
  intros Hlen Hp. unfold PNG.fromCharCode.
  destruct (Z.ltb_spec max_args (Z.of_nat (length bs))); [lia|]. f_equal.
  induction Hp as [|x l Hx _ IH]; [reflexivity|]. simpl map.
  rewrite IH by (cbn [length] in Hlen; lia). f_equal.
  unfold is_byte in Hx. apply Z.mod_small. lia.
Qed.

Lemma btoa_bytes bs : Forall is_byte bs -> PNG.btoa bs = Ok (PNG.base64 bs).
Proof.
  intros Hp. unfold PNG.btoa.
  replace (forallb (fun c => c <=? 255) bs) with true; [reflexivity|].
  symmetry. apply forallb_forall. intros x Hx. rewrite Forall_forall in Hp.
  apply Hp in Hx. unfold is_byte in Hx. apply Z.leb_le. lia.
Qed.

(** a stream of bytes that is within the two limits *)
Lemma emit_bytes {eng : Engine} w h rgba stream :
  0 <= w -> 0 <= h -> 63 + h * (4 * w + 6) <= max_args ->
  PNG.png_bytes w h rgba = stream -> Forall is_byte stream ->
  PNG.bytes_array w h rgba = Ok stream /\
  PNG.rgbaToDataURL w h rgba = Ok (PNG.data_url (PNG.base64 stream)).
Proof.
  intros Hw Hh Hfit E Hp.
  pose proof (png_bytes_length w h rgba Hw Hh) as L.
  pose proof max_args_range as R.
  assert (Ea : PNG.bytes_array w h rgba = Ok stream).
  { unfold PNG.bytes_array. cbv zeta.
    destruct (Z.ltb_spec array_max (Z.of_nat (length (PNG.png_bytes w h rgba)))); [lia|].
    now rewrite E. }
  split; [assumption|].
  unfold PNG.rgbaToDataURL. rewrite Ea. cbn [bind].
  rewrite fromCharCode_bytes; [|rewrite <- E; lia | assumption]. cbn [bind].
  rewrite btoa_bytes by assumption. reflexivity.
Qed.

(** a stream longer than the engine takes as arguments *)
Lemma emit_long {eng : Engine} w h rgba :
  0 <= w -> 0 <= h -> max_args < 63 + h * (4 * w + 6) ->
  PNG.rgbaToDataURL w h rgba = Throw RangeError.
Proof.
  intros Hw Hh Hlong.
  pose proof (png_bytes_length w h rgba Hw Hh) as L.
  unfold PNG.rgbaToDataURL, PNG.bytes_array. cbv zeta.
  destruct (Z.ltb_spec array_max (Z.of_nat (length (PNG.png_bytes w h rgba))));
    [reflexivity|].
  cbn [bind]. unfold PNG.fromCharCode.
  destruct (Z.ltb_spec max_args (Z.of_nat (length (PNG.png_bytes w h rgba)))); [|lia].
  reflexivity.
Qed.

(** at [w = 16384] the call throws, whatever the buffer holds: the array of
    65605 elements is more than the engine takes, or [btoa] meets the 256 *)
Lemma wide_throws {eng : Engine} rgba :
  arr_get 0 (PNG.png_bytes 16384 1 rgba) 45 = 256 /\
  PNG.rgbaToDataURL 16384 1 rgba
  = Throw (if max_args <? 65605 then RangeError else InvalidCharacterError).
Proof.
  assert (E45 : arr_get 0 (PNG.png_bytes 16384 1 rgba) 45 = 256)
    by (rewrite png_bytes_len_hi by lia; reflexivity).
  split; [assumption|].
  pose proof (png_bytes_length 16384 1 rgba ltac:(lia) ltac:(lia)) as L.
  change (63 + 1 * (4 * 16384 + 6)) with 65605 in L.
  destruct (Z.ltb_spec max_args 65605) as [Hlt | Hge].
  { apply emit_long; lia. }
  pose proof max_args_range as R.
  unfold PNG.rgbaToDataURL, PNG.bytes_array. cbv zeta. rewrite L.
  change (array_max <? 65605) with false. cbv iota. cbn [bind].
  unfold PNG.fromCharCode. rewrite L.
  destruct (Z.ltb_spec max_args 65605); [lia|]. cbn [bind].
  rewrite (btoa_throws (map (fun x => x mod 65536) (PNG.png_bytes 16384 1 rgba)) 256);
    [reflexivity | | lia].
  change 256 with ((fun x => x mod 65536) 256).
  apply in_map.
  generalize dependent (PNG.png_bytes 16384 1 rgba). intros l E _.
  unfold arr_get in E. change (45 <? 0) with false in E. cbv iota in E.
  destruct (nth_in_or_default (Z.to_nat 45) l 0) as [Hin | Hd].
  - now rewrite E in Hin.
  - rewrite E in Hd. discriminate.
Qed.

End PNGProofs.

(** What claim C7 says of [rgbaToDataURL w h rgba]: the array [bytes] is
    the stream made of the signature and the chunks IHDR, IDAT and IEND,
    each closed by the CRC-32 of its tag and payload, the IDAT payload being
    the zlib stream of stored blocks, one per filtered scanline, closed by
    their Adler-32; and the call returns the data URL of that stream. *)
Definition emits_png {eng : Engine} (w h : Z) (rgba : list Z) : Prop :=
  let stream :=
    PNGSpec.signature
    ++ PNGSpec.chunk PNGSpec.IHDR (PNGSpec.be32 w ++ PNGSpec.be32 h ++ [8; 6; 0; 0; 0])
    ++ PNGSpec.chunk PNGSpec.IDAT (PNGSpec.zlib_stream w h rgba)
    ++ PNGSpec.chunk PNGSpec.IEND [] in
  PNG.bytes_array w h rgba = Ok stream /\
  PNG.rgbaToDataURL w h rgba
  = Ok (PNG.data_url (PNG.base64 stream)).

(** every size the documentation allows is within the arguments of a call *)
Lemma documented_size_fits {eng : Engine} w h :
  0 <= w <= 100 -> 0 <= h <= 100 -> 63 + h * (4 * w + 6) <= max_args.
Proof. intros Hw Hh. pose proof max_args_range as R. nia. Qed.

(** C7, as amended.  For [w] in [1,16383], [h] in [1,65535] and an [rgba]
    buffer of [w*h*4] bytes, when the [63 + h * (4 * w + 6)] elements of the
    array are not more than the arguments the engine takes in one call,
    [rgbaToDataURL] returns the data URL of a byte stream whose IDAT payload
    is the zlib header [0x78, 0x01], then per scanline the stored-block
    header [BFINAL, LEN_lo, LEN_hi, ~LEN_lo, ~LEN_hi] with [LEN = w*4+1] and
    [BFINAL = 1] on the last row only, the filter byte 0 and the row's
    [w*4] bytes, then the big-endian Adler-32 (modulus 65521) of the
    filtered rows; and every chunk ends with the big-endian CRC-32
    (reflected polynomial) of its type tag and payload. *)
Theorem rgbaToDataURL_emits_png {eng : Engine} w h rgba :
  1 <= w <= 16383 -> 1 <= h <= 65535 ->
  63 + h * (4 * w + 6) <= max_args ->
  Z.of_nat (length rgba) = w * h * 4 ->
  Forall PNGSpec.is_byte rgba ->
  emits_png w h rgba.
Proof.
  intros Hw Hh Hfit _ Hb. unfold emits_png. cbv zeta.
  fold (PNGSpec.png w h rgba).
  pose proof (PNGProofs.png_bytes_spec w h rgba Hw Hh Hb) as E.
  apply PNGProofs.emit_bytes; try assumption; try lia.
  unfold PNGSpec.png, PNGSpec.chunk.
  repeat (apply Forall_app; split); try apply PNGProofs.be32_bytes;
    try (apply PNGProofs.zlib_bytes; assumption);
    unfold PNGSpec.signature, PNGSpec.IHDR, PNGSpec.IDAT, PNGSpec.IEND;
    try PNGProofs.byte_list.
  pose proof (PNGProofs.zlib_bytes w h rgba Hw Hb) as Hz. unfold PNGSpec.zlib_stream in Hz.
  apply Forall_app in Hz. destruct Hz as [_ Hz]. apply Forall_app in Hz. apply Hz.
Qed.

Lemma rgbaToDataURL_emits_png_witness :
  @emits_png engine_65536 1 1 [255; 255; 255; 255].
Proof.
  apply (@rgbaToDataURL_emits_png engine_65536);
    [lia | lia | apply Zle_bool_imp_le; reflexivity | reflexivity |].
  unfold PNGSpec.is_byte. repeat constructor; lia.
Defined.


(** C7 as it is stated, for every [w >= 1]: at [w = 16384] the stored-block
    length [w*4+1 = 65537] does not fit its two bytes and the array holds
    256 for [LEN_hi]; the call throws in every engine, in [btoa] when the
    engine takes the 65605 elements of the array as arguments and in the
    call of [String.fromCharCode] when it does not. *)
Lemma rgbaToDataURL_wide_throws :
  1 <= 16384 /\ 1 <= 1 /\
  Z.of_nat (length (repeat 0 (Z.to_nat 65536))) = 16384 * 1 * 4 /\
  Forall PNGSpec.is_byte (repeat 0 (Z.to_nat 65536)) /\
  arr_get 0 (PNG.png_bytes 16384 1 (repeat 0 (Z.to_nat 65536))) 45 = 256 /\
  (forall eng : Engine,
     @PNG.rgbaToDataURL eng 16384 1 (repeat 0 (Z.to_nat 65536))
     = Throw (if @max_args eng <? 65605 then RangeError else InvalidCharacterError) /\
     ~ @emits_png eng 16384 1 (repeat 0 (Z.to_nat 65536))).
Proof.
  generalize (repeat_length 0 (Z.to_nat 65536)).
  generalize (@repeat_spec Z (Z.to_nat 65536) 0).
  generalize (repeat 0 (Z.to_nat 65536)). intros rgba Hspec Hlen.
  split; [lia|]. split; [lia|]. split; [lia|]. split; [|split].
  - apply Forall_forall. intros x Hx. apply Hspec in Hx. subst x.
    unfold PNGSpec.is_byte. lia.
  - apply (@PNGProofs.wide_throws engine_65536 rgba).
  - intros eng. destruct (@PNGProofs.wide_throws eng rgba) as [_ E].
    split; [exact E|]. intros [_ H]. rewrite E in H. discriminate.
Qed.

(** ** Reading a hash *)

Lemma shl_small a k :
  0 <= a -> 0 <= k < 32 -> a * 2 ^ k < 2 ^ 31 -> JS.shl a k = a * 2 ^ k.
Proof.
  intros Ha Hk Hlt. unfold JS.shl.
  assert (0 < 2 ^ k) by (apply Z.pow_pos_nonneg; lia).
  rewrite (Z.mod_small k) by lia. rewrite (ToInt32_id a) by nia.
  rewrite Z.shiftl_mul_pow2 by lia. apply ToInt32_id. nia.
Qed.

Lemma bor_small a b :
  - 2 ^ 31 <= a < 2 ^ 31 -> - 2 ^ 31 <= b < 2 ^ 31 -> JS.bor a b = Z.lor a b.
Proof. intros Ha Hb. unfold JS.bor. now rewrite !ToInt32_id. Qed.

Lemma testbit_small a k i : 0 <= a < 2 ^ k -> k <= i -> Z.testbit a i = false.
Proof.
  intros Ha Hi. destruct (Z.eq_dec a 0) as [->|Hne]; [apply Z.bits_0|].
  assert (0 <= k) by (destruct (Z.le_gt_cases 0 k); [assumption|];
                      rewrite Z.pow_neg_r in Ha; lia).
  apply Z.bits_above_log2; [lia|].
  apply Z.lt_le_trans with k; [|assumption]. apply Z.log2_lt_pow2; lia.
Qed.

(** OR-ing a field above a smaller one adds them *)
Lemma lor_add a b k :
  0 <= k -> 0 <= a < 2 ^ k -> Z.lor a (b * 2 ^ k) = a + b * 2 ^ k.
Proof.
  intros Hk Ha.
  assert (Hd : Z.land a (b * 2 ^ k) = 0).
  { apply Z.bits_inj'. intros i Hi. rewrite Z.land_spec, Z.bits_0.
    destruct (Z.lt_ge_cases i k).
    - rewrite Z.mul_pow2_bits_low by lia. apply andb_false_r.
    - rewrite (testbit_small a k i) by lia. reflexivity. }
  rewrite Z.add_nocarry_lxor by assumption. symmetry. now apply Z.lxor_lor.
Qed.

Lemma band_field h k n :
  0 <= h < 2 ^ 31 -> 0 <= k < 32 -> 0 <= n <= 31 ->
  JS.band (JS.sar h k) (Z.ones n) = (h / 2 ^ k) mod 2 ^ n.
Proof.
  intros Hh Hk Hn. rewrite band_low, sar_div by lia.
  assert (0 < 2 ^ k) by (apply Z.pow_pos_nonneg; lia).
  assert (0 <= h / 2 ^ k <= h) by (split; [apply Z.div_pos; lia | apply Z.div_le_upper_bound; nia]).
  rewrite (Z.mod_small (h / 2 ^ k)) by lia. reflexivity.
Qed.

(** The words and nibbles of a hash, by arithmetic on its bytes. *)
Definition header24_value (hash : list Z) : Z :=
  nth 0 hash 0 + 256 * nth 1 hash 0 + 65536 * nth 2 hash 0.

Definition header16_value (hash : list Z) : Z :=
  nth 3 hash 0 + 256 * nth 4 hash 0.

(** the [width] bits of [word] from bit [pos] on *)
Definition field (word pos width : Z) : Z := (word / 2 ^ pos) mod 2 ^ width.

(** nibble [k] after the header: the low half of its byte when [k] is even,
    the high half when [k] is odd *)
Definition nibble (hash : list Z) (k : Z) : Z :=
  let byte := nth (Z.to_nat (5 + k / 2)) hash 0 in
  if Z.even k then byte mod 16 else byte / 16.

Lemma hash_at_nth hash k : 0 <= k -> hash_at hash k = nth (Z.to_nat k) hash 0.
Proof. intros Hk. unfold hash_at, arr_get. destruct (Z.ltb_spec k 0); [lia | reflexivity]. Qed.

Lemma read_header24_value hash :
  Forall PNGSpec.is_byte hash ->
  read_header24 hash = header24_value hash /\ 0 <= header24_value hash < 2 ^ 24.
Proof.
  intros Hb. unfold read_header24, header24_value. rewrite !hash_at_nth by lia.
  pose proof (PNGProofs.nth_byte hash 0 Hb) as H0.
  pose proof (PNGProofs.nth_byte hash 1 Hb) as H1.
  pose proof (PNGProofs.nth_byte hash 2 Hb) as H2.
  change (Z.to_nat 0) with 0%nat. change (Z.to_nat 1) with 1%nat.
  change (Z.to_nat 2) with 2%nat.
  unfold PNGSpec.is_byte in *.
  generalize dependent (nth 0 hash 0). generalize dependent (nth 1 hash 0).
  generalize dependent (nth 2 hash 0). intros b2 H2 b1 H1 b0 H0.
  rewrite !shl_small by lia. change (2 ^ 8) with 256. change (2 ^ 16) with 65536.
  rewrite (bor_small b0) by lia.
  change 256 with (2 ^ 8) at 1. rewrite lor_add by lia. change (2 ^ 8) with 256.
  rewrite bor_small by lia.
  change 65536 with (2 ^ 16) at 1. rewrite lor_add by lia. change (2 ^ 16) with 65536.
  lia.
Qed.

Lemma read_header16_value hash :
  Forall PNGSpec.is_byte hash ->
  read_header16 hash = header16_value hash /\ 0 <= header16_value hash < 2 ^ 16.
Proof.
  intros Hb. unfold read_header16, header16_value. rewrite !hash_at_nth by lia.
  pose proof (PNGProofs.nth_byte hash 3 Hb) as H3.
  pose proof (PNGProofs.nth_byte hash 4 Hb) as H4.
  change (Z.to_nat 3) with 3%nat. change (Z.to_nat 4) with 4%nat.
  unfold PNGSpec.is_byte in *.
  generalize dependent (nth 3 hash 0). generalize dependent (nth 4 hash 0).
  intros b4 H4 b3 H3.
  rewrite !shl_small by lia. change (2 ^ 8) with 256.
  rewrite bor_small by lia.
  change 256 with (2 ^ 8) at 1. rewrite lor_add by lia. change (2 ^ 8) with 256.
  lia.
Qed.

(** the nibble the decoder reads for the counter [k] *)
Lemma read_nibble hash k :
  Forall PNGSpec.is_byte hash -> 0 <= k < 2 ^ 31 ->
  JS.band (JS.sar (hash_at hash (ac_start + JS.sar k 1)) (JS.shl (JS.band k 1) 2)) 15
  = nibble hash k.
Proof.
  intros Hb Hk. unfold nibble, ac_start.
  rewrite (sar_div k 1) by lia. change (2 ^ 1) with 2.
  rewrite hash_at_nth by zdiv.
  pose proof (PNGProofs.nth_byte hash (Z.to_nat (5 + k / 2)) Hb) as Hn.
  unfold PNGSpec.is_byte in Hn. generalize dependent (nth (Z.to_nat (5 + k / 2)) hash 0).
  intros byte Hn.
  change 1 with (Z.ones 1) at 1. rewrite band_low by lia.
  rewrite (Z.mod_small k (2 ^ 32)) by lia. change (2 ^ 1) with 2.
  assert (Hm : k mod 2 = 0 \/ k mod 2 = 1) by zdiv.
  assert (He : Z.even k = (k mod 2 =? 0)).
  { rewrite Zeven_mod. reflexivity. }
  rewrite He. change 15 with (Z.ones 4).
  destruct Hm as [-> | ->]; simpl (_ =? _); cbv iota.
  - change (JS.shl 0 2) with 0. rewrite band_field by lia.
    change (2 ^ 0) with 1. rewrite Z.div_1_r. reflexivity.
  - change (JS.shl 1 2) with 4. rewrite band_field by lia.
    change (2 ^ 4) with 16. apply Z.mod_small. zdiv.
Qed.

Section ReadTerms.
Context {fl : Float64}.

(** [((nibble / 7.5) - 1) * scale] *)
Definition dequantize (nib : Z) (scale : num) : num :=
  ((of_Z nib / lit 7.5 - of_Z 1) * scale)%js.

(** The header fields, by the arithmetic the specification gives. *)
Definition header_fields (hash : list Z) : header :=
  let header24 := header24_value hash in
  let header16 := header16_value hash in
  {| l_dc := (of_Z (field header24 0 6) / of_Z 63)%js;
     p_dc := (of_Z (field header24 6 6) / lit 31.5 - of_Z 1)%js;
     q_dc := (of_Z (field header24 12 6) / lit 31.5 - of_Z 1)%js;
     l_scale := (of_Z (field header24 18 5) / of_Z 31)%js;
     p_scale := (of_Z (field header16 3 6) / of_Z 63)%js;
     q_scale := (of_Z (field header16 9 6) / of_Z 63)%js |}.

(** the terms dequantized from the nibbles [from], ..., [to - 1] *)
Definition read_nibbles (hash : list Z) (scale : num) (from to : Z) : list num :=
  map (fun k => dequantize (nibble hash k) scale) (zrange from to).

Lemma read_header_fields hash :
  Forall PNGSpec.is_byte hash -> read_header hash = header_fields hash.
Proof.
  intros Hb. unfold read_header, header_fields.
  destruct (read_header24_value hash Hb) as [-> H24].
  destruct (read_header16_value hash Hb) as [-> H16].
  generalize dependent (header24_value hash). intros h24 H24.
  generalize dependent (header16_value hash). intros h16 H16.
  unfold field.
  assert (F6 : forall h k, 0 <= h < 2 ^ 31 -> 0 <= k < 32 ->
                 JS.band (JS.sar h k) 63 = (h / 2 ^ k) mod 2 ^ 6)
    by (intros h k Hh Hk; apply (band_field h k 6); lia).
  assert (F5 : forall h k, 0 <= h < 2 ^ 31 -> 0 <= k < 32 ->
                 JS.band (JS.sar h k) 31 = (h / 2 ^ k) mod 2 ^ 5)
    by (intros h k Hh Hk; apply (band_field h k 5); lia).
  assert (F0 : JS.band h24 63 = (h24 / 2 ^ 0) mod 2 ^ 6).
  { change 63 with (Z.ones 6). rewrite band_low by lia.
    rewrite (Z.mod_small h24 (2 ^ 32)) by lia.
    change (2 ^ 0) with 1. now rewrite Z.div_1_r. }
  rewrite F0, !F6, F5 by lia. reflexivity.
Qed.

Lemma read_ac_fold hash scale idxs : forall ac k,
  Forall PNGSpec.is_byte hash -> 0 <= k -> k + Z.of_nat (length idxs) < 2 ^ 31 ->
  fold_left (fun st (_ : Z * Z) => read_ac hash scale st) idxs (ac, k)
  = (ac ++ map (fun k => dequantize (nibble hash k) scale) (zseq k (length idxs)),
     k + Z.of_nat (length idxs)).
Proof.
  induction idxs as [|i idxs IH]; intros ac k Hb Hk Hlt.
  - simpl. now rewrite app_nil_r, Z.add_0_r.
  - cbn [length] in *. rewrite zseq_S. cbn [fold_left map].
    unfold read_ac at 2. rewrite read_nibble by (assumption || lia).
    rewrite IH by (assumption || lia). rewrite <- app_assoc. cbn [app].
    f_equal. lia.
Qed.

Lemma fold_pair_ignore {S} (f : S -> S) (idxs : list (Z * Z)) s :
  fold_left (fun s '(cx, cy) => f s) idxs s = fold_left (fun s (_ : Z * Z) => f s) idxs s.
Proof.
  revert s. induction idxs as [|[cx cy] idxs IH]; intros s; [reflexivity|]. simpl. apply IH.
Qed.

Lemma decodeChannel_terms fuel hash n scale k :
  Forall PNGSpec.is_byte hash -> 0 < n < Z.of_nat fuel ->
  0 <= k -> k + ac_count n < 2 ^ 31 ->
  decodeChannel fuel hash n scale k
  = Ok (read_nibbles hash scale k (k + ac_count n), k + ac_count n).
Proof.
  intros Hb Hn Hk Hlt. unfold decodeChannel.
  rewrite tri_loop_ok by (try apply skip_dc_nonneg; lia).
  rewrite tri_fold_indices. fold (ac_indices n).
  unfold ac_count in *. rewrite ac_pairs_indices in * by lia.
  rewrite (fold_pair_ignore (read_ac hash scale)).
  rewrite read_ac_fold by assumption. cbn [app]. unfold read_nibbles, zrange.
  do 4 f_equal. lia.
Qed.

(** a counter run along an enumeration pairs each element with its rank *)
Lemma fold_counted {S I} (g : S -> Z -> I -> S) (idxs : list I) : forall s j,
  fold_left (fun st i => (g (fst st) (snd st) i, snd st + 1)) idxs (s, j)
  = (fold_left (fun s ji => g s (fst ji) (snd ji)) (combine (zseq j (length idxs)) idxs) s,
     j + Z.of_nat (length idxs)).
Proof.
  induction idxs as [|i idxs IH]; intros s j.
  - simpl. now rewrite Z.add_0_r.
  - cbn [length]. rewrite zseq_S. cbn [fold_left combine fst snd].
    rewrite IH. f_equal. lia.
Qed.

(** the AC term of rank [j] multiplies the cosines of the [j]-th index of
    the enumeration *)
Lemma decode_L_order fuel n l_ac fx fy l :
  0 < n < Z.of_nat fuel ->
  decode_L fuel n l_ac fx fy l
  = Ok (fold_left
          (fun l ji =>
             let '(cx, cy) := snd ji in
             (l + arr_get NaN l_ac (fst ji) * arr_get NaN fx cx
                  * (arr_get NaN fy cy * of_Z 2))%js)
          (combine (zrange 0 (ac_count n)) (ac_pairs n)) l,
        ac_count n).
Proof.
  intros Hn. unfold decode_L.
  rewrite tri_loop_ok by (try apply skip_dc_nonneg; lia).
  rewrite tri_fold_indices. fold (ac_indices n).
  unfold ac_count. rewrite ac_pairs_indices by lia.
  unfold zrange. rewrite Z.sub_0_r, Nat2Z.id.
  pose proof (fold_counted
                (fun l j i => let '(cx, cy) := i in
                   (l + arr_get NaN l_ac j * arr_get NaN fx cx
                        * (arr_get NaN fy cy * of_Z 2))%js) (ac_indices n) l 0) as E.
  rewrite Z.add_0_l in E. cbv beta in E. rewrite <- E. clear E.
  match goal with |- Ok ?a = Ok ?b => enough (a = b) by congruence end.
  generalize (l, 0). induction (ac_indices n) as [|[cx cy] idxs IH]; intros st;
    [reflexivity|].
  cbn [fold_left]. rewrite <- IH. destruct st as [l0 j0]. reflexivity.
Qed.

Lemma decode_PQ_order fuel n p_ac q_ac fx fy p q :
  0 < n < Z.of_nat fuel ->
  decode_PQ fuel n p_ac q_ac fx fy p q
  = Ok (fold_left
          (fun pq ji =>
             let '(cx, cy) := snd ji in
             let f := (arr_get NaN fx cx * (arr_get NaN fy cy * of_Z 2))%js in
             ((fst pq + arr_get NaN p_ac (fst ji) * f)%js,
              (snd pq + arr_get NaN q_ac (fst ji) * f)%js))
          (combine (zrange 0 (ac_count n)) (ac_pairs n)) (p, q),
        ac_count n).
Proof.
  intros Hn. unfold decode_PQ.
  rewrite tri_loop_ok by (try apply skip_dc_nonneg; lia).
  rewrite tri_fold_indices. fold (ac_indices n).
  unfold ac_count. rewrite ac_pairs_indices by lia.
  unfold zrange. rewrite Z.sub_0_r, Nat2Z.id.
  pose proof (fold_counted
                (fun pq j i => let '(cx, cy) := i in
                   let f := (arr_get NaN fx cx * (arr_get NaN fy cy * of_Z 2))%js in
                   ((fst pq + arr_get NaN p_ac j * f)%js,
                    (snd pq + arr_get NaN q_ac j * f)%js)) (ac_indices n) (p, q) 0) as E.
  rewrite Z.add_0_l in E. f_equal. etransitivity; [|exact E]. clear E.
  generalize (p, q, 0). induction (ac_indices n) as [|[cx cy] idxs IH]; intros st;
    [reflexivity|].
  cbn [fold_left]. rewrite <- IH. destruct st as [[p0 q0] j0]. reflexivity.
Qed.

End ReadTerms.

(** C4. For every hash byte sequence and term counts, [thumbHashToRGBA]
    reads the header fields by the inverse arithmetic of the encoder
    ([l_dc = (header24 & 63)/63], [p_dc = ((header24 >> 6) & 63)/31.5 - 1],
    ...) and every AC term as [((nibble/7.5) - 1) * scale], taking the
    nibbles low half first, the terms of L, then of P, then of Q, the scale
    being [l_scale] for L and [p_scale * 1.25], [q_scale * 1.25] for P and Q;
    and the term of rank [j] of a channel goes with the [j]-th index of the
    triangular enumeration, the order in which the encoder emits them. *)
Theorem thumbHashToRGBA_reads {fl : Float64} (fuel : nat) cfg hash :
  Forall PNGSpec.is_byte hash ->
  1 <= LUMINANCE_TERMS cfg <= 10 -> 1 <= CHROMINANCE_TERMS cfg <= 10 ->
  (10 < fuel)%nat ->
  let nL := LUMINANCE_TERMS cfg in
  let nC := CHROMINANCE_TERMS cfg in
  let hd := header_fields hash in
  let l_ac := read_nibbles hash (l_scale hd) 0 (ac_count nL) in
  let p_ac := read_nibbles hash (p_scale hd * lit 1.25)%js
                (ac_count nL) (ac_count nL + ac_count nC) in
  let q_ac := read_nibbles hash (q_scale hd * lit 1.25)%js
                (ac_count nL + ac_count nC) (ac_count nL + ac_count nC + ac_count nC) in
  read_terms fuel cfg hash = Ok (hd, l_ac, p_ac, q_ac) /\
  (forall fx fy l,
     decode_L fuel nL l_ac fx fy l
     = Ok (fold_left
             (fun l ji =>
                let '(cx, cy) := snd ji in
                (l + arr_get NaN l_ac (fst ji) * arr_get NaN fx cx
                     * (arr_get NaN fy cy * of_Z 2))%js)
             (combine (zrange 0 (ac_count nL)) (ac_pairs nL)) l,
           ac_count nL)) /\
  (forall fx fy p q,
     decode_PQ fuel nC p_ac q_ac fx fy p q
     = Ok (fold_left
             (fun pq ji =>
                let '(cx, cy) := snd ji in
                let f := (arr_get NaN fx cx * (arr_get NaN fy cy * of_Z 2))%js in
                ((fst pq + arr_get NaN p_ac (fst ji) * f)%js,
                 (snd pq + arr_get NaN q_ac (fst ji) * f)%js))
             (combine (zrange 0 (ac_count nC)) (ac_pairs nC)) (p, q),
           ac_count nC)) /\
  (forall w h channel,
     exists dc ac scale,
       encodeChannel fuel w h channel nL = Ok (dc, ac, scale) /\
       Z.of_nat (length ac) = ac_count nL /\
       max_abs (map (fun '(cx, cy) => dct_coefficient w h channel cx cy) (ac_pairs nL))
       = scale).
Proof.
  intros Hb HL HC Hfuel. cbv zeta.
  pose proof (ac_count_bound (LUMINANCE_TERMS cfg) ltac:(lia)) as BL.
  pose proof (ac_count_bound (CHROMINANCE_TERMS cfg) ltac:(lia)) as BC.
  assert (ac_count (LUMINANCE_TERMS cfg) <= 100 /\ ac_count (CHROMINANCE_TERMS cfg) <= 100)
    as [BL' BC'] by nia.
  split; [|split; [|split]].
  - unfold read_terms. rewrite read_header_fields by assumption.
    rewrite decodeChannel_terms by (assumption || lia). cbn [bind].
    rewrite decodeChannel_terms by (assumption || lia). cbn [bind].
    rewrite decodeChannel_terms by (assumption || lia). cbn [bind].
    reflexivity.
  - intros. apply decode_L_order. lia.
  - intros. apply decode_PQ_order. lia.
  - intros w h channel. rewrite encodeChannel_ok by lia.
    do 3 eexists. split; [reflexivity|]. split.
    + apply (channel_terms_length w h channel (LUMINANCE_TERMS cfg)). lia.
    + unfold ac_coefficients. rewrite ac_pairs_indices by lia. reflexivity.
Qed.

Lemma thumbHashToRGBA_reads_witness :
  exists hd l_ac p_ac q_ac,
    @read_terms js64 11 default_config [148; 155; 42; 240; 40; 255; 15] = Ok (hd, l_ac, p_ac, q_ac) /\
    length l_ac = 27%nat.
Proof.
  destruct (@thumbHashToRGBA_reads js64 11 default_config [148; 155; 42; 240; 40; 255; 15])
    as (E & _); [unfold PNGSpec.is_byte; repeat constructor; lia | simpl; lia .. |].
  do 4 eexists. split; [exact E | reflexivity].
Defined.

(** * Further properties of the code *)

(** ** thumbHashToDataURL: the placeholder is always a PNG *)

Lemma iter_fromM_preserve {S} (P : S -> Prop) (body : Z -> S -> result S) k :
  (forall i s s', body i s = Ok s' -> P s -> P s') ->
  forall lo s s', iter_fromM k lo body s = Ok s' -> P s -> P s'.
Proof.
  intros Hb. induction k as [|k IH]; intros lo s s' E Hs.
  - simpl in E. now injection E as <-.
  - cbn [iter_fromM] in E. destruct (body lo s) as [s1| |] eqn:E1; cbn [bind] in E;
      try discriminate.
    eapply IH; [exact E|]. eapply Hb; eassumption.
Qed.

Lemma list_upd_Forall {A} (P : A -> Prop) (a : list A) v :
  Forall P a -> P v -> forall i, Forall P (list_upd a i v).
Proof.
  intros Ha Hv. induction Ha as [|x a Hx Ha IH]; intros [|i]; simpl; auto.
Qed.

Lemma typed_set_Forall {A} (P : A -> Prop) (a : list A) i v :
  Forall P a -> P v -> Forall P (typed_set a i v).
Proof.
  intros Ha Hv. unfold typed_set. destruct (_ && _); [now apply list_upd_Forall | assumption].
Qed.

Section DataURL.
Context {fl : Float64}.

Lemma to_sample_byte v : PNGSpec.is_byte (to_sample v).
Proof.
  unfold to_sample, ToUint8, PNGSpec.is_byte.
  destruct (classify _); unfold JS.ToUint8; zdiv.
Qed.

Lemma pixel_step_bytes fuel cfg hd l_ac p_ac q_ac w h y x s s' :
  pixel_step fuel cfg hd l_ac p_ac q_ac w h y x s = Ok s' ->
  Forall PNGSpec.is_byte (px_rgba s) -> Forall PNGSpec.is_byte (px_rgba s').
Proof.
  unfold pixel_step. intros E Hb.
  destruct (decode_pixel _ _ _ _ _ _ _ _ _ _ _ _) as [[[[[r g] b] fx] fy]| |];
    cbn [bind] in E; try discriminate.
  injection E as <-. cbn [px_rgba].
  repeat apply typed_set_Forall; try apply to_sample_byte; try assumption.
  unfold PNGSpec.is_byte. lia.
Qed.

(** every sample [thumbHashToRGBA] returns is a byte *)
Lemma thumbHashToRGBA_bytes fuel cfg hash img :
  thumbHashToRGBA fuel cfg hash = Ok img -> Forall PNGSpec.is_byte (img_rgba img).
Proof.
  unfold thumbHashToRGBA. intros E.
  destruct (read_terms fuel cfg hash) as [[[[hd l_ac] p_ac] q_ac]| |];
    cbn [bind] in E; try discriminate.
  match type of E with bind ?m _ = _ => destruct m as [s| |] eqn:Es end;
    cbn [bind] in E; try discriminate.
  injection E as <-. cbn [img_rgba]. unfold for_rangeM in Es.
  apply (iter_fromM_preserve (fun s => Forall PNGSpec.is_byte (px_rgba s)) _ _) in Es;
    [exact Es| |].
  - intros y s1 s2 Ey. unfold for_rangeM in Ey.
    apply (iter_fromM_preserve (fun s => Forall PNGSpec.is_byte (px_rgba s)) _ _)
      with (1 := fun x s3 s4 => pixel_step_bytes fuel cfg hd l_ac p_ac q_ac 32 32 y x s3 s4)
        (2 := Ey).
  - cbn [px_rgba]. apply Forall_forall. intros v Hv. apply repeat_spec in Hv. subst v.
    unfold PNGSpec.is_byte. lia.
Qed.

End DataURL.

(** ** rgbaToDataURL on any samples *)

Definition mask (rgba : list Z) : list Z := map (fun x => x mod 256) rgba.

Lemma mask_bytes rgba : Forall PNGSpec.is_byte (mask rgba).
Proof.
  unfold mask. apply Forall_forall. intros x Hx. apply in_map_iff in Hx.
  destruct Hx as (y & <- & _). unfold PNGSpec.is_byte. zdiv.
Qed.

Lemma push_pixel_mask rgba i s : PNG.push_pixel (mask rgba) i s = PNG.push_pixel rgba i s.
Proof.
  unfold PNG.push_pixel.
  assert (E : JS.band (arr_get 0 (mask rgba) i) 255 = JS.band (arr_get 0 rgba i) 255).
  { unfold arr_get. destruct (i <? 0); [reflexivity|]. unfold mask.
    change 0 with ((fun x => x mod 256) 0) at 1. rewrite map_nth.
    change 255 with (Z.ones 8). rewrite !band_low by lia.
    generalize (nth (Z.to_nat i) rgba 0). intros x. change (2 ^ 32) with (2 ^ 24 * 256).
    change (2 ^ 8) with 256. zdiv. }
  rewrite E. reflexivity.
Qed.

Lemma png_bytes_mask w h rgba : PNG.png_bytes w h (mask rgba) = PNG.png_bytes w h rgba.
Proof.
  unfold PNG.png_bytes. cbv zeta.
  assert (E : forall s0, for_range 0 h (PNG.row_step h (w * 4 + 1) (mask rgba)) s0
                         = for_range 0 h (PNG.row_step h (w * 4 + 1) rgba) s0).
  { intros s0. unfold for_range. apply iter_from_ext. intros y s _.
    unfold PNG.row_step, PNG.row_pixels. cbv zeta.
    cbn [PNG.bytes PNG.a PNG.b PNG.i PNG.end_].
    match goal with |- context [for_range ?lo ?hi (PNG.push_pixel (mask rgba)) ?s1] =>
      replace (for_range lo hi (PNG.push_pixel (mask rgba)) s1)
        with (for_range lo hi (PNG.push_pixel rgba) s1); [reflexivity|] end.
    unfold for_range. apply iter_from_ext. intros j s2 _. symmetry. apply push_pixel_mask. }
  rewrite E. reflexivity.
Qed.

Lemma png_is_bytes w h rgba :
  1 <= w <= 16383 -> Forall PNGSpec.is_byte rgba -> Forall PNGSpec.is_byte (PNGSpec.png w h rgba).
Proof.
  intros Hw Hb. unfold PNGSpec.png, PNGSpec.chunk.
  repeat (apply Forall_app; split); try apply PNGProofs.be32_bytes;
    try (apply PNGProofs.zlib_bytes; assumption);
    unfold PNGSpec.signature, PNGSpec.IHDR, PNGSpec.IDAT, PNGSpec.IEND;
    try PNGProofs.byte_list.
  pose proof (PNGProofs.zlib_bytes w h rgba Hw Hb) as Hz. unfold PNGSpec.zlib_stream in Hz.
  apply Forall_app in Hz. destruct Hz as [_ Hz]. apply Forall_app in Hz. apply Hz.
Qed.

Lemma rgbaToDataURL_ok {eng : Engine} w h rgba :
  1 <= w <= 16383 -> 1 <= h <= 65535 ->
  63 + h * (4 * w + 6) <= max_args ->
  PNG.png_bytes w h rgba = PNGSpec.png w h (mask rgba) /\
  PNG.rgbaToDataURL w h rgba
  = Ok (PNG.data_url (PNG.base64 (PNGSpec.png w h (mask rgba)))).
Proof.
  intros Hw Hh Hfit.
  assert (E : PNG.png_bytes w h rgba = PNGSpec.png w h (mask rgba)).
  { rewrite <- png_bytes_mask. apply PNGProofs.png_bytes_spec; auto using mask_bytes. }
  split; [exact E|].
  apply PNGProofs.emit_bytes; try assumption; try lia.
  apply png_is_bytes; auto using mask_bytes.
Qed.

Lemma mask_id rgba : Forall PNGSpec.is_byte rgba -> mask rgba = rgba.
Proof.
  intros H. unfold mask. induction H as [|x l Hx _ IH]; [reflexivity|].
  simpl. rewrite IH. f_equal. unfold PNGSpec.is_byte in Hx. apply Z.mod_small. lia.
Qed.

(** X2. [rgbaToDataURL] takes any list of integers as samples, of any
    length: for [w <= 16383] and [h <= 65535], when the
    [63 + h * (4 * w + 6)] elements of the array are not more than the
    arguments the engine takes in one call, it returns the data URL of the
    PNG whose samples are the given ones modulo 256 (the code's [& 255]), a
    sample the list does not hold taken as 0 and samples beyond [w * h * 4]
    never read; when they are more, it throws a RangeError. *)
Theorem rgbaToDataURL_any_samples {eng : Engine} w h rgba :
  1 <= w <= 16383 -> 1 <= h <= 65535 ->
  let rows := map (fun y => map (fun i => nth (Z.to_nat i) rgba 0 mod 256)
                              (zrange (y * (w * 4)) ((y + 1) * (w * 4))))
                  (zrange 0 h) in
  map (PNGSpec.scanline w (mask rgba)) (zrange 0 h) = rows /\
  PNG.rgbaToDataURL w h rgba
  = if 63 + h * (4 * w + 6) <=? max_args
    then Ok (PNG.data_url (PNG.base64 (PNGSpec.png w h (mask rgba))))
    else Throw RangeError.
Proof.
  intros Hw Hh rows. split.
  - unfold rows. apply map_ext. intros y. unfold PNGSpec.scanline. apply map_ext.
    intros i. unfold mask. change 0 with ((fun x => x mod 256) 0) at 1.
    now rewrite map_nth.
  - destruct (Z.leb_spec (63 + h * (4 * w + 6)) max_args) as [Hfit | Hlong].
    + now apply rgbaToDataURL_ok.
    + apply PNGProofs.emit_long; lia.
Qed.

Lemma rgbaToDataURL_any_samples_witness :
  map (PNGSpec.scanline 1 (mask [256; -1; 511])) (zrange 0 1) = [[0; 255; 255; 0]] /\
  @PNG.rgbaToDataURL engine_65536 1 1 [256; -1; 511]
  = Ok (PNG.data_url (PNG.base64 (PNGSpec.png 1 1 (mask [256; -1; 511])))).
Proof.
  apply (@rgbaToDataURL_any_samples engine_65536 1 1 [256; -1; 511]); lia.
Defined.

(** X1. [thumbHashToDataURL] never throws: whatever the bytes of the hash
    (short, long or empty), it returns the data URL of the 32 by 32 PNG of
    the raster [thumbHashToRGBA] decodes, whose samples are all bytes. *)
Theorem thumbHashToDataURL_png {fl : Float64} {eng : Engine} (fuel : nat) cfg hash :
  1 <= LUMINANCE_TERMS cfg <= 10 -> 1 <= CHROMINANCE_TERMS cfg <= 10 ->
  (10 < fuel)%nat ->
  exists img,
    thumbHashToRGBA fuel cfg hash = Ok img /\
    img_w img = 32 /\ img_h img = 32 /\
    length (img_rgba img) = 4096%nat /\
    Forall PNGSpec.is_byte (img_rgba img) /\
    thumbHashToDataURL fuel cfg hash
    = Ok (PNG.data_url (PNG.base64 (PNGSpec.png 32 32 (img_rgba img)))).
Proof.
  intros HL HC Hfuel.
  destruct (thumbHashToRGBA_raster fuel cfg hash) as (img & E & Ew & Eh & El & _); [lia..|].
  pose proof (thumbHashToRGBA_bytes fuel cfg hash img E) as Hb.
  exists img. repeat (split; [assumption|]).
  unfold thumbHashToDataURL. rewrite E. cbn [bind]. rewrite Ew, Eh.
  destruct (rgbaToDataURL_ok 32 32 (img_rgba img)) as [_ Hp];
    [lia | lia | apply documented_size_fits; lia |].
  rewrite Hp, mask_id by assumption. reflexivity.
Qed.

Lemma thumbHashToDataURL_png_witness :
  exists img,
    @thumbHashToRGBA js64 11 default_config [] = Ok img /\
    img_w img = 32 /\ img_h img = 32 /\
    length (img_rgba img) = 4096%nat /\
    Forall PNGSpec.is_byte (img_rgba img) /\
    @thumbHashToDataURL js64 engine_65536 11 default_config []
    = Ok (PNG.data_url (PNG.base64 (PNGSpec.png 32 32 (img_rgba img)))).
Proof.
  apply (@thumbHashToDataURL_png js64 engine_65536 11 default_config []); simpl; lia.
Defined.

(** ** The bytes of the hash thumbHashToRGBA reads *)

Section HashReads.
Context {fl : Float64}.

(** two hashes that hold the same bytes below [N], a missing byte read as
    [undefined] and taken as 0 *)
Definition same_bytes (N : Z) (h1 h2 : list Z) : Prop :=
  forall k, 0 <= k < N -> nth (Z.to_nat k) h1 0 = nth (Z.to_nat k) h2 0.

Lemma same_bytes_at N h1 h2 k :
  same_bytes N h1 h2 -> 0 <= k < N -> hash_at h1 k = hash_at h2 k.
Proof. intros H Hk. rewrite !hash_at_nth by lia. now apply H. Qed.

Lemma read_header_same N h1 h2 :
  5 <= N -> same_bytes N h1 h2 -> read_header h1 = read_header h2.
Proof.
  intros HN H. unfold read_header, read_header24, read_header16.
  rewrite (same_bytes_at N h1 h2 0), (same_bytes_at N h1 h2 1), (same_bytes_at N h1 h2 2),
    (same_bytes_at N h1 h2 3), (same_bytes_at N h1 h2 4) by (assumption || lia).
  reflexivity.
Qed.

Lemma read_ac_same N h1 h2 scale (idxs : list (Z * Z)) : forall ac k,
  same_bytes N h1 h2 -> 0 <= k -> k + Z.of_nat (length idxs) < 2 ^ 31 ->
  5 + (k + Z.of_nat (length idxs) + 1) / 2 <= N ->
  fold_left (fun st (_ : Z * Z) => read_ac h1 scale st) idxs (ac, k)
  = fold_left (fun st (_ : Z * Z) => read_ac h2 scale st) idxs (ac, k) /\
  snd (fold_left (fun st (_ : Z * Z) => read_ac h2 scale st) idxs (ac, k))
  = k + Z.of_nat (length idxs).
Proof.
  induction idxs as [|i idxs IH]; intros ac k H Hk Hlt HN.
  - simpl. split; [reflexivity | lia].
  - cbn [length fold_left] in *.
    assert (E : read_ac h1 scale (ac, k) = read_ac h2 scale (ac, k)).
    { unfold read_ac. rewrite (sar_div k 1) by lia. change (2 ^ 1) with 2.
      rewrite (same_bytes_at N h1 h2); [reflexivity | assumption |].
      unfold ac_start. zdiv. }
    rewrite E.
    assert (E0 : exists ac', read_ac h2 scale (ac, k) = (ac', k + 1))
      by (eexists; reflexivity).
    destruct E0 as [ac' ->].
    destruct (IH ac' (k + 1) H) as [E1 E2]; try lia.
    { replace (k + 1 + Z.of_nat (length idxs)) with (k + Z.of_nat (S (length idxs))) by lia.
      exact HN. }
    split; [exact E1|]. rewrite E2. lia.
Qed.

Lemma decodeChannel_same N fuel h1 h2 n scale k :
  same_bytes N h1 h2 -> 0 < n < Z.of_nat fuel -> 0 <= k -> k + ac_count n < 2 ^ 31 ->
  5 + (k + ac_count n + 1) / 2 <= N ->
  decodeChannel fuel h1 n scale k = decodeChannel fuel h2 n scale k /\
  exists ac, decodeChannel fuel h2 n scale k = Ok (ac, k + ac_count n).
Proof.
  intros H Hn Hk Hlt HN. unfold decodeChannel.
  rewrite !tri_loop_ok by (try apply skip_dc_nonneg; lia).
  rewrite !tri_fold_indices. fold (ac_indices n).
  unfold ac_count in *. rewrite ac_pairs_indices in * by lia.
  rewrite !(fold_pair_ignore (read_ac _ scale)).
  destruct (read_ac_same N h1 h2 scale (ac_indices n) [] k H Hk Hlt HN) as [E1 E2].
  rewrite E1. split; [reflexivity|].
  rewrite <- E2. match goal with |- context [Ok (_, snd ?r)] => exists (fst r); destruct r end.
  reflexivity.
Qed.

Lemma read_terms_same fuel cfg h1 h2 :
  1 <= LUMINANCE_TERMS cfg <= 10 -> 1 <= CHROMINANCE_TERMS cfg <= 10 ->
  (10 < fuel)%nat ->
  same_bytes (5 + ceil_half (totalAc cfg)) h1 h2 ->
  read_terms fuel cfg h1 = read_terms fuel cfg h2.
Proof.
  intros HL HC Hfuel H. unfold read_terms. cbv zeta.
  pose proof (ac_count_bound (LUMINANCE_TERMS cfg) ltac:(lia)) as BL.
  pose proof (ac_count_bound (CHROMINANCE_TERMS cfg) ltac:(lia)) as BC.
  assert (TL : LUMINANCE_TERMS cfg * LUMINANCE_TERMS cfg <= 100) by nia.
  assert (TC : CHROMINANCE_TERMS cfg * CHROMINANCE_TERMS cfg <= 100) by nia.
  assert (N5 : 5 <= 5 + ceil_half (totalAc cfg)).
  { unfold totalAc, ceil_half. zdiv. }
  rewrite (read_header_same _ h1 h2 N5 H).
  set (hd := read_header h2). unfold totalAc, ceil_half in H.
  set (N := 5 + _) in H.
  destruct (decodeChannel_same N fuel h1 h2 (LUMINANCE_TERMS cfg) (l_scale hd) 0 H)
    as [E1 (l_ac & E1')]; try lia.
  { subst N. zdiv. }
  rewrite E1, E1'. cbn [bind].
  destruct (decodeChannel_same N fuel h1 h2 (CHROMINANCE_TERMS cfg)
              (p_scale hd * lit 1.25)%js (0 + ac_count (LUMINANCE_TERMS cfg)) H)
    as [E2 (p_ac & E2')]; try lia.
  { subst N. zdiv. }
  rewrite E2, E2'. cbn [bind].
  destruct (decodeChannel_same N fuel h1 h2 (CHROMINANCE_TERMS cfg)
              (q_scale hd * lit 1.25)%js
              (0 + ac_count (LUMINANCE_TERMS cfg) + ac_count (CHROMINANCE_TERMS cfg)) H)
    as [E3 (q_ac & E3')]; try lia.
  { subst N. zdiv. }
  rewrite E3, E3'. reflexivity.
Qed.

End HashReads.

(** X3. [thumbHashToRGBA] reads the first [5 + ceil(totalAc / 2)] bytes of the
    hash and nothing else, and reads a byte the hash does not hold as 0: two
    hashes that agree on these bytes (a missing byte counting as 0) decode
    to the same raster.  So bytes appended to a hash are ignored, and a hash
    that is too short decodes as if it were padded with zeros. *)
Theorem thumbHashToRGBA_same_bytes {fl : Float64} (fuel : nat) cfg h1 h2 :
  1 <= LUMINANCE_TERMS cfg <= 10 -> 1 <= CHROMINANCE_TERMS cfg <= 10 ->
  (10 < fuel)%nat ->
  same_bytes (5 + ceil_half (totalAc cfg)) h1 h2 ->
  thumbHashToRGBA fuel cfg h1 = thumbHashToRGBA fuel cfg h2.
Proof.
  intros HL HC Hfuel H. unfold thumbHashToRGBA.
  now rewrite (read_terms_same fuel cfg h1 h2).
Qed.

Lemma thumbHashToRGBA_same_bytes_witness :
  @thumbHashToRGBA js64 11 reference_config [1; 2; 3]
  = @thumbHashToRGBA js64 11 reference_config
      ([1; 2; 3] ++ repeat 0 12 ++ [77; 78]).
Proof.
  apply (@thumbHashToRGBA_same_bytes js64 11 reference_config); simpl; try lia.
  intros k Hk. change (5 + ceil_half (totalAc reference_config)) with 15 in Hk.
  assert (Hc : k = 0 \/ k = 1 \/ k = 2 \/ k = 3 \/ k = 4 \/ k = 5 \/ k = 6 \/ k = 7 \/ k = 8
               \/ k = 9 \/ k = 10 \/ k = 11 \/ k = 12 \/ k = 13 \/ k = 14) by lia.
  repeat (destruct Hc as [-> | Hc]; [reflexivity|]). subst k. reflexivity.
Defined.

(** ** What the decoder reads back from an encoded hash *)

Lemma arr_set_Forall {A} (P : A -> Prop) (hole : A) a i v :
  Forall P a -> P hole -> P v -> Forall P (arr_set hole a i v).
Proof.
  intros Ha Hh Hv. unfold arr_set. destruct (i <? 0); [assumption|].
  destruct (i <? Z.of_nat (length a)); [now apply list_upd_Forall|].
  apply Forall_app. split; [assumption|]. apply Forall_app. split.
  - apply Forall_forall. intros x Hx. apply repeat_spec in Hx. now subst x.
  - now constructor.
Qed.

Lemma nibble_at hash k :
  0 <= k -> nibble hash k
            = if Z.even k then hash_at hash (5 + k / 2) mod 16 else hash_at hash (5 + k / 2) / 16.
Proof. intros Hk. unfold nibble. rewrite hash_at_nth by zdiv. reflexivity. Qed.

Lemma even_mod2 k : Z.even k = (k mod 2 =? 0).
Proof. rewrite Zeven_mod. reflexivity. Qed.

Section RoundTrip.
Context {fl : Float64}.

(** the integer the encoder ORs into the hash for the AC term [f] *)
Definition quantize_ac (f : num) : Z := round_int (of_Z 15 * f)%js.

(** one step of the "Write the varying factors" loop, on a hash that holds
    [idx] nibbles so far *)
Lemma write_ac_step hash idx f :
  0 <= idx < 2 ^ 31 - 1 ->
  Z.of_nat (length hash) = 5 + (idx + 1) / 2 ->
  Forall PNGSpec.is_byte hash ->
  (forall k, idx <= k -> nibble hash k = 0) ->
  0 <= quantize_ac f <= 15 ->
  exists hash1,
    write_ac (hash, idx) f = (hash1, idx + 1) /\
    Z.of_nat (length hash1) = 5 + (idx + 1 + 1) / 2 /\
    Forall PNGSpec.is_byte hash1 /\
    (forall j, 0 <= j < 5 -> hash_at hash1 j = hash_at hash j) /\
    (forall k, 0 <= k < idx -> nibble hash1 k = nibble hash k) /\
    nibble hash1 idx = quantize_ac f /\
    (forall k, idx + 1 <= k -> nibble hash1 k = 0).
Proof.
  intros Hidx Hlen Hb Hz Hq. unfold write_ac. fold (quantize_ac f).
  set (q := quantize_ac f) in *.
  rewrite (sar_div idx 1) by lia. change (2 ^ 1) with 2. unfold ac_start.
  set (B := 5 + idx / 2).
  assert (HB : 0 <= B <= Z.of_nat (length hash)) by (subst B; zdiv).
  assert (Hm : JS.band idx 1 = idx mod 2).
  { change 1 with (Z.ones 1). rewrite band_low by lia.
    rewrite (Z.mod_small idx (2 ^ 32)) by lia. reflexivity. }
  rewrite Hm.
  assert (Hold : 0 <= hash_at hash B <= 255).
  { rewrite hash_at_nth by lia. now apply PNGProofs.nth_byte. }
  pose proof (Hz idx ltac:(lia)) as Z0. pose proof (Hz (idx + 1) ltac:(lia)) as Z1.
  rewrite nibble_at, even_mod2 in Z0, Z1 by lia.
  change (5 + idx / 2) with B in Z0.
  fold (hash_at hash B).
  assert (Ev : exists v,
             JS.bor (hash_at hash B) (JS.shl q (JS.shl (idx mod 2) 2)) = v /\
             0 <= v <= 255 /\
             (idx mod 2 = 0 -> v = q) /\
             (idx mod 2 = 1 -> v = hash_at hash B + 16 * q /\ hash_at hash B < 16)).
  { assert (Hc : idx mod 2 = 0 \/ idx mod 2 = 1) by zdiv.
    destruct Hc as [Hc | Hc]; rewrite Hc in *.
    - change (JS.shl 0 2) with 0. rewrite shl_small by lia.
      change (2 ^ 0) with 1. rewrite Z.mul_1_r.
      replace ((idx + 1) mod 2 =? 0) with false in Z1 by (symmetry; apply Z.eqb_neq; zdiv).
      replace (5 + (idx + 1) / 2) with B in Z1 by (subst B; zdiv).
      simpl (0 =? 0) in Z0. cbv iota in Z0, Z1.
      assert (E0 : hash_at hash B = 0) by zdiv.
      rewrite E0. rewrite bor_small by lia. rewrite Z.lor_0_l.
      exists q. repeat split; try lia.
    - change (JS.shl 1 2) with 4. rewrite shl_small by lia.
      simpl (1 =? 0) in Z0. cbv iota in Z0.
      assert (Hlt : hash_at hash B < 16) by zdiv.
      change (2 ^ 4) with 16. rewrite bor_small by lia.
      change 16 with (2 ^ 4) at 1. rewrite (lor_add _ q 4) by (change (2 ^ 4) with 16; lia).
      change (2 ^ 4) with 16.
      exists (hash_at hash B + q * 16). repeat split; try lia. }
  destruct Ev as (v & -> & Hv & Hv0 & Hv1).
  eexists. split; [reflexivity|].
  assert (Hget : forall j, 0 <= j ->
                   hash_at (arr_set 0 hash B v) j = if j =? B then v else hash_at hash j).
  { intros j Hj. unfold hash_at. apply arr_get_set; lia. }
  assert (Hnib : forall k, 0 <= k -> 5 + k / 2 <> B ->
                   nibble (arr_set 0 hash B v) k = nibble hash k).
  { intros k Hk Hne. rewrite !nibble_at, Hget by zdiv.
    destruct (Z.eqb_spec (5 + k / 2) B); [contradiction | reflexivity]. }
  assert (Hsame : forall k, 0 <= k -> 5 + k / 2 = B ->
                    nibble (arr_set 0 hash B v) k = if Z.even k then v mod 16 else v / 16).
  { intros k Hk He. rewrite nibble_at, Hget by zdiv.
    destruct (Z.eqb_spec (5 + k / 2) B); [reflexivity | contradiction]. }
  split; [|split; [|split; [|split; [|split]]]].
  - rewrite arr_set_length by lia. subst B. zdiv.
  - apply arr_set_Forall; unfold PNGSpec.is_byte; try assumption; lia.
  - intros j Hj. rewrite Hget by lia.
    destruct (Z.eqb_spec j B); [subst B; zdiv | reflexivity].
  - intros k Hk. destruct (Z.eq_dec (5 + k / 2) B) as [He | Hne].
    + rewrite Hsame by lia. rewrite nibble_at by lia. rewrite He.
      assert (Hodd : idx mod 2 = 1 /\ k mod 2 = 0) by (subst B; zdiv).
      destruct Hodd as [Ho Hke]. destruct (Hv1 Ho) as [-> Hlt].
      rewrite even_mod2, Hke. simpl (0 =? 0). cbv iota. zdiv.
    + apply Hnib; lia.
  - rewrite Hsame by (subst B; lia). rewrite even_mod2.
    assert (Hc : idx mod 2 = 0 \/ idx mod 2 = 1) by zdiv.
    destruct Hc as [Hc | Hc]; rewrite Hc.
    + rewrite (Hv0 Hc). simpl. apply Z.mod_small. lia.
    + destruct (Hv1 Hc) as [-> Hlt]. simpl (1 =? 0). cbv iota. zdiv.
  - intros k Hk. destruct (Z.eq_dec (5 + k / 2) B) as [He | Hne].
    + rewrite Hsame by lia.
      assert (Hodd : idx mod 2 = 0 /\ k mod 2 = 1) by (subst B; zdiv).
      destruct Hodd as [Ho Hke]. rewrite (Hv0 Ho), even_mod2, Hke.
      simpl (1 =? 0). cbv iota. zdiv.
    + rewrite Hnib by lia. apply Hz. lia.
Qed.

(** the whole loop: the nibbles of the hash are the quantized terms, in
    order *)
Lemma write_ac_nibbles fs : forall hash idx,
  0 <= idx -> idx + Z.of_nat (length fs) < 2 ^ 31 ->
  Z.of_nat (length hash) = 5 + (idx + 1) / 2 ->
  Forall PNGSpec.is_byte hash ->
  (forall k, idx <= k -> nibble hash k = 0) ->
  Forall (fun f => 0 <= quantize_ac f <= 15) fs ->
  let hash' := fst (fold_left write_ac fs (hash, idx)) in
  Forall PNGSpec.is_byte hash' /\
  (forall j, 0 <= j < 5 -> hash_at hash' j = hash_at hash j) /\
  (forall k, 0 <= k < idx -> nibble hash' k = nibble hash k) /\
  (forall k, idx <= k < idx + Z.of_nat (length fs) ->
             nibble hash' k = nth (Z.to_nat (k - idx)) (map quantize_ac fs) 0).
Proof.
  induction fs as [|f fs IH]; intros hash idx Hidx Hlt Hlen Hb Hz Hq.
  - simpl. repeat split; auto. intros k Hk. simpl in Hk. lia.
  - cbn [length] in Hlt. inversion Hq as [|f' fs' Hf Hfs]; subst.
    destruct (write_ac_step hash idx f) as (hash1 & E & L1 & B1 & H5 & Hlo & Hat & Hz1);
      try assumption; try lia.
    cbn [fold_left]. rewrite E.
    destruct (IH hash1 (idx + 1)) as (B2 & G5 & Glo & Gat); try assumption; try lia.
    cbv zeta in *. split; [assumption|]. split; [|split].
    + intros j Hj. rewrite G5, H5 by lia. reflexivity.
    + intros k Hk. rewrite Glo, Hlo by lia. reflexivity.
    + intros k Hk. cbn [length] in Hk. destruct (Z.eq_dec k idx) as [-> | Hne].
      * rewrite Glo, Hat by lia. rewrite Z.sub_diag. reflexivity.
      * rewrite Gat by lia. cbn [map].
        replace (Z.to_nat (k - idx)) with (S (Z.to_nat (k - (idx + 1)))) by lia.
        reflexivity.
Qed.


(** the integers [rgbaToThumbHash] packs: the six header fields and the AC
    terms of the three channels, as it rounds them *)
Record quantized := {
  qz_l_dc : Z; qz_p_dc : Z; qz_q_dc : Z;
  qz_l_scale : Z; qz_p_scale : Z; qz_q_scale : Z;
  qz_l_ac : list Z; qz_p_ac : list Z; qz_q_ac : list Z }.

Definition quantize (cfg : config) (w h : Z) (rgba : list Z) : quantized :=
  let '(l, p, q) := toLPQ w h rgba (average_color w h rgba) in
  let '(l_dc, l_ac, l_scale) := channel_terms w h l (LUMINANCE_TERMS cfg) in
  let '(p_dc, p_ac, p_scale) := channel_terms w h p (CHROMINANCE_TERMS cfg) in
  let '(q_dc, q_ac, q_scale) := channel_terms w h q (CHROMINANCE_TERMS cfg) in
  {| qz_l_dc := round_int (of_Z 63 * l_dc)%js;
     qz_p_dc := round_int (lit 31.5 + lit 31.5 * p_dc)%js;
     qz_q_dc := round_int (lit 31.5 + lit 31.5 * q_dc)%js;
     qz_l_scale := round_int (of_Z 31 * l_scale)%js;
     qz_p_scale := round_int (of_Z 63 * p_scale)%js;
     qz_q_scale := round_int (of_Z 63 * q_scale)%js;
     qz_l_ac := map quantize_ac l_ac;
     qz_p_ac := map quantize_ac p_ac;
     qz_q_ac := map quantize_ac q_ac |}.

(** every integer fits the bits the format gives it *)
Definition within (n : Z) (x : Z) : bool := (0 <=? x) && (x <=? n).

Definition fits (z : quantized) : bool :=
  within 63 (qz_l_dc z) && within 63 (qz_p_dc z) && within 63 (qz_q_dc z)
  && within 31 (qz_l_scale z) && within 63 (qz_p_scale z) && within 63 (qz_q_scale z)
  && forallb (within 15) (qz_l_ac z ++ qz_p_ac z ++ qz_q_ac z).

(** what [thumbHashToRGBA] computes from these integers *)
Definition dequantized (z : quantized) : header * list num * list num * list num :=
  let hd := {| l_dc := (of_Z (qz_l_dc z) / of_Z 63)%js;
               p_dc := (of_Z (qz_p_dc z) / lit 31.5 - of_Z 1)%js;
               q_dc := (of_Z (qz_q_dc z) / lit 31.5 - of_Z 1)%js;
               l_scale := (of_Z (qz_l_scale z) / of_Z 31)%js;
               p_scale := (of_Z (qz_p_scale z) / of_Z 63)%js;
               q_scale := (of_Z (qz_q_scale z) / of_Z 63)%js |} in
  (hd,
   map (fun n => dequantize n (l_scale hd)) (qz_l_ac z),
   map (fun n => dequantize n (p_scale hd * lit 1.25)%js) (qz_p_ac z),
   map (fun n => dequantize n (q_scale hd * lit 1.25)%js) (qz_q_ac z)).

Lemma within_spec n x : within n x = true <-> 0 <= x <= n.
Proof. unfold within. rewrite andb_true_iff, Z.leb_le, Z.leb_le. reflexivity. Qed.

Lemma ToUint8_bytes l : Forall PNGSpec.is_byte l -> map JS.ToUint8 l = l.
Proof.
  intros H. induction H as [|x l Hx _ IH]; [reflexivity|]. simpl. rewrite IH. f_equal.
  unfold JS.ToUint8, PNGSpec.is_byte in *. apply Z.mod_small. lia.
Qed.

Lemma map_segment {A} (F : Z -> A) (g : Z -> Z) (seg : list Z) : forall pre post,
  (forall k, Z.of_nat (length pre) <= k < Z.of_nat (length pre) + Z.of_nat (length seg) ->
             g k = nth (Z.to_nat k) (pre ++ seg ++ post) 0) ->
  map (fun k => F (g k)) (zseq (Z.of_nat (length pre)) (length seg)) = map F seg.
Proof.
  induction seg as [|x seg IH]; intros pre post Hg; [reflexivity|].
  cbn [length]. rewrite zseq_S. cbn [map]. f_equal.
  - rewrite Hg by (cbn [length]; lia). rewrite Nat2Z.id, app_nth2, Nat.sub_diag by lia.
    reflexivity.
  - replace (Z.of_nat (length pre) + 1) with (Z.of_nat (length (pre ++ [x])))
      by (rewrite length_app; simpl; lia).
    apply (IH (pre ++ [x]) post). intros k Hk. rewrite Hg.
    + now rewrite <- app_assoc.
    + rewrite length_app in Hk. cbn [length] in *. lia.
Qed.

Lemma header_bytes_spec h24 h16 :
  0 <= h24 < 2 ^ 24 -> 0 <= h16 < 2 ^ 16 ->
  let hash := header_bytes h24 h16 in
  Forall PNGSpec.is_byte hash /\ header24_value hash = h24 /\ header16_value hash = h16.
Proof.
  intros H24 H16. unfold header_bytes, header24_value, header16_value. cbn [nth].
  change 255 with (Z.ones 8). rewrite !band_field, !sar_div by lia.
  rewrite !band_low by lia. rewrite (Z.mod_small h24 (2 ^ 32)), (Z.mod_small h16 (2 ^ 32)) by lia.
  change (2 ^ 8) with 256. change (2 ^ 16) with 65536 in *. change (2 ^ 24) with 16777216 in *.
  split; [|split; zdiv].
  unfold PNGSpec.is_byte. repeat constructor; zdiv.
Qed.

Lemma header24_of_sum (l_dc p_dc q_dc l_scale : num) :
  let a := round_int (of_Z 63 * l_dc)%js in
  let b := round_int (lit 31.5 + lit 31.5 * p_dc)%js in
  let c := round_int (lit 31.5 + lit 31.5 * q_dc)%js in
  let d := round_int (of_Z 31 * l_scale)%js in
  0 <= a <= 63 -> 0 <= b <= 63 -> 0 <= c <= 63 -> 0 <= d <= 31 ->
  header24_of l_dc p_dc q_dc l_scale = a + 64 * b + 4096 * c + 262144 * d.
Proof.
  intros a b c d Ha Hb Hc Hd. unfold header24_of. fold a b c d.
  rewrite !shl_small by lia.
  change (2 ^ 6) with 64. change (2 ^ 12) with 4096. change (2 ^ 18) with 262144.
  rewrite (bor_small a) by lia.
  change 64 with (2 ^ 6). rewrite lor_add by (change (2 ^ 6) with 64; lia).
  change (2 ^ 6) with 64.
  rewrite (bor_small (a + b * 64)) by lia.
  change 4096 with (2 ^ 12). rewrite lor_add by (change (2 ^ 12) with 4096; lia).
  change (2 ^ 12) with 4096.
  rewrite bor_small by lia.
  change 262144 with (2 ^ 18). rewrite lor_add by (change (2 ^ 18) with 262144; lia).
  change (2 ^ 18) with 262144. lia.
Qed.

Lemma header16_of_sum (p_scale q_scale : num) :
  let e := round_int (of_Z 63 * p_scale)%js in
  let f := round_int (of_Z 63 * q_scale)%js in
  0 <= e <= 63 -> 0 <= f <= 63 ->
  header16_of p_scale q_scale = 8 * e + 512 * f.
Proof.
  intros e f He Hf. unfold header16_of. fold e f.
  rewrite !shl_small by lia. change (2 ^ 3) with 8. change (2 ^ 9) with 512.
  rewrite bor_small by lia.
  replace (e * 8) with (0 + e * 8) at 1 by lia.
  assert (E : Z.lor (e * 8) (f * 512) = Z.lor (e * 8) ((f * 64) * 2 ^ 3)).
  { f_equal. change (2 ^ 3) with 8. lia. }
  assert (E2 : e * 8 = e * 2 ^ 3) by (change (2 ^ 3) with 8; lia).
  rewrite Z.add_0_l, E, E2, <- !Z.shiftl_mul_pow2, <- Z.shiftl_lor by lia.
  rewrite Z.shiftl_mul_pow2 by lia.
  change 64 with (2 ^ 6). rewrite lor_add by (change (2 ^ 6) with 64; lia).
  change (2 ^ 6) with 64. change (2 ^ 3) with 8. lia.
Qed.

End RoundTrip.

Lemma encoded_hash_terms {fl : Float64} (fuel : nat) cfg w h rgba :
  w <= 100 -> h <= 100 ->
  1 <= LUMINANCE_TERMS cfg <= 10 -> 1 <= CHROMINANCE_TERMS cfg <= 10 ->
  (10 < fuel)%nat ->
  fits (quantize cfg w h rgba) = true ->
  exists hash,
    rgbaToThumbHash fuel cfg w h rgba = Ok hash /\
    Forall PNGSpec.is_byte hash /\
    read_header hash = fst (fst (fst (dequantized (quantize cfg w h rgba)))) /\
    read_terms fuel cfg hash = Ok (dequantized (quantize cfg w h rgba)) /\
    nth 2 hash 0 < 128 /\
    (let z := quantize cfg w h rgba in
     header24_value hash
     = qz_l_dc z + 64 * qz_p_dc z + 4096 * qz_q_dc z + 262144 * qz_l_scale z /\
     header16_value hash = 8 * qz_p_scale z + 512 * qz_q_scale z /\
     forall k, 0 <= k < totalAc cfg ->
               nibble hash k = nth (Z.to_nat k) (qz_l_ac z ++ qz_p_ac z ++ qz_q_ac z) 0).
Proof.
  intros Hw Hh HL HC Hfuel Hfit.
  rewrite rgbaToThumbHash_ok by lia.
  unfold pack. unfold quantize in Hfit |- *.
  destruct (toLPQ w h rgba (average_color w h rgba)) as [[l p] q].
  pose proof (channel_terms_length w h l (LUMINANCE_TERMS cfg) ltac:(lia)) as El.
  pose proof (channel_terms_length w h p (CHROMINANCE_TERMS cfg) ltac:(lia)) as Ep.
  pose proof (channel_terms_length w h q (CHROMINANCE_TERMS cfg) ltac:(lia)) as Eq.
  destruct (channel_terms w h l _) as [[ldc lac] lsc].
  destruct (channel_terms w h p _) as [[pdc pac] psc].
  destruct (channel_terms w h q _) as [[qdc qac] qsc].
  cbn [fst snd] in El, Ep, Eq.
  unfold fits in Hfit.
  cbn [qz_l_dc qz_p_dc qz_q_dc qz_l_scale qz_p_scale qz_q_scale qz_l_ac qz_p_ac qz_q_ac]
    in Hfit.
  rewrite !andb_true_iff, !within_spec in Hfit.
  destruct Hfit as [[[[[[Fa Fb] Fc] Fd] Fe] Ff] Fac].
  rewrite <- !map_app in Fac.
  assert (Hq : Forall (fun f => 0 <= quantize_ac f <= 15) (lac ++ pac ++ qac)).
  { apply Forall_forall. intros f Hf. rewrite forallb_forall in Fac.
    apply within_spec. apply Fac. now apply in_map. }
  pose proof (header24_of_sum ldc pdc qdc lsc Fa Fb Fc Fd) as E24. cbv zeta in E24.
  pose proof (header16_of_sum psc qsc Fe Ff) as E16. cbv zeta in E16.
  set (a := round_int (of_Z 63 * ldc)%js) in *.
  set (b := round_int (lit 31.5 + lit 31.5 * pdc)%js) in *.
  set (c := round_int (lit 31.5 + lit 31.5 * qdc)%js) in *.
  set (d := round_int (of_Z 31 * lsc)%js) in *.
  set (e := round_int (of_Z 63 * psc)%js) in *.
  set (f := round_int (of_Z 63 * qsc)%js) in *.
  set (h24 := header24_of ldc pdc qdc lsc) in *.
  set (h16 := header16_of psc qsc) in *.
  destruct (header_bytes_spec h24 h16) as (B0 & V24 & V16); [lia | lia |].
  pose proof (ac_count_bound (LUMINANCE_TERMS cfg) ltac:(lia)) as BL.
  pose proof (ac_count_bound (CHROMINANCE_TERMS cfg) ltac:(lia)) as BC.
  assert (TL : LUMINANCE_TERMS cfg * LUMINANCE_TERMS cfg <= 100) by nia.
  assert (TC : CHROMINANCE_TERMS cfg * CHROMINANCE_TERMS cfg <= 100) by nia.
  assert (Hlen : Z.of_nat (length (lac ++ pac ++ qac))
                 = ac_count (LUMINANCE_TERMS cfg) + ac_count (CHROMINANCE_TERMS cfg)
                   + ac_count (CHROMINANCE_TERMS cfg)).
  { rewrite !length_app. lia. }
  destruct (write_ac_nibbles (lac ++ pac ++ qac) (header_bytes h24 h16) 0)
    as (B1 & H5 & _ & Hnib); try assumption; try lia.
  { reflexivity. }
  { intros k Hk. unfold nibble. rewrite nth_overflow; [now destruct (Z.even k)|].
    unfold header_bytes. cbn [length]. zdiv. }
  cbv zeta in B1, H5, Hnib.
  set (hash := fst (fold_left write_ac (lac ++ pac ++ qac) (header_bytes h24 h16, 0))) in *.
  rewrite (ToUint8_bytes hash B1).
  assert (N : forall j, 0 <= j < 5 -> nth (Z.to_nat j) hash 0
                                      = nth (Z.to_nat j) (header_bytes h24 h16) 0).
  { intros j Hj. rewrite <- !hash_at_nth by lia. apply H5. lia. }
  pose proof (N 0 ltac:(lia)) as N0. pose proof (N 1 ltac:(lia)) as N1.
  pose proof (N 2 ltac:(lia)) as N2. pose proof (N 3 ltac:(lia)) as N3.
  pose proof (N 4 ltac:(lia)) as N4.
  change (Z.to_nat 0) with 0%nat in N0. change (Z.to_nat 1) with 1%nat in N1.
  change (Z.to_nat 2) with 2%nat in N2. change (Z.to_nat 3) with 3%nat in N3.
  change (Z.to_nat 4) with 4%nat in N4.
  assert (W24 : header24_value hash = h24).
  { rewrite <- V24. unfold header24_value. rewrite N0, N1, N2. reflexivity. }
  assert (W16 : header16_value hash = h16).
  { rewrite <- V16. unfold header16_value. rewrite N3, N4. reflexivity. }
  assert (Ehd : header_fields hash
                = {| l_dc := (of_Z a / of_Z 63)%js;
                     p_dc := (of_Z b / lit 31.5 - of_Z 1)%js;
                     q_dc := (of_Z c / lit 31.5 - of_Z 1)%js;
                     l_scale := (of_Z d / of_Z 31)%js;
                     p_scale := (of_Z e / of_Z 63)%js;
                     q_scale := (of_Z f / of_Z 63)%js |}).
  { unfold header_fields. rewrite W24, W16, E24, E16. unfold field.
    change (2 ^ 0) with 1. change (2 ^ 6) with 64. change (2 ^ 12) with 4096.
    change (2 ^ 18) with 262144. change (2 ^ 5) with 32. change (2 ^ 3) with 8.
    change (2 ^ 9) with 512.
    replace ((a + 64 * b + 4096 * c + 262144 * d) / 1 mod 64) with a by zdiv.
    replace ((a + 64 * b + 4096 * c + 262144 * d) / 64 mod 64) with b by zdiv.
    replace ((a + 64 * b + 4096 * c + 262144 * d) / 4096 mod 64) with c by zdiv.
    replace ((a + 64 * b + 4096 * c + 262144 * d) / 262144 mod 32) with d by zdiv.
    replace ((8 * e + 512 * f) / 8 mod 64) with e by zdiv.
    replace ((8 * e + 512 * f) / 512 mod 64) with f by zdiv.
    reflexivity. }
  exists hash. split; [reflexivity|]. split; [assumption|]. split; [|split; [|split]].
  - rewrite read_header_fields by assumption. exact Ehd.
  - unfold read_terms. rewrite read_header_fields by assumption.
    rewrite decodeChannel_terms by (assumption || lia). cbn [bind].
    rewrite decodeChannel_terms by (assumption || lia). cbn [bind].
    rewrite decodeChannel_terms by (assumption || lia). cbn [bind].
    unfold dequantized.
    cbn [qz_l_dc qz_p_dc qz_q_dc qz_l_scale qz_p_scale qz_q_scale qz_l_ac qz_p_ac qz_q_ac].
    rewrite Ehd. cbn [l_scale p_scale q_scale].
    unfold read_nibbles, zrange.
    assert (Hn : forall k, 0 <= k < Z.of_nat (length (lac ++ pac ++ qac)) ->
                   nibble hash k
                   = nth (Z.to_nat k) (map quantize_ac lac ++ map quantize_ac pac
                                       ++ map quantize_ac qac) 0).
    { intros k Hk. rewrite Hnib by lia. rewrite Z.sub_0_r, !map_app. reflexivity. }
    rewrite !length_app in Hn.
    f_equal. f_equal; [f_equal; [f_equal|]|].
    + replace (Z.to_nat (0 + ac_count (LUMINANCE_TERMS cfg) - 0))
        with (length (map quantize_ac lac)) by (rewrite length_map; lia).
      apply (map_segment (fun n => dequantize n (of_Z d / of_Z 31)%js) (nibble hash)
               (map quantize_ac lac) [] (map quantize_ac pac ++ map quantize_ac qac)).
      intros k Hk. cbn [length app] in *. rewrite length_map in Hk. apply Hn. lia.
    + replace (Z.to_nat (0 + ac_count (LUMINANCE_TERMS cfg) + ac_count (CHROMINANCE_TERMS cfg)
                         - (0 + ac_count (LUMINANCE_TERMS cfg))))
        with (length (map quantize_ac pac)) by (rewrite length_map; lia).
      replace (0 + ac_count (LUMINANCE_TERMS cfg))
        with (Z.of_nat (length (map quantize_ac lac))) by (rewrite length_map; lia).
      apply (map_segment (fun n => dequantize n (of_Z e / of_Z 63 * lit 1.25)%js) (nibble hash)
               (map quantize_ac pac) (map quantize_ac lac) (map quantize_ac qac)).
      intros k Hk. rewrite !length_map in Hk. apply Hn. lia.
    + replace (Z.to_nat (0 + ac_count (LUMINANCE_TERMS cfg) + ac_count (CHROMINANCE_TERMS cfg)
                         + ac_count (CHROMINANCE_TERMS cfg)
                         - (0 + ac_count (LUMINANCE_TERMS cfg)
                            + ac_count (CHROMINANCE_TERMS cfg))))
        with (length (map quantize_ac qac)) by (rewrite length_map; lia).
      replace (0 + ac_count (LUMINANCE_TERMS cfg) + ac_count (CHROMINANCE_TERMS cfg))
        with (Z.of_nat (length (map quantize_ac lac ++ map quantize_ac pac)))
        by (rewrite length_app, !length_map; lia).
      apply (map_segment (fun n => dequantize n (of_Z f / of_Z 63 * lit 1.25)%js) (nibble hash)
               (map quantize_ac qac) (map quantize_ac lac ++ map quantize_ac pac) []).
      intros k Hk. rewrite length_app, !length_map in Hk.
      rewrite app_nil_r, <- app_assoc. apply Hn. lia.
  - rewrite N2. unfold header_bytes. cbn [nth].
    rewrite sar_div by lia. rewrite E24. change (2 ^ 16) with 65536. zdiv.
  - cbv zeta.
    cbn [qz_l_dc qz_p_dc qz_q_dc qz_l_scale qz_p_scale qz_q_scale qz_l_ac qz_p_ac qz_q_ac].
    rewrite W24, W16. split; [exact E24|]. split; [exact E16|].
    intros k Hk. unfold totalAc in Hk. rewrite Hnib by lia.
    rewrite Z.sub_0_r, !map_app. reflexivity.
Qed.


(** X6. What [thumbHashToRGBA] reads from a hash [rgbaToThumbHash] wrote
    under the same configuration: when each value the encoder rounded fits
    the bits the format gives it (6 bits for the DC terms and the chroma
    scales, 5 for the luminance scale, 4 for an AC term), the decoder gets
    back exactly these integers, the header fields divided by 63, 31.5 or 31
    and every AC term as [(n / 7.5 - 1) * scale], each channel with its own
    terms in the encoder's order. *)
Theorem thumbHashToRGBA_reads_encoded {fl : Float64} (fuel : nat) cfg w h rgba :
  w <= 100 -> h <= 100 ->
  1 <= LUMINANCE_TERMS cfg <= 10 -> 1 <= CHROMINANCE_TERMS cfg <= 10 ->
  (10 < fuel)%nat ->
  fits (quantize cfg w h rgba) = true ->
  exists hash,
    rgbaToThumbHash fuel cfg w h rgba = Ok hash /\
    read_terms fuel cfg hash = Ok (dequantized (quantize cfg w h rgba)).
Proof.
  intros Hw Hh HL HC Hfuel Hfit.
  destruct (encoded_hash_terms fuel cfg w h rgba Hw Hh HL HC Hfuel Hfit)
    as (hash & E & _ & _ & R & _ & _).
  now exists hash.
Qed.

Lemma thumbHashToRGBA_reads_encoded_witness :
  exists hash,
    @rgbaToThumbHash js64 11 default_config 2 2
      [255; 0; 0; 255; 0; 255; 0; 255; 0; 0; 255; 255; 200; 200; 200; 128] = Ok hash /\
    @read_terms js64 11 default_config hash
    = Ok (dequantized (@quantize js64 default_config 2 2
            [255; 0; 0; 255; 0; 255; 0; 255; 0; 0; 255; 255; 200; 200; 200; 128])).
Proof.
  apply (@thumbHashToRGBA_reads_encoded js64 11 default_config 2 2
           [255; 0; 0; 255; 0; 255; 0; 255; 0; 0; 255; 255; 200; 200; 200; 128]);
    try (simpl; lia).
  vm_compute. reflexivity.
Defined.

(** ** thumbHashToAverageRGBA *)

Section Average.
Context {fl : Float64}.

(** [hasAlpha], bit 23 of the header, is the top bit of byte 2 *)
Lemma hasAlpha_value hash :
  Forall PNGSpec.is_byte hash -> JS.sar (read_header24 hash) 23 = nth 2 hash 0 / 128.
Proof.
  intros Hb. destruct (read_header24_value hash Hb) as [E24 H24].
  rewrite E24, sar_div by lia. unfold header24_value.
  pose proof (PNGProofs.nth_byte hash 0 Hb) as H0.
  pose proof (PNGProofs.nth_byte hash 1 Hb) as H1.
  pose proof (PNGProofs.nth_byte hash 2 Hb) as H2.
  unfold PNGSpec.is_byte in *. change (2 ^ 23) with 8388608. zdiv.
Qed.

Definition clamp01 (v : num) : num := Math_max (of_Z 0) (Math_min (of_Z 1) v).

(** the colour [thumbHashToAverageRGBA] returns for the DC fields of [hd]
    and the alpha [a] *)
Definition average_of (hd : header) (a : num) : color :=
  let '(r, g, b) := fromLPQ (l_dc hd) (p_dc hd) (q_dc hd) in
  {| col_r := clamp01 r; col_g := clamp01 g; col_b := clamp01 b; col_a := a |}.

Lemma average_fields hash :
  Forall PNGSpec.is_byte hash ->
  thumbHashToAverageRGBA hash
  = average_of (read_header hash)
      (if nth 2 hash 0 <? 128 then of_Z 1 else (of_Z (nth 5 hash 0 mod 16) / of_Z 15)%js).
Proof.
  intros Hb. unfold thumbHashToAverageRGBA, average_of, read_header, clamp01. cbv zeta.
  cbn [l_dc p_dc q_dc]. rewrite (hasAlpha_value hash Hb).
  assert (E5 : JS.band (hash_at hash 5) 15 = nth 5 hash 0 mod 16).
  { rewrite hash_at_nth by lia. change (Z.to_nat 5) with 5%nat.
    pose proof (PNGProofs.nth_byte hash 5 Hb) as H5. unfold PNGSpec.is_byte in H5.
    change 15 with (Z.ones 4). rewrite band_low by lia.
    rewrite (Z.mod_small (nth 5 hash 0) (2 ^ 32)) by lia. reflexivity. }
  rewrite E5.
  assert (Ec : negb (nth 2 hash 0 / 128 =? 0) = negb (nth 2 hash 0 <? 128)).
  { pose proof (PNGProofs.nth_byte hash 2 Hb) as H2. unfold PNGSpec.is_byte in H2.
    f_equal. destruct (Z.ltb_spec (nth 2 hash 0) 128); [apply Z.eqb_eq | apply Z.eqb_neq]; zdiv. }
  rewrite Ec.
  destruct (fromLPQ _ _ _) as [[r g] b].
  destruct (nth 2 hash 0 <? 128); reflexivity.
Qed.

End Average.

(** X9. [thumbHashToAverageRGBA] on a hash of bytes, of any length: the
    colour is the clamped [fromLPQ] of the three DC fields exactly as
    [thumbHashToRGBA] reads them, and alpha is 1 unless byte 2 of the hash is
    128 or more (bit 23 of the header), in which case it is the low nibble
    of byte 5 over 15; a byte the hash does not hold counts as 0. *)
Theorem thumbHashToAverageRGBA_fields {fl : Float64} (hash : list Z) :
  Forall PNGSpec.is_byte hash ->
  thumbHashToAverageRGBA hash
  = average_of (read_header hash)
      (if nth 2 hash 0 <? 128 then of_Z 1 else (of_Z (nth 5 hash 0 mod 16) / of_Z 15)%js).
Proof. apply average_fields. Qed.

Lemma thumbHashToAverageRGBA_fields_witness :
  col_a (@thumbHashToAverageRGBA js64 [148; 155; 170; 240; 40; 249])
  = (@of_Z js64 9 / @of_Z js64 15)%js
  /\ col_a (@thumbHashToAverageRGBA js64 [148; 155]) = @of_Z js64 1.
Proof.
  split.
  - rewrite (@thumbHashToAverageRGBA_fields js64 [148; 155; 170; 240; 40; 249])
      by (unfold PNGSpec.is_byte; repeat constructor; lia).
    reflexivity.
  - rewrite (@thumbHashToAverageRGBA_fields js64 [148; 155])
      by (unfold PNGSpec.is_byte; repeat constructor; lia).
    reflexivity.
Defined.

(** X10. The average colour of a hash [rgbaToThumbHash] wrote: when the
    rounded values fit their bits, [thumbHashToAverageRGBA] returns the
    clamped [fromLPQ] of the three quantized DC terms, and alpha 1 (the
    encoder leaves bit 23 of the header clear). *)
Theorem thumbHashToAverageRGBA_encoded {fl : Float64} (fuel : nat) cfg w h rgba :
  w <= 100 -> h <= 100 ->
  1 <= LUMINANCE_TERMS cfg <= 10 -> 1 <= CHROMINANCE_TERMS cfg <= 10 ->
  (10 < fuel)%nat ->
  fits (quantize cfg w h rgba) = true ->
  exists hash,
    rgbaToThumbHash fuel cfg w h rgba = Ok hash /\
    thumbHashToAverageRGBA hash
    = average_of (fst (fst (fst (dequantized (quantize cfg w h rgba))))) (of_Z 1).
Proof.
  intros Hw Hh HL HC Hfuel Hfit.
  destruct (encoded_hash_terms fuel cfg w h rgba Hw Hh HL HC Hfuel Hfit)
    as (hash & E & Hb & Hd & _ & H2 & _).
  exists hash. split; [assumption|].
  rewrite (average_fields hash Hb), Hd.
  destruct (Z.ltb_spec (nth 2 hash 0) 128); [reflexivity | lia].
Qed.

Lemma thumbHashToAverageRGBA_encoded_witness :
  exists hash,
    @rgbaToThumbHash js64 11 reference_config 2 2
      [255; 0; 0; 255; 0; 255; 0; 255; 0; 0; 255; 255; 200; 200; 200; 128] = Ok hash /\
    @thumbHashToAverageRGBA js64 hash
    = average_of (fst (fst (fst (dequantized (@quantize js64 reference_config 2 2
        [255; 0; 0; 255; 0; 255; 0; 255; 0; 0; 255; 255; 200; 200; 200; 128])))))
        (@of_Z js64 1).
Proof.
  apply (@thumbHashToAverageRGBA_encoded js64 11 reference_config 2 2
           [255; 0; 0; 255; 0; 255; 0; 255; 0; 0; 255; 255; 200; 200; 200; 128]);
    try (simpl; lia).
  vm_compute. reflexivity.
Defined.

(** X7. The layout of the hash [rgbaToThumbHash] returns, when the rounded
    values fit their bits: bytes 0 to 2 hold, low byte first, the 24-bit
    word with [l_dc] at bit 0, [p_dc] at bit 6, [q_dc] at bit 12 and
    [l_scale] at bit 18; bytes 3 and 4 the 16-bit word with [p_scale] at bit
    3 and [q_scale] at bit 9; and from byte 5 on the AC terms of L, then P,
    then Q, one nibble each, the low nibble of a byte first. *)
Theorem rgbaToThumbHash_layout {fl : Float64} (fuel : nat) cfg w h rgba :
  w <= 100 -> h <= 100 ->
  1 <= LUMINANCE_TERMS cfg <= 10 -> 1 <= CHROMINANCE_TERMS cfg <= 10 ->
  (10 < fuel)%nat ->
  fits (quantize cfg w h rgba) = true ->
  let z := quantize cfg w h rgba in
  exists hash,
    rgbaToThumbHash fuel cfg w h rgba = Ok hash /\
    Forall PNGSpec.is_byte hash /\
    header24_value hash
    = qz_l_dc z + 64 * qz_p_dc z + 4096 * qz_q_dc z + 262144 * qz_l_scale z /\
    header16_value hash = 8 * qz_p_scale z + 512 * qz_q_scale z /\
    forall k, 0 <= k < totalAc cfg ->
              nibble hash k = nth (Z.to_nat k) (qz_l_ac z ++ qz_p_ac z ++ qz_q_ac z) 0.
Proof.
  intros Hw Hh HL HC Hfuel Hfit z.
  destruct (encoded_hash_terms fuel cfg w h rgba Hw Hh HL HC Hfuel Hfit)
    as (hash & E & Hb & _ & _ & _ & L).
  exists hash. split; [assumption|]. split; [assumption|]. exact L.
Qed.

Lemma rgbaToThumbHash_layout_witness :
  exists hash,
    @rgbaToThumbHash js64 11 default_config 1 2 [10; 20; 30; 255; 200; 100; 0; 255] = Ok hash /\
    Forall PNGSpec.is_byte hash /\
    header24_value hash mod 64
    = qz_l_dc (@quantize js64 default_config 1 2 [10; 20; 30; 255; 200; 100; 0; 255]).
Proof.
  destruct (@rgbaToThumbHash_layout js64 11 default_config 1 2
              [10; 20; 30; 255; 200; 100; 0; 255])
    as (hash & E & Hb & E24 & _); try (simpl; lia).
  { vm_compute. reflexivity. }
  exists hash. split; [exact E|]. split; [exact Hb|]. rewrite E24.
  vm_compute. reflexivity.
Defined.

(** ** The samples rgbaToThumbHash reads *)

Lemma iter_from_ext_inv {S} (P : Z -> S -> Prop) (f g : Z -> S -> S) k : forall lo s,
  P lo s ->
  (forall j s, lo <= j < lo + Z.of_nat k -> P j s -> f j s = g j s /\ P (j + 1) (g j s)) ->
  iter_from k lo f s = iter_from k lo g s.
Proof.
  induction k as [|k IH]; intros lo s H0 Hstep; [reflexivity|].
  simpl. destruct (Hstep lo s ltac:(lia) H0) as [E H1]. rewrite E.
  apply IH; [assumption|]. intros j s' Hj. apply Hstep. lia.
Qed.

Section EncoderReads.
Context {fl : Float64}.

(** two buffers that hold the same samples below [N]; a buffer may stop
    before [N], and then so does the other *)
Definition same_samples (N : Z) (r1 r2 : list Z) : Prop :=
  forall j, 0 <= j < N -> nth_error r1 (Z.to_nat j) = nth_error r2 (Z.to_nat j).

Lemma byte_at_nth_error a j :
  0 <= j ->
  byte_at a j = match nth_error a (Z.to_nat j) with Some x => of_Z x | None => NaN end.
Proof.
  intros Hj. unfold byte_at. destruct (Z.leb_spec 0 j); [|lia]. cbn [andb].
  destruct (Z.ltb_spec j (Z.of_nat (length a))).
  - destruct (nth_error a (Z.to_nat j)) eqn:E.
    + now rewrite (nth_error_nth _ _ _ E).
    + apply nth_error_None in E. lia.
  - destruct (nth_error a (Z.to_nat j)) eqn:E; [|reflexivity].
    assert (nth_error a (Z.to_nat j) <> None) by congruence.
    apply nth_error_Some in H1. lia.
Qed.

Lemma same_samples_at N r1 r2 j :
  same_samples N r1 r2 -> 0 <= j < N -> byte_at r1 j = byte_at r2 j.
Proof. intros H Hj. rewrite !byte_at_nth_error by lia. now rewrite (H j Hj). Qed.

(** the bodies of the two pixel loops of [rgbaToThumbHash] *)
Definition avg_step (rgba : list Z) (i : Z) (s : num * num * num * Z)
  : num * num * num * Z :=
  let '(avg_r, avg_g, avg_b, j) := s in
  let alpha := (byte_at rgba (j + 3) / of_Z 255)%js in
  ((avg_r + alpha / of_Z 255 * byte_at rgba j)%js,
   (avg_g + alpha / of_Z 255 * byte_at rgba (j + 1))%js,
   (avg_b + alpha / of_Z 255 * byte_at rgba (j + 2))%js,
   j + 4).

Definition lpq_step (avg : num * num * num) (rgba : list Z) (i : Z)
  (s : list num * list num * list num * Z) : list num * list num * list num * Z :=
  let '(l, p, q, j) := s in
  let '(li, pi, qi) := lpq_pixel avg rgba j in
  (arr_set NaN l i li, arr_set NaN p i pi, arr_set NaN q i qi, j + 4).

Lemma average_color_loop w h rgba :
  average_color w h rgba
  = let '(avg_r, avg_g, avg_b, _) :=
      for_range 0 (w * h) (avg_step rgba) (of_Z 0, of_Z 0, of_Z 0, 0) in
    ((avg_r / of_Z (w * h))%js, (avg_g / of_Z (w * h))%js, (avg_b / of_Z (w * h))%js).
Proof. reflexivity. Qed.

Lemma toLPQ_loop w h rgba avg :
  toLPQ w h rgba avg
  = let '(l, p, q, _) := for_range 0 (w * h) (lpq_step avg rgba) ([], [], [], 0) in
    (l, p, q).
Proof. reflexivity. Qed.

Lemma average_color_same w h r1 r2 :
  same_samples (w * h * 4) r1 r2 -> average_color w h r1 = average_color w h r2.
Proof.
  intros H. rewrite !average_color_loop. unfold for_range.
  rewrite (iter_from_ext_inv (fun i s => snd s = 4 * i) (avg_step r1) (avg_step r2));
    [reflexivity | reflexivity |].
  intros i [[[ar ag] ab] j] Hi Hj. cbn [snd] in Hj. subst j. cbn [snd avg_step].
  split; [|lia].
  rewrite !(same_samples_at (w * h * 4) r1 r2) by (assumption || lia). reflexivity.
Qed.

Lemma toLPQ_same w h r1 r2 avg :
  same_samples (w * h * 4) r1 r2 -> toLPQ w h r1 avg = toLPQ w h r2 avg.
Proof.
  intros H. rewrite !toLPQ_loop. unfold for_range.
  rewrite (iter_from_ext_inv (fun i s => snd s = 4 * i) (lpq_step avg r1) (lpq_step avg r2));
    [reflexivity | reflexivity |].
  intros i [[[l p] q] j] Hi Hj. cbn [snd] in Hj. subst j. unfold lpq_step.
  assert (E : lpq_pixel avg r1 (4 * i) = lpq_pixel avg r2 (4 * i)).
  { unfold lpq_pixel. destruct avg as [[avg_r avg_g] avg_b].
    rewrite !(same_samples_at (w * h * 4) r1 r2) by (assumption || lia). reflexivity. }
  rewrite E. destruct (lpq_pixel avg r2 (4 * i)) as [[li pi] qi]. cbn [snd].
  split; [reflexivity | lia].
Qed.

End EncoderReads.

(** X11. [rgbaToThumbHash] reads the samples [rgba[0]], ..., [rgba[w*h*4 - 1]]
    and no other: two buffers that agree on them give the same result (the
    same hash, or the same error), whatever else they hold.  So a buffer
    longer than [w * h * 4] is accepted and its tail ignored. *)
Theorem rgbaToThumbHash_same_samples {fl : Float64} (fuel : nat) cfg w h r1 r2 :
  same_samples (w * h * 4) r1 r2 ->
  rgbaToThumbHash fuel cfg w h r1 = rgbaToThumbHash fuel cfg w h r2.
Proof.
  intros H. unfold rgbaToThumbHash.
  rewrite (average_color_same w h r1 r2 H), (toLPQ_same w h r1 r2 _ H). reflexivity.
Qed.

Lemma rgbaToThumbHash_same_samples_witness :
  @rgbaToThumbHash js64 11 default_config 1 1 [10; 20; 30; 255]
  = @rgbaToThumbHash js64 11 default_config 1 1 ([10; 20; 30; 255] ++ [1; 2; 3]).
Proof.
  apply (@rgbaToThumbHash_same_samples js64 11 default_config 1 1).
  intros j Hj. assert (Hc : j = 0 \/ j = 1 \/ j = 2 \/ j = 3) by lia.
  destruct Hc as [-> | [-> | [-> | ->]]]; reflexivity.
Defined.

(** ** encodeChannel *)

(** X12. [encodeChannel] returns, for a channel of any content: as DC term the
    coefficient of index (0, 0); as AC terms the coefficients of the other
    indices [(cx, cy)] with [cx * n < n * (n - cy)], row [cy] by row, each
    the sum over the pixels of [channel[x + y*w] * cos(pi/w * cx * (x+0.5))
    * cos(pi/h * cy * (y+0.5))] over [w * h]; as scale the largest absolute
    value of the AC terms; and the AC terms are rewritten as [0.5 + 0.5 /
    scale * f] exactly when the scale is neither zero nor NaN. *)
Theorem encodeChannel_terms {fl : Float64} (fuel : nat) w h channel n :
  0 < n < Z.of_nat fuel ->
  let ac := map (fun '(cx, cy) => dct_coefficient w h channel cx cy) (ac_pairs n) in
  let scale := max_abs ac in
  encodeChannel fuel w h channel n
  = Ok (dct_coefficient w h channel 0 0,
        (if truthy scale then map (fun f => (lit 0.5 + lit 0.5 / scale * f)%js) ac else ac),
        scale).
Proof.
  intros Hn. cbv zeta. rewrite encodeChannel_ok by assumption.
  unfold ac_coefficients. rewrite ac_pairs_indices by lia. reflexivity.
Qed.

Lemma encodeChannel_terms_witness :
  exists dc ac scale,
    @encodeChannel js64 11 2 1 [@of_Z js64 1; @of_Z js64 0] 2 = Ok (dc, ac, scale) /\
    length ac = 2%nat /\ @truthy js64 scale = true.
Proof.
  do 3 eexists. split; [|split].
  - apply (@encodeChannel_terms js64 11 2 1 [@of_Z js64 1; @of_Z js64 0] 2). simpl. lia.
  - vm_compute. reflexivity.
  - vm_compute. reflexivity.
Defined.

(** ** The size of a hash in closed form *)

Lemma tri_rows_length n k : forall lo,
  1 <= lo -> lo + Z.of_nat k <= n ->
  2 * Z.of_nat (length (flat_map (fun cy => map (fun cx => (cx, cy))
                                             (zrange (skip_dc cy) (n - cy)))
                                 (zseq lo k)))
  = Z.of_nat k * (2 * (n - lo) - (Z.of_nat k - 1)).
Proof.
  induction k as [|k IH]; intros lo Hlo Hle; [reflexivity|].
  rewrite zseq_S. cbn [flat_map]. rewrite length_app, length_map.
  unfold zrange at 1. rewrite zseq_length. unfold skip_dc at 1.
  destruct (Z.eqb_spec lo 0); [lia|].
  rewrite Nat2Z.inj_add, Z.mul_add_distr_l, IH by lia. nia.
Qed.

Lemma tri_even n : n * (n + 1) = 2 * (n * (n + 1) / 2).
Proof.
  assert (Hm : (n * (n + 1)) mod 2 = 0).
  { rewrite Z.mul_mod by lia. assert (n mod 2 = 0 \/ n mod 2 = 1) as [Hc | Hc] by zdiv.
    - rewrite Hc. reflexivity.
    - replace ((n + 1) mod 2) with 0 by zdiv. rewrite Z.mul_0_r. reflexivity. }
  zdiv.
Qed.

(** the number of AC terms of a channel with [n] terms: one less than the
    [n]-th triangular number *)
Lemma ac_count_closed n : 1 <= n -> ac_count n = n * (n + 1) / 2 - 1.
Proof.
  intros Hn. unfold ac_count. rewrite ac_pairs_indices by lia.
  unfold ac_indices, tri_indices. rewrite zrange_cons by lia.
  cbn [flat_map]. rewrite length_app, length_map.
  unfold zrange at 1. rewrite zseq_length. change (skip_dc 0) with 1.
  pose proof (tri_rows_length n (Z.to_nat (n - (0 + 1))) (0 + 1) ltac:(lia) ltac:(lia)) as E.
  unfold zrange at 1. rewrite Nat2Z.inj_add.
  set (r := Z.of_nat (length (flat_map _ _))) in *.
  rewrite Z2Nat.id in E by lia.
  assert (Hr : 2 * r = (n - 1) * n) by (rewrite E; ring).
  pose proof (tri_even n) as H2. nia.
Qed.

(** X13. The size of a hash after [configThumbHash]: when
    [configThumbHash(luminanceTerms, chrominanceTerms)] has returned, every
    [rgbaToThumbHash] of an image of at most 100 by 100 returns, and its
    hash has [5 + floor((L(L+1)/2 + C(C+1) - 2) / 2)] bytes for [L]
    luminance and [C] chrominance terms: a channel of [n] terms has
    [n(n+1)/2 - 1] AC terms. *)
Theorem configThumbHash_hash_length {fl : Float64} lt ct cfg w h rgba :
  configThumbHash lt ct = Ok cfg ->
  w <= 100 -> h <= 100 ->
  ac_count lt = lt * (lt + 1) / 2 - 1 /\
  ac_count ct = ct * (ct + 1) / 2 - 1 /\
  exists hash,
    rgbaToThumbHash 11 cfg w h rgba = Ok hash /\
    Z.of_nat (length hash) = 5 + (lt * (lt + 1) / 2 + ct * (ct + 1) - 2) / 2.
Proof.
  intros Hcfg Hw Hh. unfold configThumbHash in Hcfg.
  destruct (Z.ltb_spec lt 1); [discriminate|]. destruct (Z.gtb_spec lt 10); [discriminate|].
  destruct (Z.ltb_spec ct 1); [discriminate|]. destruct (Z.gtb_spec ct 10); [discriminate|].
  cbn [orb] in Hcfg. injection Hcfg as <-.
  pose proof (ac_count_closed lt ltac:(lia)) as EL.
  pose proof (ac_count_closed ct ltac:(lia)) as EC.
  split; [assumption|]. split; [assumption|].
  eexists. split.
  - apply rgbaToThumbHash_ok; cbn [LUMINANCE_TERMS CHROMINANCE_TERMS]; lia.
  - rewrite length_map, pack_length by (cbn [LUMINANCE_TERMS CHROMINANCE_TERMS]; lia).
    unfold totalAc, ceil_half. cbn [LUMINANCE_TERMS CHROMINANCE_TERMS].
    rewrite EL, EC.
    pose proof (tri_even ct) as Hev.
    f_equal. f_equal. lia.
Qed.

Lemma configThumbHash_hash_length_witness :
  ac_count 3 = 3 * (3 + 1) / 2 - 1 /\
  ac_count 3 = 3 * (3 + 1) / 2 - 1 /\
  exists hash,
    @rgbaToThumbHash js64 11 {| LUMINANCE_TERMS := 3; CHROMINANCE_TERMS := 3 |} 1 1
      [10; 20; 30; 255] = Ok hash /\
    Z.of_nat (length hash) = 5 + (3 * (3 + 1) / 2 + 3 * (3 + 1) - 2) / 2.
Proof.
  apply (@configThumbHash_hash_length js64 3 3); [reflexivity | lia | lia].
Defined.

(** ** The pixels thumbHashToRGBA computes *)

Lemma zseq_nth lo k j d :
  (j < k)%nat -> nth j (zseq lo k) d = lo + Z.of_nat j.
Proof.
  intros Hj. unfold zseq. rewrite (nth_indep _ d (lo + Z.of_nat 0)) by (rewrite length_map, length_seq; lia).
  rewrite (map_nth (fun j => lo + Z.of_nat j)), seq_nth by lia. reflexivity.
Qed.

Lemma typed_set_nth_eq {A} (d : A) (a : list A) i v j :
  Z.of_nat j = i -> 0 <= i < Z.of_nat (length a) -> nth j (typed_set a i v) d = v.
Proof.
  intros E Hi. rewrite typed_set_nth.
  destruct (Z.leb_spec 0 i), (Z.ltb_spec i (Z.of_nat (length a))), (Z.eqb_spec (Z.of_nat j) i);
    try lia. reflexivity.
Qed.

Lemma typed_set_nth_ne {A} (d : A) (a : list A) i v j :
  Z.of_nat j <> i -> nth j (typed_set a i v) d = nth j a d.
Proof.
  intros E. rewrite typed_set_nth. destruct (Z.eqb_spec (Z.of_nat j) i); [contradiction|].
  now rewrite andb_false_r.
Qed.

Section Pixels.
Context {fl : Float64}.

(** the table "Precompute the coefficients" builds for position [t] of a
    side of [size] pixels: [n] cosines *)
Definition cos_row (n size t : Z) : list num :=
  map (fun c => Math_cos (PI / of_Z size * (of_Z t + lit 0.5) * of_Z c)%js) (zrange 0 n).

Lemma fill_cos_row n size t f0 :
  Z.of_nat (length f0) <= n -> fill_cos n size t f0 = cos_row n size t.
Proof.
  intros Hlen. unfold fill_cos, cos_row, for_range. rewrite Z.sub_0_r.
  destruct (fill_spec NaN (fun c => Math_cos (PI / of_Z size * (of_Z t + lit 0.5) * of_Z c)%js)
              (Z.to_nat n) f0) as [Hl Hg].
  cbv zeta in Hl, Hg. unfold zrange. rewrite Z.sub_0_r.
  set (r := iter_from _ _ _ _) in *.
  apply (nth_ext _ _ NaN NaN).
  - rewrite Hl, length_map, zseq_length. lia.
  - intros j Hj. rewrite Hl in Hj.
    assert (Hj' : (j < Z.to_nat n)%nat) by lia.
    specialize (Hg (Z.of_nat j) ltac:(lia)). unfold arr_get in Hg.
    destruct (Z.ltb_spec (Z.of_nat j) 0); [lia|]. rewrite Nat2Z.id in Hg. rewrite Hg.
    destruct (Z.ltb_spec (Z.of_nat j) (Z.of_nat (Z.to_nat n))); [|lia].
    rewrite (nth_indep _ NaN
               (Math_cos (PI / of_Z size * (of_Z t + lit 0.5) * of_Z 0)%js))
      by (rewrite length_map, zseq_length; lia).
    rewrite (map_nth (fun c => Math_cos (PI / of_Z size * (of_Z t + lit 0.5) * of_Z c)%js)).
    rewrite zseq_nth by lia. reflexivity.
Qed.

Lemma cos_row_length n size t : Z.of_nat (length (cos_row n size t)) = Z.max 0 n.
Proof. unfold cos_row, zrange. rewrite length_map, zseq_length. lia. Qed.

(** the sums "Decode L" and "Decode P and Q" take at pixel [(x, y)]: the
    term of rank [j] of a channel times the cosines of the [j]-th index of
    the enumeration, read in the tables of the [LUMINANCE_TERMS] cosines (an
    index past a table reads [undefined]) *)
Definition pixel_l (cfg : config) (hd : header) (l_ac : list num) (x y : Z) : num :=
  let fx := cos_row (LUMINANCE_TERMS cfg) 32 x in
  let fy := cos_row (LUMINANCE_TERMS cfg) 32 y in
  fold_left
    (fun l ji =>
       let '(cx, cy) := snd ji in
       (l + arr_get NaN l_ac (fst ji) * arr_get NaN fx cx * (arr_get NaN fy cy * of_Z 2))%js)
    (combine (zrange 0 (ac_count (LUMINANCE_TERMS cfg))) (ac_pairs (LUMINANCE_TERMS cfg)))
    (l_dc hd).

Definition pixel_pq (cfg : config) (hd : header) (p_ac q_ac : list num) (x y : Z)
  : num * num :=
  let fx := cos_row (LUMINANCE_TERMS cfg) 32 x in
  let fy := cos_row (LUMINANCE_TERMS cfg) 32 y in
  fold_left
    (fun pq ji =>
       let '(cx, cy) := snd ji in
       let f := (arr_get NaN fx cx * (arr_get NaN fy cy * of_Z 2))%js in
       ((fst pq + arr_get NaN p_ac (fst ji) * f)%js,
        (snd pq + arr_get NaN q_ac (fst ji) * f)%js))
    (combine (zrange 0 (ac_count (CHROMINANCE_TERMS cfg))) (ac_pairs (CHROMINANCE_TERMS cfg)))
    (p_dc hd, q_dc hd).

(** the four samples of pixel [(x, y)] *)
Definition pixel_samples (cfg : config) (hd : header) (l_ac p_ac q_ac : list num)
  (x y : Z) : list Z :=
  let l := pixel_l cfg hd l_ac x y in
  let pq := pixel_pq cfg hd p_ac q_ac x y in
  let '(r, g, b) := fromLPQ l (fst pq) (snd pq) in
  [to_sample r; to_sample g; to_sample b; 255].

Lemma decode_pixel_spec fuel cfg hd l_ac p_ac q_ac x y fx0 fy0 :
  0 < LUMINANCE_TERMS cfg < Z.of_nat fuel -> 0 < CHROMINANCE_TERMS cfg < Z.of_nat fuel ->
  Z.of_nat (length fx0) <= LUMINANCE_TERMS cfg ->
  Z.of_nat (length fy0) <= LUMINANCE_TERMS cfg ->
  let l := pixel_l cfg hd l_ac x y in
  let pq := pixel_pq cfg hd p_ac q_ac x y in
  decode_pixel fuel cfg hd l_ac p_ac q_ac 32 32 x y fx0 fy0
  = (let '(r, g, b) := fromLPQ l (fst pq) (snd pq) in
     Ok (r, g, b, cos_row (LUMINANCE_TERMS cfg) 32 x, cos_row (LUMINANCE_TERMS cfg) 32 y)).
Proof.
  intros HL HC Hfx Hfy. cbv zeta. unfold decode_pixel. cbv zeta.
  rewrite !fill_cos_row by assumption.
  rewrite decode_L_order by assumption. cbn [bind].
  rewrite decode_PQ_order by assumption. cbn [bind].
  fold (pixel_l cfg hd l_ac x y). fold (pixel_pq cfg hd p_ac q_ac x y).
  destruct (pixel_pq cfg hd p_ac q_ac x y) as [p q]. cbn [fst snd].
  destruct (fromLPQ _ p q) as [[r g] b]. reflexivity.
Qed.


(** the raster after [k] pixels *)
Definition pixels_inv (cfg : config) (hd : header) (l_ac p_ac q_ac : list num)
  (k : Z) (s : px_state) : Prop :=
  px_i s = 4 * k /\ length (px_rgba s) = 4096%nat /\
  Z.of_nat (length (px_fx s)) <= LUMINANCE_TERMS cfg /\
  Z.of_nat (length (px_fy s)) <= LUMINANCE_TERMS cfg /\
  forall j c, 0 <= j < k -> 0 <= c < 4 ->
    nth (Z.to_nat (4 * j + c)) (px_rgba s) 0
    = nth (Z.to_nat c) (pixel_samples cfg hd l_ac p_ac q_ac (j mod 32) (j / 32)) 0.

Lemma pixel_step_pixels fuel cfg hd l_ac p_ac q_ac y x s :
  0 < LUMINANCE_TERMS cfg < Z.of_nat fuel -> 0 < CHROMINANCE_TERMS cfg < Z.of_nat fuel ->
  0 <= x < 32 -> 0 <= y < 32 ->
  pixels_inv cfg hd l_ac p_ac q_ac (32 * y + x) s ->
  exists s', pixel_step fuel cfg hd l_ac p_ac q_ac 32 32 y x s = Ok s' /\
             pixels_inv cfg hd l_ac p_ac q_ac (32 * y + x + 1) s'.
Proof.
  intros HL HC Hx Hy (Hi & Hlen & Hfx & Hfy & Hs). unfold pixel_step.
  rewrite decode_pixel_spec by assumption.
  pose proof (eq_refl : pixel_samples cfg hd l_ac p_ac q_ac x y = _) as Epx.
  unfold pixel_samples at 2 in Epx. cbv zeta in Epx.
  destruct (fromLPQ _ _ _) as [[r g] b]. cbn [bind].
  eexists. split; [reflexivity|]. unfold pixels_inv. cbn [px_i px_rgba px_fx px_fy].
  rewrite !cos_row_length.
  split; [lia|]. split; [now rewrite !typed_set_length|]. split; [lia|]. split; [lia|].
  intros j c Hj Hc. rewrite Hi.
  destruct (Z.eq_dec j (32 * y + x)) as [-> | Hne].
  - replace ((32 * y + x) mod 32) with x by zdiv.
    replace ((32 * y + x) / 32) with y by zdiv. rewrite Epx.
    assert (Hcc : c = 0 \/ c = 1 \/ c = 2 \/ c = 3) by lia.
    destruct Hcc as [-> | [-> | [-> | ->]]];
      repeat first [ rewrite typed_set_nth_ne by lia
                   | rewrite typed_set_nth_eq by (rewrite ?typed_set_length; lia) ];
      reflexivity.
  - repeat rewrite typed_set_nth_ne by lia. apply Hs; lia.
Qed.

End Pixels.

Lemma read_terms_ok {fl : Float64} (fuel : nat) cfg hash :
  LUMINANCE_TERMS cfg < Z.of_nat fuel -> CHROMINANCE_TERMS cfg < Z.of_nat fuel ->
  exists t, read_terms fuel cfg hash = Ok t.
Proof.
  intros HL HC. unfold read_terms.
  destruct (decodeChannel_ok fuel hash (LUMINANCE_TERMS cfg) (l_scale (read_header hash)) 0)
    as (l_ac & i1 & ->); [lia|]. cbn [bind].
  destruct (decodeChannel_ok fuel hash (CHROMINANCE_TERMS cfg)
              (p_scale (read_header hash) * lit 1.25)%js i1) as (p_ac & i2 & ->); [lia|].
  cbn [bind].
  destruct (decodeChannel_ok fuel hash (CHROMINANCE_TERMS cfg)
              (q_scale (read_header hash) * lit 1.25)%js i2) as (q_ac & i3 & ->); [lia|].
  cbn [bind]. eexists. reflexivity.
Qed.

(** the raster, from the terms read *)
Lemma raster_of_terms {fl : Float64} (fuel : nat) cfg hash hd l_ac p_ac q_ac :
  0 < LUMINANCE_TERMS cfg < Z.of_nat fuel -> 0 < CHROMINANCE_TERMS cfg < Z.of_nat fuel ->
  read_terms fuel cfg hash = Ok (hd, l_ac, p_ac, q_ac) ->
  exists img,
    thumbHashToRGBA fuel cfg hash = Ok img /\
    forall x y c, 0 <= x < 32 -> 0 <= y < 32 -> 0 <= c < 4 ->
      nth (Z.to_nat (4 * (x + y * 32) + c)) (img_rgba img) 0
      = nth (Z.to_nat c) (pixel_samples cfg hd l_ac p_ac q_ac x y) 0.
Proof.
  intros HL' HC' Hr. unfold thumbHashToRGBA. rewrite Hr. cbn [bind].
  unfold for_rangeM at 1.
  match goal with |- context [iter_fromM ?k 0 ?body ?s0] =>
    destruct (iter_fromM_inv (fun y s => pixels_inv cfg hd l_ac p_ac q_ac (32 * y) s) body k 0 s0)
      as (s' & E & (Hi & Hlen & _ & _ & Hs))
  end.
  - unfold pixels_inv. cbn [px_i px_rgba px_fx px_fy length].
    repeat split; try reflexivity; try lia.
  - intros y s Hy Hinv. unfold for_rangeM.
    match goal with |- context [iter_fromM ?k 0 ?body s] =>
      destruct (iter_fromM_inv (fun x s => pixels_inv cfg hd l_ac p_ac q_ac (32 * y + x) s)
                  body k 0 s) as (s1 & E1 & H1)
    end.
    + now rewrite Z.add_0_r.
    + intros x s1 Hx Hs1.
      destruct (pixel_step_pixels fuel cfg hd l_ac p_ac q_ac y x s1 HL' HC')
        as (s2 & E2 & H2); [lia | lia | assumption |].
      exists s2. split; [assumption|]. now rewrite Z.add_assoc.
    + exists s1. split; [assumption|].
      replace (32 * (y + 1)) with (32 * y + (0 + Z.of_nat (Z.to_nat (32 - 0)))) by lia.
      assumption.
  - rewrite E. cbn [bind]. eexists. split; [reflexivity|].
    cbn [img_rgba]. intros x y c Hx Hy Hc.
    rewrite (Hs (x + y * 32) c) by lia.
    replace ((x + y * 32) mod 32) with x by zdiv.
    replace ((x + y * 32) / 32) with y by zdiv. reflexivity.
Qed.

(** X4. The raster [thumbHashToRGBA] returns, pixel by pixel: the four
    samples of pixel [(x, y)] are [to_sample] of the red, green and blue
    [fromLPQ] gives for the sums of the three channels at [(x, y)], and 255.
    A sum starts from the channel's DC field and adds, for the term of rank
    [j], [ac[j] * fx[cx] * (fy[cy] * 2)] with [(cx, cy)] the [j]-th index of
    the enumeration, [fx] and [fy] holding [LUMINANCE_TERMS] cosines
    [cos(pi / 32 * (t + 0.5) * c)]; the tables kept from one pixel to the
    next do not change a result.  It holds for any hash, of any length. *)
Theorem thumbHashToRGBA_pixels {fl : Float64} (fuel : nat) cfg hash :
  1 <= LUMINANCE_TERMS cfg <= 10 -> 1 <= CHROMINANCE_TERMS cfg <= 10 ->
  (10 < fuel)%nat ->
  exists hd l_ac p_ac q_ac img,
    read_terms fuel cfg hash = Ok (hd, l_ac, p_ac, q_ac) /\
    thumbHashToRGBA fuel cfg hash = Ok img /\
    forall x y c, 0 <= x < 32 -> 0 <= y < 32 -> 0 <= c < 4 ->
      nth (Z.to_nat (4 * (x + y * 32) + c)) (img_rgba img) 0
      = nth (Z.to_nat c) (pixel_samples cfg hd l_ac p_ac q_ac x y) 0.
Proof.
  intros HL HC Hfuel.
  destruct (read_terms_ok fuel cfg hash) as ([[[hd l_ac] p_ac] q_ac] & Hr); [lia | lia |].
  destruct (raster_of_terms fuel cfg hash hd l_ac p_ac q_ac) as (img & E & Hp);
    [lia | lia | assumption |].
  now exists hd, l_ac, p_ac, q_ac, img.
Qed.

Lemma thumbHashToRGBA_pixels_witness :
  exists hd l_ac p_ac q_ac img,
    @read_terms js64 11 default_config [148; 155; 42; 240; 40; 255; 15]
    = Ok (hd, l_ac, p_ac, q_ac) /\
    @thumbHashToRGBA js64 11 default_config [148; 155; 42; 240; 40; 255; 15] = Ok img /\
    forall x y c, 0 <= x < 32 -> 0 <= y < 32 -> 0 <= c < 4 ->
      nth (Z.to_nat (4 * (x + y * 32) + c)) (img_rgba img) 0
      = nth (Z.to_nat c) (pixel_samples default_config hd l_ac p_ac q_ac x y) 0.
Proof.
  apply (@thumbHashToRGBA_pixels js64 11 default_config [148; 155; 42; 240; 40; 255; 15]);
    simpl; lia.
Defined.

(** X8. Encoding then decoding under one configuration: when the values the
    encoder rounded fit their bits, the raster [thumbHashToRGBA] returns for
    the hash of [rgbaToThumbHash] has, at every pixel, the samples computed
    from the quantized terms of the image, dequantized. *)
Theorem decode_of_encode_pixels {fl : Float64} (fuel : nat) cfg w h rgba :
  w <= 100 -> h <= 100 ->
  1 <= LUMINANCE_TERMS cfg <= 10 -> 1 <= CHROMINANCE_TERMS cfg <= 10 ->
  (10 < fuel)%nat ->
  fits (quantize cfg w h rgba) = true ->
  exists hash img,
    rgbaToThumbHash fuel cfg w h rgba = Ok hash /\
    thumbHashToRGBA fuel cfg hash = Ok img /\
    forall x y c, 0 <= x < 32 -> 0 <= y < 32 -> 0 <= c < 4 ->
      nth (Z.to_nat (4 * (x + y * 32) + c)) (img_rgba img) 0
      = let '(hd, l_ac, p_ac, q_ac) := dequantized (quantize cfg w h rgba) in
        nth (Z.to_nat c) (pixel_samples cfg hd l_ac p_ac q_ac x y) 0.
Proof.
  intros Hw Hh HL HC Hfuel Hfit.
  destruct (encoded_hash_terms fuel cfg w h rgba Hw Hh HL HC Hfuel Hfit)
    as (hash & E & _ & _ & R & _).
  destruct (dequantized (quantize cfg w h rgba)) as [[[hd l_ac] p_ac] q_ac].
  destruct (raster_of_terms fuel cfg hash hd l_ac p_ac q_ac) as (img & Ei & Hp);
    [lia | lia | assumption |].
  now exists hash, img.
Qed.

Lemma decode_of_encode_pixels_witness :
  exists hash img,
    @rgbaToThumbHash js64 11 reference_config 2 1 [255; 0; 0; 255; 0; 0; 255; 255] = Ok hash /\
    @thumbHashToRGBA js64 11 reference_config hash = Ok img /\
    forall x y c, 0 <= x < 32 -> 0 <= y < 32 -> 0 <= c < 4 ->
      nth (Z.to_nat (4 * (x + y * 32) + c)) (img_rgba img) 0
      = let '(hd, l_ac, p_ac, q_ac) :=
          dequantized (@quantize js64 reference_config 2 1 [255; 0; 0; 255; 0; 0; 255; 255]) in
        nth (Z.to_nat c) (@pixel_samples js64 reference_config hd l_ac p_ac q_ac x y) 0.
Proof.
  apply (@decode_of_encode_pixels js64 11 reference_config 2 1
           [255; 0; 0; 255; 0; 0; 255; 255]); try (simpl; lia).
  vm_compute. reflexivity.
Defined.


(** * Binary64 arithmetic: the standard model

    What the numeric properties of the codec rest on.  Every law below is a
    fact of IEEE-754 binary64 arithmetic with rounding to nearest (unit
    roundoff [2^-53], half the least subnormal [2^-1075]) and of the
    ECMAScript definitions of [Math.round], [Math.abs], [Math.max] and
    [Math.min];
    [Math.cos] is only asked to stay in [-1, 1] and to be 1 at zero. *)

Definition eps : Q := 1 # (2 ^ 53).
Definition eta : Q := 1 # (2 ^ 1075).
Definition big : Q := inject_Z (2 ^ 1023).

(** [c] is the correctly rounded [v]: within [eps * |v|] of it (plus [eta]
    where the operation can underflow), or an infinity when [v] is out of
    range *)
Definition rounded (underflow : bool) (c : fclass) (v : Q) : Prop :=
  match c with
  | FNum z =>
      forall M, (- M <= v <= M)%Q ->
                (- (eps * M + (if underflow then eta else 0)) <= z - v
                 <= eps * M + (if underflow then eta else 0))%Q
  | FInf _ => (big <= v \/ v <= - big)%Q
  | FNaN => False
  end.

Definition is_num (c : fclass) (q : Q) : Prop :=
  match c with FNum z => (z == q)%Q | _ => False end.

Definition not_num (c : fclass) : Prop :=
  match c with FNum _ => False | _ => True end.

(** [Math.max] on classified numbers *)
Definition max_spec (ca cb cm : fclass) : Prop :=
  match ca, cb with
  | FNaN, _ | _, FNaN => cm = FNaN
  | FInf false, _ | _, FInf false => cm = FInf false
  | FInf true, FInf true => cm = FInf true
  | FInf true, FNum y => is_num cm y
  | FNum x, FInf true => is_num cm x
  | FNum x, FNum y => is_num cm (if Qle_bool x y then y else x)
  end.

(** [Math.min] on classified numbers *)
Definition min_spec (ca cb cm : fclass) : Prop :=
  match ca, cb with
  | FNaN, _ | _, FNaN => cm = FNaN
  | FInf true, _ | _, FInf true => cm = FInf true
  | FInf false, FInf false => cm = FInf false
  | FInf false, FNum y => is_num cm y
  | FNum x, FInf false => is_num cm x
  | FNum x, FNum y => is_num cm (if Qle_bool x y then x else y)
  end.

Definition abs_spec (ca cm : fclass) : Prop :=
  match ca with
  | FNum x => is_num cm (Qabs x)
  | FInf _ => cm = FInf false
  | FNaN => cm = FNaN
  end.

Definition round_spec (ca cm : fclass) : Prop :=
  match ca with
  | FNum x => is_num cm (inject_Z (Qfloor (x + (1 # 2))))
  | _ => not_num cm
  end.

Section Model.
Context {fl : Float64}.

(** [x] is a finite number of value [q] *)
Definition val (x : num) (q : Q) : Prop := is_num (classify x) q.

Definition nonfinite (x : num) : Prop := not_num (classify x).

Record IEEEModel : Prop := {
  m_of_Z : forall z, Z.abs z <= 2 ^ 53 -> val (of_Z z) (inject_Z z);
  m_lit : forall q m e,
      Z.abs m <= 2 ^ 53 -> 0 <= e <= 1022 ->
      (q == inject_Z m / inject_Z (2 ^ e))%Q -> val (lit q) q;
  m_PI : exists p, val PI p /\ (3 <= p <= 4)%Q;
  m_add : forall a b x y, val a x -> val b y -> rounded false (classify (a + b)%js) (x + y);
  m_sub : forall a b x y, val a x -> val b y -> rounded false (classify (a - b)%js) (x - y);
  m_mul : forall a b x y, val a x -> val b y -> rounded true (classify (a * b)%js) (x * y);
  m_mul_0 : forall a b x y, val a x -> val b y -> (x * y == 0)%Q -> val (a * b)%js 0;
  m_div : forall a b x y,
      val a x -> val b y -> ~ (y == 0)%Q -> rounded true (classify (a / b)%js) (x / y);
  m_div_same : forall a b x, val a x -> val b x -> ~ (x == 0)%Q -> val (a / b)%js 1;
  m_div_zero : forall a b y, val a 0 -> val b y -> ~ (y == 0)%Q -> val (a / b)%js 0;
  m_div_0_0 : forall a b, val a 0 -> val b 0 -> classify (a / b)%js = FNaN;
  m_NaN : classify NaN = FNaN;
  m_add_nonfinite : forall a b, nonfinite a \/ nonfinite b -> nonfinite (a + b)%js;
  m_sub_nonfinite : forall a b, nonfinite a \/ nonfinite b -> nonfinite (a - b)%js;
  m_mul_nonfinite : forall a b, nonfinite a \/ nonfinite b -> nonfinite (a * b)%js;
  m_div_nonfinite : forall a b, nonfinite a -> nonfinite (a / b)%js;
  m_abs : forall a, abs_spec (classify a) (classify (Math_abs a));
  m_max : forall a b, max_spec (classify a) (classify b) (classify (Math_max a b));
  m_min : forall a b, min_spec (classify a) (classify b) (classify (Math_min a b));
  m_round : forall a, round_spec (classify a) (classify (Math_round a));
  m_cos : forall a x,
      val a x ->
      exists c, val (Math_cos a) c /\ (- 1 <= c <= 1)%Q /\ ((x == 0)%Q -> (c == 1)%Q)
}.

End Model.

(** ** Exact arithmetic satisfies the model

    The interface on the rationals extended with the infinities and NaN:
    every operation is exact, and a rational function stands for the
    cosine. *)

Module Exact.

Definition sign (q : Q) : bool := if Qlt_le_dec q 0 then true else false.

Definition add (a b : fclass) : fclass :=
  match a, b with
  | FNaN, _ | _, FNaN => FNaN
  | FNum x, FNum y => FNum (x + y)
  | FInf s, FNum _ | FNum _, FInf s => FInf s
  | FInf s, FInf t => if Bool.eqb s t then FInf s else FNaN
  end.

Definition opp (a : fclass) : fclass :=
  match a with FNum x => FNum (- x) | FInf s => FInf (negb s) | FNaN => FNaN end.

Definition sub (a b : fclass) : fclass := add a (opp b).

Definition mul (a b : fclass) : fclass :=
  match a, b with
  | FNaN, _ | _, FNaN => FNaN
  | FNum x, FNum y => FNum (x * y)
  | FInf s, FNum y | FNum y, FInf s =>
      if Qeq_bool y 0 then FNaN else FInf (xorb s (sign y))
  | FInf s, FInf t => FInf (xorb s t)
  end.

Definition div (a b : fclass) : fclass :=
  match a, b with
  | FNaN, _ | _, FNaN => FNaN
  | FNum x, FNum y =>
      if Qeq_bool y 0 then (if Qeq_bool x 0 then FNaN else FInf (sign x))
      else FNum (x / y)
  | FInf s, FNum y => FInf (xorb s (sign y))
  | FNum _, FInf _ => FNum 0
  | FInf _, FInf _ => FNaN
  end.

Definition abs (a : fclass) : fclass :=
  match a with FNum x => FNum (Qabs x) | FInf _ => FInf false | FNaN => FNaN end.

Definition max (a b : fclass) : fclass :=
  match a, b with
  | FNaN, _ | _, FNaN => FNaN
  | FInf false, _ | _, FInf false => FInf false
  | FInf true, c | c, FInf true => c
  | FNum x, FNum y => FNum (if Qle_bool x y then y else x)
  end.

Definition min (a b : fclass) : fclass :=
  match a, b with
  | FNaN, _ | _, FNaN => FNaN
  | FInf true, _ | _, FInf true => FInf true
  | FInf false, c | c, FInf false => c
  | FNum x, FNum y => FNum (if Qle_bool x y then x else y)
  end.

Definition round (a : fclass) : fclass :=
  match a with FNum x => FNum (inject_Z (Qfloor (x + (1 # 2)))) | c => c end.

(** stands for the cosine: 1 at zero, within [-1, 1] everywhere *)
Definition cos (a : fclass) : fclass :=
  match a with
  | FNum x => FNum ((1 - x * x) / (1 + x * x))
  | _ => FNaN
  end.

End Exact.

Definition exact : Float64 :=
  {| num := fclass;
     classify := fun c => c;
     of_Z := fun z => FNum (inject_Z z);
     lit := FNum;
     NaN := FNaN;
     PI := FNum (355 # 113);
     add := Exact.add;
     sub := Exact.sub;
     mul := Exact.mul;
     div := Exact.div;
     Math_abs := Exact.abs;
     Math_max := Exact.max;
     Math_min := Exact.min;
     Math_cos := Exact.cos;
     Math_round := Exact.round |}.

Lemma eps_pos : (0 < eps)%Q.
Proof. reflexivity. Qed.

Lemma eta_pos : (0 < eta)%Q.
Proof. reflexivity. Qed.

Lemma rounded_exact underflow z v : (z == v)%Q -> rounded underflow (FNum z) v.
Proof.
  intros E M HM. pose proof eps_pos. pose proof eta_pos.
  assert (0 <= M)%Q by lra.
  assert (0 <= eps * M)%Q by (apply Qmult_le_0_compat; lra).
  destruct underflow; lra.
Qed.

Lemma exact_model : @IEEEModel exact.
Proof.
  constructor; unfold val, nonfinite; cbn [classify exact of_Z lit NaN PI add sub mul div
                     Math_abs Math_max Math_min Math_cos Math_round].
  - intros z _. simpl. reflexivity.
  - intros q m e _ _ _. simpl. reflexivity.
  - exists (355 # 113). split; [simpl; reflexivity|]. split; [discriminate | discriminate].
  - intros [x'| |] [y'| |] x y Hx Hy; cbn [is_num] in Hx, Hy; try contradiction.
    cbn [Exact.add]. apply rounded_exact. now rewrite Hx, Hy.
  - intros [x'| |] [y'| |] x y Hx Hy; cbn [is_num] in Hx, Hy; try contradiction.
    cbn [Exact.sub Exact.add Exact.opp]. apply rounded_exact. rewrite Hx, Hy. ring.
  - intros [x'| |] [y'| |] x y Hx Hy; cbn [is_num] in Hx, Hy; try contradiction.
    cbn [Exact.mul]. apply rounded_exact. now rewrite Hx, Hy.
  - intros [x'| |] [y'| |] x y Hx Hy; cbn [is_num] in Hx, Hy; try contradiction.
    intros E. cbn [Exact.mul is_num]. now rewrite Hx, Hy.
  - intros [x'| |] [y'| |] x y Hx Hy; cbn [is_num] in Hx, Hy; try contradiction.
    intros Hne. cbn [Exact.div].
    destruct (Qeq_bool y' 0) eqn:E0.
    + apply Qeq_bool_eq in E0. rewrite Hy in E0. contradiction.
    + apply rounded_exact. now rewrite Hx, Hy.
  - intros [x'| |] [y'| |] x Hx Hy; cbn [is_num] in Hx, Hy; try contradiction.
    intros Hne. cbn [Exact.div].
    destruct (Qeq_bool y' 0) eqn:E0.
    + apply Qeq_bool_eq in E0. rewrite Hy in E0. contradiction.
    + cbn [is_num]. rewrite Hx, Hy. field. assumption.
  - intros [x'| |] [y'| |] y Hx Hy; cbn [is_num] in Hx, Hy; try contradiction.
    intros Hne. cbn [Exact.div].
    destruct (Qeq_bool y' 0) eqn:E0.
    + apply Qeq_bool_eq in E0. rewrite Hy in E0. contradiction.
    + cbn [is_num]. rewrite Hx. unfold Qdiv. ring.
  - intros [x'| |] [y'| |] Hx Hy; cbn [is_num] in Hx, Hy; try contradiction.
    cbn [Exact.div].
    assert (E1 : Qeq_bool y' 0 = true) by (apply Qeq_bool_iff; assumption).
    assert (E2 : Qeq_bool x' 0 = true) by (apply Qeq_bool_iff; assumption).
    rewrite E1, E2. reflexivity.
  - reflexivity.
  - intros [x| |] [y| |] [H|H]; cbn [not_num Exact.add] in *; try contradiction; auto.
    all: match goal with |- context [Bool.eqb ?s ?t] => destruct (Bool.eqb s t) end;
      cbn [not_num]; auto.
  - intros [x| |] [y| |] [H|H]; cbn [not_num Exact.sub Exact.add Exact.opp] in *;
      try contradiction; auto.
    all: match goal with |- context [Bool.eqb ?s ?t] => destruct (Bool.eqb s t) end;
      cbn [not_num]; auto.
  - intros [x| |] [y| |] [H|H]; cbn [not_num Exact.mul] in *; try contradiction; auto.
    all: match goal with |- context [Qeq_bool ?s ?t] => destruct (Qeq_bool s t) end;
      cbn [not_num]; auto.
  - intros [x| |] [y| |] H; cbn [not_num Exact.div] in *; try contradiction; auto.
  - intros [x| |]; cbn [abs_spec Exact.abs is_num]; reflexivity.
  - intros [x| [|]|] [y| [|]|]; cbn [max_spec Exact.max is_num]; reflexivity.
  - intros [x| [|]|] [y| [|]|]; cbn [min_spec Exact.min is_num]; reflexivity.
  - intros [x| |]; cbn [round_spec Exact.round is_num not_num]; auto. reflexivity.
  - intros [x'| |] x Hx; cbn [is_num] in Hx; try contradiction.
    exists ((1 - x' * x') / (1 + x' * x'))%Q. split; [cbn [Exact.cos is_num]; reflexivity|].
    assert (Hsq : (0 <= x' * x')%Q) by nra.
    assert (Hpos : (0 < 1 + x' * x')%Q) by lra.
    split; [split|].
    + apply Qle_shift_div_l; [assumption|]. lra.
    + apply Qle_shift_div_r; [assumption|]. lra.
    + intros E. assert (E' : (x' == 0)%Q) by (now rewrite Hx). rewrite E'. reflexivity.
Qed.

(** ** Consequences of the model for numbers of moderate size *)

(** the bound under which every operation of the codec stays, and the
    absolute error of one operation under it *)
Definition bound : Q := 16384.
Definition err : Q := Eval cbv in 1 # (2 ^ 38).

Lemma K_lt_big : (bound < big)%Q.
Proof. reflexivity. Qed.

Lemma rounded_fin underflow c v :
  rounded underflow c v -> (- bound <= v <= bound)%Q ->
  exists z, c = FNum z /\ (- err <= z - v <= err)%Q.
Proof.
  intros H Hv. destruct c as [z| |]; cbn [rounded] in H.
  - exists z. split; [reflexivity|]. specialize (H bound Hv).
    assert (E : (eps * bound + (if underflow then eta else 0) <= err)%Q).
    { destruct underflow; unfold eps, eta, bound, err; discriminate. }
    lra.
  - pose proof K_lt_big. destruct H; lra.
  - contradiction.
Qed.

Lemma Qtrunc_int r n : (r == inject_Z n)%Q -> Qtrunc r = n.
Proof.
  unfold Qeq, Qtrunc. cbn [Qnum Qden inject_Z]. intros E. rewrite Z.mul_1_r in E.
  rewrite E. apply Z.quot_mul. discriminate.
Qed.

Section Arith.
Context {fl : Float64}.
Hypothesis model : IEEEModel.

(** [x] is finite and [z] is its value *)
Definition fin (x : num) (z : Q) : Prop := classify x = FNum z.

Lemma fin_val x z : fin x z -> val x z.
Proof. unfold fin, val. intros ->. simpl. reflexivity. Qed.

Lemma val_fin x q : val x q -> exists z, fin x z /\ (z == q)%Q.
Proof.
  unfold fin, val. destruct (classify x) as [z| |]; simpl; try contradiction.
  intros E. now exists z.
Qed.

Lemma fin_inj x z z' : fin x z -> fin x z' -> z = z'.
Proof. unfold fin. intros -> E. now injection E. Qed.

Lemma fin_of_Z z : Z.abs z <= 2 ^ 53 -> exists q, fin (of_Z z) q /\ (q == inject_Z z)%Q.
Proof. intros H. apply val_fin. now apply (m_of_Z model). Qed.

Lemma fin_lit q m e :
  Z.abs m <= 2 ^ 53 -> 0 <= e <= 1022 -> (q == inject_Z m / inject_Z (2 ^ e))%Q ->
  exists z, fin (lit q) z /\ (z == q)%Q.
Proof. intros Hm He E. apply val_fin. now apply (m_lit model q m e). Qed.

Lemma fin_add a b x y :
  fin a x -> fin b y -> (- bound <= x + y <= bound)%Q ->
  exists z, fin (a + b)%js z /\ (- err <= z - (x + y) <= err)%Q.
Proof.
  intros Ha Hb Hv.
  apply (rounded_fin false); [|assumption].
  apply (m_add model); now apply fin_val.
Qed.

Lemma fin_sub a b x y :
  fin a x -> fin b y -> (- bound <= x - y <= bound)%Q ->
  exists z, fin (a - b)%js z /\ (- err <= z - (x - y) <= err)%Q.
Proof.
  intros Ha Hb Hv.
  apply (rounded_fin false); [|assumption].
  apply (m_sub model); now apply fin_val.
Qed.

Lemma fin_mul a b x y :
  fin a x -> fin b y -> (- bound <= x * y <= bound)%Q ->
  exists z, fin (a * b)%js z /\ (- err <= z - x * y <= err)%Q.
Proof.
  intros Ha Hb Hv.
  apply (rounded_fin true); [|assumption].
  apply (m_mul model); now apply fin_val.
Qed.

Lemma fin_div a b x y :
  fin a x -> fin b y -> ~ (y == 0)%Q -> (- bound <= x / y <= bound)%Q ->
  exists z, fin (a / b)%js z /\ (- err <= z - x / y <= err)%Q.
Proof.
  intros Ha Hb Hy Hv.
  apply (rounded_fin true); [|assumption].
  apply (m_div model); try assumption; now apply fin_val.
Qed.

Lemma fin_mul_0 a b x y :
  fin a x -> fin b y -> (x * y == 0)%Q -> exists z, fin (a * b)%js z /\ (z == 0)%Q.
Proof.
  intros Ha Hb E. apply val_fin. apply (m_mul_0 model a b x y); try assumption;
    now apply fin_val.
Qed.

Lemma fin_cos a x :
  fin a x ->
  exists c, fin (Math_cos a) c /\ (- 1 <= c <= 1)%Q /\ ((x == 0)%Q -> (c == 1)%Q).
Proof.
  intros Ha. destruct (m_cos model a x (fin_val a x Ha)) as (c & Hc & Hb & H0).
  destruct (val_fin _ _ Hc) as (z & Hz & E). exists z. split; [assumption|].
  split; [lra|]. intros E0. rewrite E. now apply H0.
Qed.

Lemma fin_abs a x : fin a x -> exists z, fin (Math_abs a) z /\ (z == Qabs x)%Q.
Proof.
  intros Ha. pose proof (m_abs model a) as H. rewrite Ha in H. cbn [abs_spec] in H.
  now apply val_fin.
Qed.

Lemma fin_max a b x y :
  fin a x -> fin b y ->
  exists z, fin (Math_max a b) z /\ (x <= z)%Q /\ (y <= z)%Q /\ ((z == x)%Q \/ (z == y)%Q).
Proof.
  intros Ha Hb. pose proof (m_max model a b) as H. rewrite Ha, Hb in H.
  cbn [max_spec] in H. destruct (val_fin _ _ H) as (z & Hz & E). exists z.
  split; [assumption|].
  destruct (Qle_bool x y) eqn:El.
  - apply Qle_bool_iff in El. split; [lra|]. split; [lra|]. now right.
  - assert (Hlt : (y < x)%Q).
    { apply Qnot_le_lt. intros Hle. apply Qle_bool_iff in Hle. congruence. }
    split; [lra|]. split; [lra|]. now left.
Qed.

(** [round(x)] as an operand of a bitwise operator *)
Lemma round_int_fin x z :
  fin x z -> (- inject_Z (2 ^ 31) <= z < inject_Z (2 ^ 31) - 1)%Q ->
  round_int x = Qfloor (z + (1 # 2)).
Proof.
  intros Hx Hz. unfold round_int, ToInt32.
  pose proof (m_round model x) as H. rewrite Hx in H. cbn [round_spec] in H.
  destruct (val_fin _ _ H) as (r & Hr & E). unfold fin in Hr. rewrite Hr.
  rewrite (Qtrunc_int r _ E). apply ToInt32_id.
  assert (H1 : (inject_Z (Qfloor (z + (1 # 2))) <= z + (1 # 2))%Q) by apply Qfloor_le.
  assert (H2 : (z + (1 # 2) < inject_Z (Qfloor (z + (1 # 2)) + 1))%Q) by apply Qlt_floor.
  rewrite inject_Z_plus in H2.
  split.
  - apply Z.lt_succ_r. rewrite Zlt_Qlt. unfold Z.succ. rewrite inject_Z_plus.
    rewrite inject_Z_opp. change (inject_Z 1) with 1%Q in *. lra.
  - rewrite Zlt_Qlt. lra.
Qed.

(** a rounded value that lies within half a unit of [0, n] fits [n] *)
Lemma round_int_range x z n :
  fin x z -> 0 <= n < 2 ^ 30 -> (- (1 # 2) < z < inject_Z n + (1 # 2))%Q ->
  0 <= round_int x <= n.
Proof.
  intros Hx Hn Hz.
  assert (Hn' : (inject_Z n < inject_Z (2 ^ 30))%Q) by (rewrite <- Zlt_Qlt; lia).
  assert (H30 : (inject_Z (2 ^ 30) + 1 < inject_Z (2 ^ 31) - 1)%Q) by reflexivity.
  assert (H31 : (0 < inject_Z (2 ^ 31))%Q) by reflexivity.
  rewrite (round_int_fin x z Hx) by lra.
  assert (H1 : (inject_Z (Qfloor (z + (1 # 2))) <= z + (1 # 2))%Q) by apply Qfloor_le.
  assert (H2 : (z + (1 # 2) < inject_Z (Qfloor (z + (1 # 2)) + 1))%Q) by apply Qlt_floor.
  rewrite inject_Z_plus in H2. change (inject_Z 1) with 1%Q in H2.
  split.
  - apply Z.lt_succ_r. unfold Z.succ. rewrite Zlt_Qlt, inject_Z_plus.
    change (inject_Z 0) with 0%Q. change (inject_Z 1) with 1%Q. lra.
  - apply Z.lt_succ_r. unfold Z.succ. rewrite Zlt_Qlt, inject_Z_plus. change (inject_Z 1) with 1%Q. lra.
Qed.

(** what is not a finite number rounds to 0 *)
Lemma round_int_nonfinite x : nonfinite x -> round_int x = 0.
Proof.
  intros Hx. unfold round_int, ToInt32.
  pose proof (m_round model x) as H. unfold nonfinite in Hx.
  destruct (classify x) as [z| |]; cbn [not_num round_spec] in *; try contradiction;
    destruct (classify (Math_round x)); cbn [not_num] in H; try contradiction; reflexivity.
Qed.

End Arith.

(** ** The channels of a valid image *)

Lemma Qdiv_bounds x n lo hi :
  (0 < n)%Q -> (lo * n <= x <= hi * n)%Q -> (lo <= x / n <= hi)%Q.
Proof.
  intros Hn [H1 H2]. split.
  - apply Qle_shift_div_l; assumption.
  - apply Qle_shift_div_r; assumption.
Qed.

Section Channels.
Context {fl : Float64}.
Hypothesis model : IEEEModel.

(** a division by an integer constant: the quotient [q] and its rounding *)
Lemma fin_div_Z a x n lo hi :
  fin a x -> 0 < n <= 2 ^ 53 ->
  (lo * inject_Z n <= x <= hi * inject_Z n)%Q -> (- bound <= lo)%Q -> (hi <= bound)%Q ->
  exists z q, fin (a / of_Z n)%js z /\ (q * inject_Z n == x)%Q /\
              (lo <= q <= hi)%Q /\ (- err <= z - q <= err)%Q.
Proof.
  intros Ha Hn Hx Hlo Hhi.
  destruct (fin_of_Z model n) as (q & Hq & Eq); [lia|].
  assert (Hpos : (0 < inject_Z n)%Q) by (change 0%Q with (inject_Z 0); rewrite <- Zlt_Qlt; lia).
  pose proof (Qdiv_bounds x (inject_Z n) lo hi Hpos Hx) as Hv.
  assert (Eqq : (x / inject_Z n * inject_Z n == x)%Q) by (field; lra).
  destruct (fin_div model a (of_Z n) x q Ha Hq) as (z & Hz & Bz).
  - rewrite Eq. lra.
  - rewrite Eq. generalize dependent (x / inject_Z n)%Q. intros; lra.
  - exists z, (x / inject_Z n)%Q. split; [assumption|]. split; [assumption|].
    rewrite Eq in Bz. generalize dependent (x / inject_Z n)%Q. intros; split; lra.
Qed.

(** a sample of the buffer, read into arithmetic *)
Lemma byte_at_fin rgba j :
  Forall PNGSpec.is_byte rgba -> 0 <= j < Z.of_nat (length rgba) ->
  exists z, fin (byte_at rgba j) z /\ (0 <= z <= 255)%Q.
Proof.
  intros Hb Hj. unfold byte_at.
  destruct (Z.leb_spec 0 j); [|lia]. destruct (Z.ltb_spec j (Z.of_nat (length rgba))); [|lia].
  cbn [andb]. pose proof (PNGProofs.nth_byte rgba (Z.to_nat j) Hb) as Hn.
  unfold PNGSpec.is_byte in Hn.
  destruct (fin_of_Z model (nth (Z.to_nat j) rgba 0)) as (q & Hq & Eq); [lia|].
  exists q. split; [assumption|]. rewrite Eq.
  change 0%Q with (inject_Z 0). change 255%Q with (inject_Z 255).
  rewrite <- !Zle_Qle. lia.
Qed.

(** [alpha = rgba[j + 3] / 255] and [alpha / 255 * rgba[j + c]]: the float
    values, and the exact [al] and [al * co] they stand for *)
Lemma alpha_term rgba j c :
  Forall PNGSpec.is_byte rgba -> 0 <= j -> 0 <= c < 3 -> j + 3 < Z.of_nat (length rgba) ->
  exists za zt al co,
    fin (byte_at rgba (j + 3) / of_Z 255)%js za /\
    fin (byte_at rgba (j + 3) / of_Z 255 / of_Z 255 * byte_at rgba (j + c))%js zt /\
    (0 <= al <= 1)%Q /\ (0 <= co <= 1)%Q /\
    (- err <= za - al <= err)%Q /\ (- (300 * err) <= zt - al * co <= 300 * err)%Q.
Proof.
  intros Hb Hj Hc Hlen.
  destruct (byte_at_fin rgba (j + 3) Hb) as (v3 & H3 & B3); [lia|].
  destruct (byte_at_fin rgba (j + c) Hb) as (vc & Hvc & Bc); [lia|].
  assert (Hd : (0 < err)%Q) by reflexivity.
  assert (Hd1 : (err < 1 # 1000000)%Q) by reflexivity.
  destruct (fin_div_Z (byte_at rgba (j + 3)) v3 255 0 1 H3) as (za & al & Hza & Eal & Hal & Ea);
    [lia | change (inject_Z 255) with 255%Q; lra | unfold bound; lra | unfold bound; lra |].
  change (inject_Z 255) with 255%Q in *.
  destruct (fin_div_Z _ za 255 (- err) ((1 # 255) + err) Hza) as (z2 & za' & Hz2 & Eza & B2 & E2);
    [lia | change (inject_Z 255) with 255%Q; lra | unfold bound; lra | unfold bound; lra |].
  change (inject_Z 255) with 255%Q in *.
  destruct (fin_div_Z _ vc 255 0 1 Hvc) as (_ & co & _ & Eco & Hco & _);
    [lia | change (inject_Z 255) with 255%Q; lra | unfold bound; lra | unfold bound; lra |].
  change (inject_Z 255) with 255%Q in *.
  assert (E2' : (- (256 * err) <= z2 * 255 - al <= 256 * err)%Q) by lra.
  assert (P : (- (256 * err) <= z2 * vc - al * co <= 256 * err)%Q).
  { rewrite <- Eco. split; nra. }
  destruct (fin_mul model _ _ z2 vc Hz2 Hvc) as (zt & Hzt & Bt).
  { unfold bound. split; nra. }
  exists za, zt, al, co. repeat split; try assumption; try lra.
Qed.


(** the slack of the sums over the pixels *)
Definition sum_slack : Q := 301 * err.

Lemma fin_zero : exists z, fin (of_Z 0) z /\ (z == 0)%Q.
Proof. destruct (fin_of_Z model 0) as (q & Hq & Eq); [simpl; lia|]. now exists q. Qed.

(** "Determine the average color": the three sums after [k] pixels *)
Lemma avg_loop rgba (k : nat) :
  Forall PNGSpec.is_byte rgba -> 4 * Z.of_nat k <= Z.of_nat (length rgba) ->
  Z.of_nat k <= 10000 ->
  exists ar ag ab zr zg zb,
    iter_from k 0 (avg_step rgba) (of_Z 0, of_Z 0, of_Z 0, 0) = (ar, ag, ab, 4 * Z.of_nat k) /\
    fin ar zr /\ fin ag zg /\ fin ab zb /\
    (- (inject_Z (Z.of_nat k) * sum_slack) <= zr <= inject_Z (Z.of_nat k) * (1 + sum_slack))%Q /\
    (- (inject_Z (Z.of_nat k) * sum_slack) <= zg <= inject_Z (Z.of_nat k) * (1 + sum_slack))%Q /\
    (- (inject_Z (Z.of_nat k) * sum_slack) <= zb <= inject_Z (Z.of_nat k) * (1 + sum_slack))%Q.
Proof.
  intros Hb. induction k as [|k IH]; intros Hlen Hk.
  - destruct fin_zero as (z & Hz & Ez).
    exists (of_Z 0), (of_Z 0), (of_Z 0), z, z, z. cbn [iter_from].
    change (inject_Z (Z.of_nat 0)) with 0%Q.
    repeat split; try assumption; try reflexivity; lra.
  - destruct IH as (ar & ag & ab & zr & zg & zb & E & Hr & Hg & Hbb & Br & Bg & Bb); [lia..|].
    rewrite iter_from_snoc, E. rewrite Z.add_0_l. cbn [avg_step].
    assert (Hd : (0 < err)%Q) by reflexivity.
    assert (Hk1 : (0 <= inject_Z (Z.of_nat k) <= 10000)%Q).
    { change 0%Q with (inject_Z 0). change 10000%Q with (inject_Z 10000).
      rewrite <- !Zle_Qle. lia. }
    assert (Ek : (inject_Z (Z.of_nat (S k)) == inject_Z (Z.of_nat k) + 1)%Q).
    { rewrite Nat2Z.inj_succ. unfold Z.succ. rewrite inject_Z_plus. reflexivity. }
    destruct (alpha_term rgba (4 * Z.of_nat k) 0 Hb) as (za0 & t0 & al0 & co0 & _ & Ht0 & Ha0 & Hc0 & _ & B0);
      [lia..|].
    destruct (alpha_term rgba (4 * Z.of_nat k) 1 Hb) as (za1 & t1 & al1 & co1 & _ & Ht1 & Ha1 & Hc1 & _ & B1);
      [lia..|].
    destruct (alpha_term rgba (4 * Z.of_nat k) 2 Hb) as (za2 & t2 & al2 & co2 & _ & Ht2 & Ha2 & Hc2 & _ & B2);
      [lia..|].
    rewrite Z.add_0_r in Ht0.
    assert (P0 : (0 <= al0 * co0 <= 1)%Q) by (split; nra).
    assert (P1 : (0 <= al1 * co1 <= 1)%Q) by (split; nra).
    assert (P2 : (0 <= al2 * co2 <= 1)%Q) by (split; nra).
    generalize dependent (al0 * co0)%Q. intros p0 B0 P0.
    generalize dependent (al1 * co1)%Q. intros p1 B1 P1.
    generalize dependent (al2 * co2)%Q. intros p2 B2 P2.
    unfold sum_slack, err in *.
    destruct (fin_add model _ _ zr t0 Hr Ht0) as (zr' & Hr' & Br'); [unfold bound; split; lra|].
    destruct (fin_add model _ _ zg t1 Hg Ht1) as (zg' & Hg' & Bg'); [unfold bound; split; lra|].
    destruct (fin_add model _ _ zb t2 Hbb Ht2) as (zb' & Hb' & Bb'); [unfold bound; split; lra|].
    eexists _, _, _, zr', zg', zb'. split.
    { f_equal. lia. }
    unfold err in *. rewrite Ek. repeat split; try assumption; lra.
Qed.

(** the average colour of a valid image: within [sum_slack + err] of [0, 1] *)
Lemma average_color_range w h rgba :
  1 <= w <= 100 -> 1 <= h <= 100 ->
  Forall PNGSpec.is_byte rgba -> w * h * 4 <= Z.of_nat (length rgba) ->
  exists zr zg zb,
    fin (fst (fst (average_color w h rgba))) zr /\
    fin (snd (fst (average_color w h rgba))) zg /\
    fin (snd (average_color w h rgba)) zb /\
    (- (sum_slack + err) <= zr <= 1 + (sum_slack + err))%Q /\
    (- (sum_slack + err) <= zg <= 1 + (sum_slack + err))%Q /\
    (- (sum_slack + err) <= zb <= 1 + (sum_slack + err))%Q.
Proof.
  intros Hw Hh Hb Hlen. rewrite average_color_loop. unfold for_range. rewrite Z.sub_0_r.
  assert (HN : 1 <= w * h <= 10000) by nia.
  destruct (avg_loop rgba (Z.to_nat (w * h)) Hb) as
    (ar & ag & ab & zr & zg & zb & E & Hr & Hg & Hbb & Br & Bg & Bb); [lia..|].
  rewrite E. cbn [fst snd]. rewrite Z2Nat.id in * by lia.
  assert (Hd : (0 < err)%Q) by reflexivity.
  assert (Hd1 : (err < 1 # 1000000)%Q) by reflexivity.
  assert (HNq : (1 <= inject_Z (w * h) <= 10000)%Q).
  { change 1%Q with (inject_Z 1). change 10000%Q with (inject_Z 10000).
    rewrite <- !Zle_Qle. lia. }
  unfold sum_slack, err in *.
  destruct (fin_div_Z ar zr (w * h) (- (301 * err)) (1 + 301 * err) Hr)
    as (z1 & q1 & H1 & _ & Q1 & E1); [lia | unfold err in *; split; nra | unfold bound, err; lra | unfold bound, err; lra |].
  destruct (fin_div_Z ag zg (w * h) (- (301 * err)) (1 + 301 * err) Hg)
    as (z2 & q2 & H2 & _ & Q2 & E2); [lia | unfold err in *; split; nra | unfold bound, err; lra | unfold bound, err; lra |].
  destruct (fin_div_Z ab zb (w * h) (- (301 * err)) (1 + 301 * err) Hbb)
    as (z3 & q3 & H3 & _ & Q3 & E3); [lia | unfold err in *; split; nra | unfold bound, err; lra | unfold bound, err; lra |].
  unfold err in *. exists z1, z2, z3. repeat split; try assumption; lra.
Qed.

End Channels.

(** ** The three channels *)

Lemma arr_set_snoc {A} (hole : A) a i v :
  i = Z.of_nat (length a) -> arr_set hole a i v = a ++ [v].
Proof. intros ->. apply arr_set_end. Qed.

Section LPQ.
Context {fl : Float64}.
Hypothesis model : IEEEModel.

(** the slack of a channel value *)
Definition chan_slack : Q := 1300 * err.

Lemma fin_one : exists z, fin (of_Z 1) z /\ (z == 1)%Q.
Proof. destruct (fin_of_Z model 1) as (q & Hq & Eq); [simpl; lia|]. now exists q. Qed.

(** one of [r], [g], [b] of a pixel: the average behind the sample, by
    its alpha *)
Lemma blend_range rgba j c (a : num) A :
  Forall PNGSpec.is_byte rgba -> 0 <= j -> 0 <= c < 3 -> j + 3 < Z.of_nat (length rgba) ->
  fin a A -> (- (sum_slack + err) <= A <= 1 + (sum_slack + err))%Q ->
  exists z,
    fin (a * (of_Z 1 - byte_at rgba (j + 3) / of_Z 255)
         + byte_at rgba (j + 3) / of_Z 255 / of_Z 255 * byte_at rgba (j + c))%js z /\
    (- (608 * err) <= z <= 1 + 608 * err)%Q.
Proof.
  intros Hb Hj Hc Hlen Ha HA.
  destruct (alpha_term model rgba j c Hb Hj Hc Hlen)
    as (za & zt & al & co & Hza & Hzt & Hal & Hco & Ea & Et).
  destruct fin_one as (v1 & H1 & E1).
  destruct (fin_sub model _ _ v1 za H1 Hza) as (z4 & Hz4 & B4);
    [unfold bound, err in *; split; lra|].
  assert (P4 : (- (4 * err) <= A * z4 - A * (1 - al) <= 4 * err)%Q).
  { unfold sum_slack, err in *. split; nra. }
  assert (PA : (- (sum_slack + err) <= A * (1 - al) + al * co <= 1 + (sum_slack + err))%Q).
  { unfold sum_slack, err in *. split; nra. }
  assert (PM : (- 2 <= A * (1 - al) <= 2)%Q).
  { unfold sum_slack, err in *. split; nra. }
  generalize dependent (al * co)%Q. intros p Et PA.
  generalize dependent (A * (1 - al))%Q. intros m P4 PA PM.
  destruct (fin_mul model _ _ A z4 Ha Hz4) as (z5 & Hz5 & B5).
  { unfold bound, sum_slack, err in *. split; lra. }
  destruct (fin_add model _ _ z5 zt Hz5 Hzt) as (z6 & Hz6 & B6).
  { unfold bound, sum_slack, err in *. split; lra. }
  exists z6. split; [assumption|]. unfold sum_slack, err in *. split; lra.
Qed.

(** a pixel in LPQ *)
Lemma lpq_pixel_range avg rgba j Ar Ag Ab :
  Forall PNGSpec.is_byte rgba -> 0 <= j -> j + 3 < Z.of_nat (length rgba) ->
  fin (fst (fst avg)) Ar -> fin (snd (fst avg)) Ag -> fin (snd avg) Ab ->
  (- (sum_slack + err) <= Ar <= 1 + (sum_slack + err))%Q ->
  (- (sum_slack + err) <= Ag <= 1 + (sum_slack + err))%Q ->
  (- (sum_slack + err) <= Ab <= 1 + (sum_slack + err))%Q ->
  exists zl zp zq,
    fin (fst (fst (lpq_pixel avg rgba j))) zl /\
    fin (snd (fst (lpq_pixel avg rgba j))) zp /\
    fin (snd (lpq_pixel avg rgba j)) zq /\
    (- chan_slack <= zl <= 1 + chan_slack)%Q /\
    (- (1 + chan_slack) <= zp <= 1 + chan_slack)%Q /\
    (- (1 + chan_slack) <= zq <= 1 + chan_slack)%Q.
Proof.
  intros Hb Hj Hlen Hr Hg Hbb Br Bg Bb. destruct avg as [[avg_r avg_g] avg_b].
  cbn [fst snd] in Hr, Hg, Hbb. unfold lpq_pixel. cbv zeta.
  destruct (blend_range rgba j 0 avg_r Ar Hb Hj ltac:(lia) Hlen Hr Br) as (r & Hzr & Rr).
  destruct (blend_range rgba j 1 avg_g Ag Hb Hj ltac:(lia) Hlen Hg Bg) as (g & Hzg & Rg).
  destruct (blend_range rgba j 2 avg_b Ab Hb Hj ltac:(lia) Hlen Hbb Bb) as (b & Hzb & Rb).
  rewrite Z.add_0_r in Hzr.
  set (R := (avg_r * _ + _)%js) in *. set (G := (avg_g * _ + _)%js) in *.
  set (B := (avg_b * _ + _)%js) in *. cbn [fst snd].
  destruct (fin_add model R G r g Hzr Hzg) as (rg & Hrg & Brg);
    [unfold bound, err in *; split; lra|].
  destruct (fin_add model _ B rg b Hrg Hzb) as (rgb & Hrgb & Brgb);
    [unfold bound, err in *; split; lra|].
  destruct (fin_div_Z model _ rgb 3 (- (609 * err)) (1 + 609 * err) Hrgb)
    as (zl & ql & Hzl & _ & Ql & El);
    [lia | change (inject_Z 3) with 3%Q; unfold err in *; split; lra
     | unfold bound, err; lra | unfold bound, err; lra |].
  destruct (fin_div_Z model _ rg 2 (- (609 * err)) (1 + 609 * err) Hrg)
    as (zh & qh & Hzh & _ & Qh & Eh);
    [lia | change (inject_Z 2) with 2%Q; unfold err in *; split; lra
     | unfold bound, err; lra | unfold bound, err; lra |].
  destruct (fin_sub model _ B zh b Hzh Hzb) as (zp & Hzp & Bp);
    [unfold bound, err in *; split; lra|].
  destruct (fin_sub model R G r g Hzr Hzg) as (zq & Hzq & Bq);
    [unfold bound, err in *; split; lra|].
  exists zl, zp, zq. unfold chan_slack, err in *. repeat split; try assumption; lra.
Qed.

(** "Convert the image from RGBA to LPQ": the three lists *)
Lemma toLPQ_lists w h rgba avg :
  toLPQ w h rgba avg
  = (map (fun i => fst (fst (lpq_pixel avg rgba (4 * i)))) (zrange 0 (w * h)),
     map (fun i => snd (fst (lpq_pixel avg rgba (4 * i)))) (zrange 0 (w * h)),
     map (fun i => snd (lpq_pixel avg rgba (4 * i))) (zrange 0 (w * h))).
Proof.
  rewrite toLPQ_loop. unfold for_range, zrange. rewrite Z.sub_0_r.
  assert (E : forall k,
             iter_from k 0 (lpq_step avg rgba) ([], [], [], 0)
             = (map (fun i => fst (fst (lpq_pixel avg rgba (4 * i)))) (zseq 0 k),
                map (fun i => snd (fst (lpq_pixel avg rgba (4 * i)))) (zseq 0 k),
                map (fun i => snd (lpq_pixel avg rgba (4 * i))) (zseq 0 k),
                4 * Z.of_nat k)).
  { induction k as [|k IH]; [reflexivity|].
    rewrite iter_from_snoc, IH, PNGProofs.zseq_snoc, !map_app. rewrite !Z.add_0_l.
    cbn [lpq_step map].
    destruct (lpq_pixel avg rgba (4 * Z.of_nat k)) as [[li pi] qi]. cbn [fst snd].
    rewrite !arr_set_snoc by (rewrite length_map, zseq_length; reflexivity).
    f_equal. lia. }
  rewrite E. reflexivity.
Qed.

Lemma arr_get_map {A} (hole : A) (f : Z -> A) n i :
  0 <= i < n -> arr_get hole (map f (zrange 0 n)) i = f i.
Proof.
  intros Hi. unfold arr_get, zrange. destruct (Z.ltb_spec i 0); [lia|].
  rewrite (nth_indep _ hole (f 0)) by (rewrite length_map, zseq_length; lia).
  rewrite (map_nth f), zseq_nth by lia. f_equal. lia.
Qed.

End LPQ.

(** ** The coefficients *)

Section DCT.
Context {fl : Float64}.
Hypothesis model : IEEEModel.

(** a cosine of the transform: in [-1, 1], and 1 for the index 0 *)
Lemma basis_fin size c t :
  1 <= size <= 100 -> 0 <= c <= 10 -> 0 <= t <= 100 ->
  exists z, fin (Math_cos (PI / of_Z size * of_Z c * (of_Z t + lit 0.5))%js) z /\
            (- 1 <= z <= 1)%Q /\ (c = 0 -> (z == 1)%Q).
Proof.
  intros Hs Hc Ht.
  destruct (m_PI model) as (p & Hp & Bp). destruct (val_fin _ _ Hp) as (zp & Hzp & Ep).
  assert (Hsq : (1 <= inject_Z size <= 100)%Q).
  { change 1%Q with (inject_Z 1). change 100%Q with (inject_Z 100). rewrite <- !Zle_Qle. lia. }
  destruct (fin_div_Z model PI zp size 0 4 Hzp) as (z1 & q1 & Hz1 & _ & Q1 & E1);
    [lia | split; nra | unfold bound; lra | unfold bound; lra |].
  destruct (fin_of_Z model c) as (vc & Hvc & Evc); [lia|].
  assert (Hcq : (0 <= vc <= 10)%Q).
  { rewrite Evc. change 0%Q with (inject_Z 0). change 10%Q with (inject_Z 10).
    rewrite <- !Zle_Qle. lia. }
  destruct (fin_of_Z model t) as (vt & Hvt & Evt); [lia|].
  assert (Htq : (0 <= vt <= 100)%Q).
  { rewrite Evt. change 0%Q with (inject_Z 0). change 100%Q with (inject_Z 100).
    rewrite <- !Zle_Qle. lia. }
  destruct (fin_lit model 0.5 1 1) as (vh & Hvh & Evh); [simpl; lia | lia | reflexivity |].
  destruct (fin_add model _ _ vt vh Hvt Hvh) as (z3 & Hz3 & B3).
  { rewrite Evh. unfold bound. split; lra. }
  rewrite Evh in B3.
  assert (B3' : (0 <= z3 <= 101)%Q) by (unfold err in *; split; lra).
  destruct (Z.eq_dec c 0) as [-> | Hne].
  - destruct (fin_mul_0 model _ _ z1 vc Hz1 Hvc) as (z2 & Hz2 & E2).
    { rewrite Evc. change (inject_Z 0) with 0%Q. ring. }
    destruct (fin_mul_0 model _ _ z2 z3 Hz2 Hz3) as (z4 & Hz4 & E4).
    { rewrite E2. ring. }
    destruct (fin_cos model _ z4 Hz4) as (z & Hz & Bz & Z0).
    exists z. split; [assumption|]. split; [assumption|]. intros _. now apply Z0.
  - destruct (fin_mul model _ _ z1 vc Hz1 Hvc) as (z2 & Hz2 & B2).
    { unfold bound, err in *. split; nra. }
    assert (B2' : (- 2 <= z2 <= 51)%Q).
    { assert (0 - 1 <= z1 * vc <= 50)%Q by (unfold err in *; split; nra).
      unfold err in *. split; lra. }
    destruct (fin_mul model _ _ z2 z3 Hz2 Hz3) as (z4 & Hz4 & B4).
    { unfold bound. split; nra. }
    destruct (fin_cos model _ z4 Hz4) as (z & Hz & Bz & Z0).
    exists z. split; [assumption|]. split; [assumption|]. intros E. contradiction.
Qed.

(** a sum of terms that all lie in one interval *)
Lemma sum_range (T : Z -> Z -> num) lo hi (ts : list (Z * Z)) :
  (- (3 # 2) <= lo)%Q -> (lo <= hi)%Q -> (hi <= 3 # 2)%Q ->
  (forall x y, In (x, y) ts -> exists z, fin (T x y) z /\ (lo <= z <= hi)%Q) ->
  forall (m : nat) (a : num) (za : Q),
  Z.of_nat (m + length ts) <= 10000 ->
  fin a za ->
  (inject_Z (Z.of_nat m) * (lo - err) <= za <= inject_Z (Z.of_nat m) * (hi + err))%Q ->
  exists z,
    fin (fold_left (fun f '(x, y) => (f + T x y)%js) ts a) z /\
    (inject_Z (Z.of_nat (m + length ts)) * (lo - err) <= z
     <= inject_Z (Z.of_nat (m + length ts)) * (hi + err))%Q.
Proof.
  intros Hlo Hlh Hhi. induction ts as [|[x y] ts IH]; intros HT m a za Hm Ha Hza.
  - exists za. rewrite Nat.add_0_r. split; assumption.
  - cbn [fold_left length] in *.
    destruct (HT x y (or_introl eq_refl)) as (zt & Hzt & Bt).
    assert (Hmq : (0 <= inject_Z (Z.of_nat m) <= 9999)%Q).
    { change 0%Q with (inject_Z 0). change 9999%Q with (inject_Z 9999).
      rewrite <- !Zle_Qle. lia. }
    assert (Ek : (inject_Z (Z.of_nat (S m)) == inject_Z (Z.of_nat m) + 1)%Q).
    { rewrite Nat2Z.inj_succ. unfold Z.succ. rewrite inject_Z_plus. reflexivity. }
    assert (U1 : (inject_Z (Z.of_nat m) * (hi + err) <= 9999 * ((3 # 2) + err))%Q)
      by (unfold err in *; nra).
    assert (U2 : (- (9999 * ((3 # 2) + err)) <= inject_Z (Z.of_nat m) * (lo - err))%Q)
      by (unfold err in *; nra).
    destruct (fin_add model a (T x y) za zt Ha Hzt) as (z1 & Hz1 & B1).
    { unfold bound, err in *. split; lra. }
    destruct (IH (fun x' y' H => HT x' y' (or_intror H)) (S m) (a + T x y)%js z1)
      as (z & Hz & Bz);
      [lia | assumption | |].
    + rewrite Ek. unfold err in *. split; nra.
    + exists z. split; [assumption|].
      replace (m + S (length ts))%nat with (S m + length ts)%nat by lia. assumption.
Qed.


Lemma pixels_In w h x y : In (x, y) (pixels w h) -> 0 <= x < w /\ 0 <= y < h.
Proof.
  unfold pixels. intros H. apply in_flat_map in H. destruct H as (y' & Hy & H).
  apply in_map_iff in H. destruct H as (x' & E & Hx). injection E as <- <-.
  apply zrange_In in Hy, Hx. lia.
Qed.

(** one term of a coefficient *)
Lemma term_range w h channel cx cy x y lo :
  1 <= w <= 100 -> 1 <= h <= 100 -> 0 <= cx <= 10 -> 0 <= cy <= 10 ->
  0 <= x < w -> 0 <= y < h ->
  (- (1 + chan_slack) <= lo)%Q ->
  (exists z, fin (arr_get NaN channel (x + y * w)) z /\ (lo <= z <= 1 + chan_slack)%Q) ->
  exists z,
    fin (arr_get NaN channel (x + y * w)
         * Math_cos (PI / of_Z w * of_Z cx * (of_Z x + lit 0.5))
         * Math_cos (PI / of_Z h * of_Z cy * (of_Z y + lit 0.5)))%js z /\
    (- (1 + chan_slack + 2 * err) <= z <= 1 + chan_slack + 2 * err)%Q /\
    (cx = 0 -> cy = 0 -> (lo - 2 * err <= z)%Q).
Proof.
  intros Hw Hh Hcx Hcy Hx Hy Hlo (v & Hv & Bv).
  destruct (basis_fin w cx x Hw Hcx ltac:(lia)) as (c & Hc & Bc & C0).
  destruct (basis_fin h cy y Hh Hcy ltac:(lia)) as (c' & Hc' & Bc' & C0').
  assert (P1 : (- (1 + chan_slack) <= v * c <= 1 + chan_slack)%Q) by (unfold chan_slack, err in *; split; nra).
  destruct (fin_mul model _ _ v c Hv Hc) as (z1 & Hz1 & B1).
  { unfold bound, chan_slack, err in *. split; lra. }
  assert (P2 : (- (1 + chan_slack + err) <= z1 * c' <= 1 + chan_slack + err)%Q).
  { unfold chan_slack, err in *. split; nra. }
  destruct (fin_mul model _ _ z1 c' Hz1 Hc') as (z2 & Hz2 & B2).
  { unfold bound, chan_slack, err in *. split; lra. }
  exists z2. split; [assumption|]. split; [unfold chan_slack, err in *; split; lra|].
  intros E E'. specialize (C0 E). specialize (C0' E').
  assert (E1 : (v * c == v)%Q) by (rewrite C0; ring).
  assert (E2 : (z1 * c' == z1)%Q) by (rewrite C0'; ring).
  unfold chan_slack, err in *. lra.
Qed.

(** a coefficient of a channel whose values lie in [lo, 1 + chan_slack] *)
Lemma dct_range w h channel cx cy lo :
  1 <= w <= 100 -> 1 <= h <= 100 -> 0 <= cx <= 10 -> 0 <= cy <= 10 ->
  (- (1 + chan_slack) <= lo <= 0)%Q ->
  (forall i, 0 <= i < w * h ->
             exists z, fin (arr_get NaN channel i) z /\ (lo <= z <= 1 + chan_slack)%Q) ->
  exists z,
    fin (dct_coefficient w h channel cx cy) z /\
    (- (1 + chan_slack + 4 * err) <= z <= 1 + chan_slack + 4 * err)%Q /\
    (cx = 0 -> cy = 0 -> (lo - 4 * err <= z)%Q).
Proof.
  intros Hw Hh Hcx Hcy Hlo Hch. unfold dct_coefficient.
  assert (HN : 1 <= w * h <= 10000) by nia.
  assert (Hlen : Z.of_nat (length (pixels w h)) = w * h).
  { rewrite pixels_length. nia. }
  destruct (fin_zero model) as (z0 & Hz0 & E0).
  assert (HNq : (1 <= inject_Z (w * h) <= 10000)%Q).
  { change 1%Q with (inject_Z 1). change 10000%Q with (inject_Z 10000).
    rewrite <- !Zle_Qle. lia. }
  assert (Hterm : forall x y, In (x, y) (pixels w h) ->
            exists z,
              fin (arr_get NaN channel (x + y * w)
                   * Math_cos (PI / of_Z w * of_Z cx * (of_Z x + lit 0.5))
                   * Math_cos (PI / of_Z h * of_Z cy * (of_Z y + lit 0.5)))%js z /\
              (- (1 + chan_slack + 2 * err) <= z <= 1 + chan_slack + 2 * err)%Q /\
              (cx = 0 -> cy = 0 -> (lo - 2 * err <= z)%Q)).
  { intros x y Hin. apply pixels_In in Hin.
    apply (term_range w h channel cx cy x y lo); try lia; [lra|].
    apply Hch. nia. }
  destruct (Z.eq_dec cx 0) as [Ex | Nx]; [destruct (Z.eq_dec cy 0) as [Ey | Ny]|].
  - destruct (sum_range
                (fun x y => (arr_get NaN channel (x + y * w)
                   * Math_cos (PI / of_Z w * of_Z cx * (of_Z x + lit 0.5))
                   * Math_cos (PI / of_Z h * of_Z cy * (of_Z y + lit 0.5)))%js)
                (lo - 2 * err) (1 + chan_slack + 2 * err) (pixels w h)) with (m := O) (a := of_Z 0) (za := z0)
      as (s & Hs & Bs).
    + unfold chan_slack, err in *. lra.
    + unfold chan_slack, err in *. lra.
    + unfold chan_slack, err in *. lra.
    + intros x y Hin. destruct (Hterm x y Hin) as (z & Hz & Bz & Lz).
      exists z. split; [assumption|]. specialize (Lz Ex Ey). lra.
    + cbn [Nat.add]. lia.
    + assumption.
    + change (inject_Z (Z.of_nat 0)) with 0%Q. lra.
    + cbn [Nat.add] in Bs. rewrite Hlen in Bs.
      destruct (fin_div_Z model _ s (w * h) (lo - 2 * err - err) (1 + chan_slack + 2 * err + err) Hs)
        as (z & q & Hz & _ & Qz & Ez);
        [lia | unfold chan_slack, err in *; split; lra | unfold bound, chan_slack, err in *; lra
         | unfold bound, chan_slack, err in *; lra |].
      exists z. split; [assumption|]. unfold chan_slack, err in *. split; [split; lra|]. intros _ _. lra.
  - destruct (sum_range
                (fun x y => (arr_get NaN channel (x + y * w)
                   * Math_cos (PI / of_Z w * of_Z cx * (of_Z x + lit 0.5))
                   * Math_cos (PI / of_Z h * of_Z cy * (of_Z y + lit 0.5)))%js)
                (- (1 + chan_slack + 2 * err)) (1 + chan_slack + 2 * err) (pixels w h)) with (m := O) (a := of_Z 0) (za := z0)
      as (s & Hs & Bs).
    + unfold chan_slack, err in *. lra.
    + unfold chan_slack, err in *. lra.
    + unfold chan_slack, err in *. lra.
    + intros x y Hin. destruct (Hterm x y Hin) as (z & Hz & Bz & Lz).
      exists z. split; assumption.
    + cbn [Nat.add]. lia.
    + assumption.
    + change (inject_Z (Z.of_nat 0)) with 0%Q. lra.
    + cbn [Nat.add] in Bs. rewrite Hlen in Bs.
      destruct (fin_div_Z model _ s (w * h) (- (1 + chan_slack + 2 * err) - err) (1 + chan_slack + 2 * err + err) Hs)
        as (z & q & Hz & _ & Qz & Ez);
        [lia | unfold chan_slack, err in *; split; lra | unfold bound, chan_slack, err in *; lra
         | unfold bound, chan_slack, err in *; lra |].
      exists z. split; [assumption|]. unfold chan_slack, err in *. split; [split; lra|].
      intros _ E. contradiction.
  - destruct (sum_range
                (fun x y => (arr_get NaN channel (x + y * w)
                   * Math_cos (PI / of_Z w * of_Z cx * (of_Z x + lit 0.5))
                   * Math_cos (PI / of_Z h * of_Z cy * (of_Z y + lit 0.5)))%js)
                (- (1 + chan_slack + 2 * err)) (1 + chan_slack + 2 * err) (pixels w h)) with (m := O) (a := of_Z 0) (za := z0)
      as (s & Hs & Bs).
    + unfold chan_slack, err in *. lra.
    + unfold chan_slack, err in *. lra.
    + unfold chan_slack, err in *. lra.
    + intros x y Hin. destruct (Hterm x y Hin) as (z & Hz & Bz & Lz).
      exists z. split; assumption.
    + cbn [Nat.add]. lia.
    + assumption.
    + change (inject_Z (Z.of_nat 0)) with 0%Q. lra.
    + cbn [Nat.add] in Bs. rewrite Hlen in Bs.
      destruct (fin_div_Z model _ s (w * h) (- (1 + chan_slack + 2 * err) - err) (1 + chan_slack + 2 * err + err) Hs)
        as (z & q & Hz & _ & Qz & Ez);
        [lia | unfold chan_slack, err in *; split; lra | unfold bound, chan_slack, err in *; lra
         | unfold bound, chan_slack, err in *; lra |].
      exists z. split; [assumption|]. unfold chan_slack, err in *. split; [split; lra|].
      intros E. contradiction.
Qed.

End DCT.

(** ** The terms of a channel, quantized *)

Definition eps4 : Q := Eval cbv in 1 # (2 ^ 40).

Lemma eps_eta_e4 : (eps <= eps4)%Q /\ (eta <= eps4)%Q.
Proof. split; discriminate. Qed.

Section Quantized.
Context {fl : Float64}.
Hypothesis model : IEEEModel.

(** the bound of a coefficient *)
Definition coef_slack : Q := chan_slack + 4 * err.

(** [scale = max(scale, abs(f))] over the AC terms *)
Lemma max_abs_fold (ac : list num) : forall (a : num) (sa : Q),
  fin a sa -> (0 <= sa <= 1 + coef_slack)%Q ->
  Forall (fun f => exists z, fin f z /\ (- (1 + coef_slack) <= z <= 1 + coef_slack)%Q) ac ->
  exists s,
    fin (fold_left (fun scale f => Math_max scale (Math_abs f)) ac a) s /\
    (sa <= s <= 1 + coef_slack)%Q /\
    Forall (fun f => exists z, fin f z /\ (- s <= z <= s)%Q) ac.
Proof.
  induction ac as [|f ac IH]; intros a sa Ha Hsa Hac.
  - exists sa. split; [assumption|]. split; [lra | constructor].
  - inversion Hac as [|f' ac' (z & Hz & Bz) Hac']; subst. cbn [fold_left].
    destruct (fin_abs model f z Hz) as (za & Hza & Eza).
    assert (Bza : (0 <= za <= 1 + coef_slack)%Q).
    { rewrite Eza. split; [apply Qabs_nonneg|]. apply Qabs_Qle_condition. lra. }
    assert (Bz' : (- za <= z <= za)%Q).
    { rewrite Eza. apply Qabs_Qle_condition. lra. }
    destruct (fin_max model a (Math_abs f) sa za Ha Hza) as (m & Hm & M1 & M2 & Mc).
    assert (Bm : (0 <= m <= 1 + coef_slack)%Q) by (destruct Mc as [E | E]; rewrite E; lra).
    destruct (IH _ m Hm Bm Hac') as (s & Hs & Bs & Fs).
    exists s. split; [assumption|]. split; [lra|]. constructor; [|assumption].
    exists z. split; [assumption|]. lra.
Qed.

(** a term that is a finite number within half a unit of [0, 15]
    quantizes to a nibble; so does what is not a finite number *)
Lemma quantize_ac_range f z :
  fin f z -> (- (1 # 100) <= z <= 1 + (1 # 100))%Q -> 0 <= quantize_ac f <= 15.
Proof.
  intros Hf Bz. unfold quantize_ac.
  destruct (fin_of_Z model 15) as (v & Hv & Ev); [simpl; lia|].
  change (inject_Z 15) with 15%Q in Ev.
  destruct (fin_mul model _ _ v z Hv Hf) as (z' & Hz' & B').
  { rewrite Ev. unfold bound. split; lra. }
  rewrite Ev in B'.
  apply (round_int_range model _ z'); [assumption | lia |].
  change (inject_Z 15) with 15%Q. unfold err in *. split; lra.
Qed.

Lemma quantize_ac_nonfinite f : nonfinite f -> quantize_ac f = 0.
Proof.
  intros Hf. unfold quantize_ac. apply (round_int_nonfinite model).
  apply (m_mul_nonfinite model). now right.
Qed.

(** [0.5 + 0.5 / scale * f] for a term within the scale *)
Lemma normalized_range scale f s z :
  fin scale s -> (0 < s <= 2)%Q -> fin f z -> (- s <= z <= s)%Q ->
  0 <= quantize_ac (lit 0.5 + lit 0.5 / scale * f)%js <= 15.
Proof.
  intros Hs Bs Hf Bz.
  destruct (fin_lit model 0.5 1 1) as (vh & Hvh & Evh); [simpl; lia | lia | reflexivity |].
  assert (Evh' : (vh == 1 # 2)%Q) by (rewrite Evh; reflexivity).
  pose proof (m_div model (lit 0.5) scale vh s (fin_val _ _ Hvh) (fin_val _ _ Hs)) as R.
  assert (Hs0 : ~ (s == 0)%Q) by lra. specialize (R Hs0).
  assert (Eq : (vh / s * s == 1 # 2)%Q) by (rewrite <- Evh'; field; assumption).
  assert (Hq : (0 < vh / s)%Q).
  { apply Qlt_shift_div_l; lra. }
  generalize dependent (vh / s)%Q. intros q R Eq Hq.
  destruct (classify (lit 0.5 / scale)%js) as [zd| |] eqn:Ed.
  - cbn [rounded] in R. specialize (R q ltac:(lra)).
    destruct eps_eta_e4 as [He1 He2]. pose proof eps_pos. pose proof eta_pos.
    assert (R' : (- (eps4 * (q + 1)) <= zd - q <= eps4 * (q + 1))%Q).
    { assert (eps * q <= eps4 * q)%Q by (apply Qmult_le_compat_r; lra).
      unfold eps4 in *. lra. }
    clear R.
    assert (P : (- ((1 # 2) + err) <= zd * z <= (1 # 2) + err)%Q).
    { unfold err, eps4 in *.
      assert (Hzd : (0 <= zd)%Q) by nra.
      assert (Hzs : (zd * s <= (1 # 2) + (1 # 274877906944))%Q) by nra.
      split; nra. }
    destruct (fin_mul model _ _ zd z Ed Hf) as (zt & Hzt & Bt).
    { unfold bound, err in *. split; lra. }
    destruct (fin_add model _ _ vh zt Hvh Hzt) as (zn & Hzn & Bn).
    { unfold bound, err in *. split; lra. }
    apply (quantize_ac_range _ zn Hzn). unfold err in *. split; lra.
  - rewrite quantize_ac_nonfinite; [lia|].
    apply (m_add_nonfinite model). right. apply (m_mul_nonfinite model). left.
    unfold nonfinite. rewrite Ed. exact I.
  - rewrite quantize_ac_nonfinite; [lia|].
    apply (m_add_nonfinite model). right. apply (m_mul_nonfinite model). left.
    unfold nonfinite. rewrite Ed. exact I.
Qed.

End Quantized.

Section Fits.
Context {fl : Float64}.
Hypothesis model : IEEEModel.

Lemma ac_indices_In n cx cy :
  0 < n -> In (cx, cy) (ac_indices n) -> 0 <= cx < n /\ 0 <= cy < n.
Proof.
  intros Hn H. rewrite <- ac_pairs_indices in H by assumption.
  unfold ac_pairs in H. apply filter_In in H. destruct H as [H _].
  now apply pixels_In in H.
Qed.

(** the DC term, the scale and the AC terms [encodeChannel] returns for a
    channel with values in [lo, 1 + chan_slack] *)
Lemma channel_terms_range w h channel n lo :
  1 <= w <= 100 -> 1 <= h <= 100 -> 1 <= n <= 10 ->
  (- (1 + chan_slack) <= lo <= 0)%Q ->
  (forall i, 0 <= i < w * h ->
             exists z, fin (arr_get NaN channel i) z /\ (lo <= z <= 1 + chan_slack)%Q) ->
  (exists z, fin (fst (fst (channel_terms w h channel n))) z /\
             (lo - 4 * err <= z <= 1 + coef_slack)%Q) /\
  (exists s, fin (snd (channel_terms w h channel n)) s /\ (0 <= s <= 1 + coef_slack)%Q) /\
  Forall (fun f => 0 <= quantize_ac f <= 15) (snd (fst (channel_terms w h channel n))).
Proof.
  intros Hw Hh Hn Hlo Hch. unfold channel_terms. cbv zeta. cbn [fst snd].
  assert (Hac : Forall (fun f => exists z, fin f z /\ (- (1 + coef_slack) <= z <= 1 + coef_slack)%Q)
                  (ac_coefficients w h channel n)).
  { unfold ac_coefficients. apply Forall_forall. intros f Hf. apply in_map_iff in Hf.
    destruct Hf as ([cx cy] & <- & Hin). apply ac_indices_In in Hin; [|lia].
    destruct (dct_range model w h channel cx cy lo) as (z & Hz & Bz & _);
      try assumption; try lia.
    exists z. split; [assumption|]. unfold coef_slack. lra. }
  destruct (fin_zero model) as (z0 & Hz0 & E0).
  destruct (max_abs_fold model (ac_coefficients w h channel n) (of_Z 0) z0 Hz0)
    as (s & Hs & Bs & Fs); [unfold coef_slack, chan_slack, err; lra | assumption |].
  fold (max_abs (ac_coefficients w h channel n)) in Hs.
  split; [|split].
  - destruct (dct_range model w h channel 0 0 lo) as (z & Hz & Bz & Lz);
      try assumption; try lia.
    exists z. split; [assumption|]. specialize (Lz eq_refl eq_refl). unfold coef_slack. lra.
  - exists s. split; [assumption|]. lra.
  - unfold truthy. unfold fin in Hs. rewrite Hs.
    destruct (Qeq_bool s 0) eqn:E; cbn [negb].
    + apply Qeq_bool_eq in E. apply Forall_forall. intros f Hf.
      rewrite Forall_forall in Fs. destruct (Fs f Hf) as (z & Hz & Bz).
      apply (quantize_ac_range model f z Hz). lra.
    + apply Qeq_bool_neq in E. apply Forall_forall. intros f' Hf'.
      apply in_map_iff in Hf'. destruct Hf' as (f & <- & Hf).
      rewrite Forall_forall in Fs. destruct (Fs f Hf) as (z & Hz & Bz).
      apply (normalized_range model _ f s z); try assumption.
      unfold coef_slack, chan_slack, err in *. split; lra.
Qed.

Lemma quantize_63 x z :
  fin x z -> (- (1 # 200) <= z <= 1 + (1 # 200))%Q -> 0 <= round_int (of_Z 63 * x)%js <= 63.
Proof.
  intros Hx Bz.
  destruct (fin_of_Z model 63) as (v & Hv & Ev); [simpl; lia|].
  change (inject_Z 63) with 63%Q in Ev.
  destruct (fin_mul model _ _ v z Hv Hx) as (z' & Hz' & B').
  { rewrite Ev. unfold bound. split; lra. }
  rewrite Ev in B'.
  apply (round_int_range model _ z'); [assumption | lia |].
  change (inject_Z 63) with 63%Q. unfold err in *. split; lra.
Qed.

Lemma quantize_31 x z :
  fin x z -> (- (1 # 200) <= z <= 1 + (1 # 200))%Q -> 0 <= round_int (of_Z 31 * x)%js <= 31.
Proof.
  intros Hx Bz.
  destruct (fin_of_Z model 31) as (v & Hv & Ev); [simpl; lia|].
  change (inject_Z 31) with 31%Q in Ev.
  destruct (fin_mul model _ _ v z Hv Hx) as (z' & Hz' & B').
  { rewrite Ev. unfold bound. split; lra. }
  rewrite Ev in B'.
  apply (round_int_range model _ z'); [assumption | lia |].
  change (inject_Z 31) with 31%Q. unfold err in *. split; lra.
Qed.

Lemma quantize_signed x z :
  fin x z -> (- (1 + (1 # 200)) <= z <= 1 + (1 # 200))%Q ->
  0 <= round_int (lit 31.5 + lit 31.5 * x)%js <= 63.
Proof.
  intros Hx Bz.
  destruct (fin_lit model 31.5 63 1) as (v & Hv & Ev); [simpl; lia | lia | reflexivity |].
  assert (Ev' : (v == 63 # 2)%Q) by (rewrite Ev; reflexivity).
  destruct (fin_mul model _ _ v z Hv Hx) as (z1 & Hz1 & B1).
  { rewrite Ev'. unfold bound. split; lra. }
  rewrite Ev' in B1.
  destruct (fin_add model _ _ v z1 Hv Hz1) as (z2 & Hz2 & B2).
  { rewrite Ev'. unfold bound, err in *. split; lra. }
  rewrite Ev' in B2.
  apply (round_int_range model _ z2); [assumption | lia |].
  change (inject_Z 63) with 63%Q. unfold err in *. split; lra.
Qed.

(** the values [rgbaToThumbHash] rounds for a valid image fit their bits *)
(** what the packing needs of the three terms of a channel: a DC term in
    [lo, 1], a scale in [0, 1] (each up to the rounding slack) and AC terms
    that quantize to nibbles *)
Definition terms_in (lo : Q) (t : num * list num * num) : Prop :=
  (exists z, fin (fst (fst t)) z /\ (lo - 4 * err <= z <= 1 + coef_slack)%Q) /\
  (exists s, fin (snd t) s /\ (0 <= s <= 1 + coef_slack)%Q) /\
  Forall (fun f => 0 <= quantize_ac f <= 15) (snd (fst t)).

Lemma valid_image_terms cfg w h rgba :
  1 <= w <= 100 -> 1 <= h <= 100 ->
  Forall PNGSpec.is_byte rgba -> w * h * 4 <= Z.of_nat (length rgba) ->
  1 <= LUMINANCE_TERMS cfg <= 10 -> 1 <= CHROMINANCE_TERMS cfg <= 10 ->
  terms_in (- chan_slack)
    (channel_terms w h (fst (fst (toLPQ w h rgba (average_color w h rgba))))
       (LUMINANCE_TERMS cfg)) /\
  terms_in (- (1 + chan_slack))
    (channel_terms w h (snd (fst (toLPQ w h rgba (average_color w h rgba))))
       (CHROMINANCE_TERMS cfg)) /\
  terms_in (- (1 + chan_slack))
    (channel_terms w h (snd (toLPQ w h rgba (average_color w h rgba)))
       (CHROMINANCE_TERMS cfg)).
Proof.
  intros Hw Hh Hb Hlen HL HC. rewrite toLPQ_lists. cbn [fst snd].
  destruct (average_color_range model w h rgba Hw Hh Hb Hlen)
    as (Ar & Ag & Ab & Hr & Hg & Hbb & Br & Bg & Bb).
  set (avg := average_color w h rgba) in *.
  assert (HN : 1 <= w * h <= 10000) by nia.
  assert (Hpx : forall i, 0 <= i < w * h ->
            exists zl zp zq,
              fin (fst (fst (lpq_pixel avg rgba (4 * i)))) zl /\
              fin (snd (fst (lpq_pixel avg rgba (4 * i)))) zp /\
              fin (snd (lpq_pixel avg rgba (4 * i))) zq /\
              (- chan_slack <= zl <= 1 + chan_slack)%Q /\
              (- (1 + chan_slack) <= zp <= 1 + chan_slack)%Q /\
              (- (1 + chan_slack) <= zq <= 1 + chan_slack)%Q).
  { intros i Hi. apply (lpq_pixel_range model avg rgba (4 * i) Ar Ag Ab); try assumption; lia. }
  assert (Hc0 : (0 < chan_slack)%Q) by reflexivity.
  split; [|split]; apply channel_terms_range; try assumption; try lra;
    intros i Hi; rewrite arr_get_map by assumption;
    destruct (Hpx i Hi) as (z1 & z2 & z3 & H1 & H2 & H3 & B1 & B2 & B3).
  - exists z1. split; assumption.
  - exists z2. split; assumption.
  - exists z3. split; assumption.
Qed.

(** terms in these ranges round to integers that fit their bits *)
Lemma fits_of_terms cfg w h rgba :
  terms_in (- chan_slack)
    (channel_terms w h (fst (fst (toLPQ w h rgba (average_color w h rgba))))
       (LUMINANCE_TERMS cfg)) /\
  terms_in (- (1 + chan_slack))
    (channel_terms w h (snd (fst (toLPQ w h rgba (average_color w h rgba))))
       (CHROMINANCE_TERMS cfg)) /\
  terms_in (- (1 + chan_slack))
    (channel_terms w h (snd (toLPQ w h rgba (average_color w h rgba)))
       (CHROMINANCE_TERMS cfg)) ->
  fits (quantize cfg w h rgba) = true.
Proof.
  intros T. unfold quantize.
  destruct (toLPQ w h rgba (average_color w h rgba)) as [[l p] q]. cbn [fst snd] in T.
  destruct T as (((zl & Hzl & Bzl) & (sl & Hsl & Bsl) & Fl) &
                 ((zp & Hzp & Bzp) & (sp & Hsp & Bsp) & Fp) &
                 ((zq & Hzq & Bzq) & (sq & Hsq & Bsq) & Fq)).
  destruct (channel_terms w h l _) as [[l_dc l_ac] l_scale].
  destruct (channel_terms w h p _) as [[p_dc p_ac] p_scale].
  destruct (channel_terms w h q _) as [[q_dc q_ac] q_scale].
  cbn [fst snd] in *. unfold fits.
  cbn [qz_l_dc qz_p_dc qz_q_dc qz_l_scale qz_p_scale qz_q_scale qz_l_ac qz_p_ac qz_q_ac].
  rewrite !andb_true_iff, !within_spec.
  unfold coef_slack, chan_slack, err in *.
  repeat split.
  - apply (quantize_63 l_dc zl Hzl). split; lra.
  - apply (quantize_63 l_dc zl Hzl). split; lra.
  - apply (quantize_signed p_dc zp Hzp). split; lra.
  - apply (quantize_signed p_dc zp Hzp). split; lra.
  - apply (quantize_signed q_dc zq Hzq). split; lra.
  - apply (quantize_signed q_dc zq Hzq). split; lra.
  - apply (quantize_31 l_scale sl Hsl). split; lra.
  - apply (quantize_31 l_scale sl Hsl). split; lra.
  - apply (quantize_63 p_scale sp Hsp). split; lra.
  - apply (quantize_63 p_scale sp Hsp). split; lra.
  - apply (quantize_63 q_scale sq Hsq). split; lra.
  - apply (quantize_63 q_scale sq Hsq). split; lra.
  - apply forallb_forall. intros n Hn. apply within_spec.
    rewrite !in_app_iff, !in_map_iff in Hn.
    rewrite Forall_forall in Fl, Fp, Fq.
    destruct Hn as [(f & <- & Hf) | [(f & <- & Hf) | (f & <- & Hf)]]; auto.
Qed.

Lemma fits_valid_image cfg w h rgba :
  1 <= w <= 100 -> 1 <= h <= 100 ->
  Forall PNGSpec.is_byte rgba -> w * h * 4 <= Z.of_nat (length rgba) ->
  1 <= LUMINANCE_TERMS cfg <= 10 -> 1 <= CHROMINANCE_TERMS cfg <= 10 ->
  fits (quantize cfg w h rgba) = true.
Proof.
  intros Hw Hh Hb Hlen HL HC. apply fits_of_terms. now apply valid_image_terms.
Qed.

End Fits.

(** X14. No bit field of the hash overflows: under the standard model of
    binary64 arithmetic, for every image of 1 to 100 pixels a side whose
    buffer holds [w * h * 4] byte samples and every configuration
    [configThumbHash] accepts, each value [rgbaToThumbHash] rounds fits the
    bits the format gives it: the three DC terms and the two chroma scales
    are in [0, 63], the luminance scale in [0, 31] and every AC term in
    [0, 15].  A scale so small that [0.5 / scale] overflows is covered: the
    term is then not a finite number and rounds to 0. *)
Theorem rgbaToThumbHash_fits {fl : Float64} (model : IEEEModel) cfg w h rgba :
  1 <= w <= 100 -> 1 <= h <= 100 ->
  Forall PNGSpec.is_byte rgba -> w * h * 4 <= Z.of_nat (length rgba) ->
  1 <= LUMINANCE_TERMS cfg <= 10 -> 1 <= CHROMINANCE_TERMS cfg <= 10 ->
  fits (quantize cfg w h rgba) = true.
Proof.
  intros Hw Hh Hb Hlen HL HC.
  apply (fits_of_terms model). apply (valid_image_terms model); assumption.
Qed.

Lemma rgbaToThumbHash_fits_witness :
  fits (@quantize exact default_config 2 1 [255; 0; 0; 255; 0; 0; 255; 128]) = true.
Proof.
  apply (@rgbaToThumbHash_fits exact exact_model default_config 2 1
           [255; 0; 0; 255; 0; 0; 255; 128]); try (simpl; lia).
  unfold PNGSpec.is_byte. repeat constructor; lia.
Defined.

(** X15. Encoding then decoding a valid image, under the standard model of
    binary64 arithmetic: [rgbaToThumbHash] returns a hash of bytes, and
    [thumbHashToRGBA] under the same configuration reads back from it
    exactly the integers the encoder rounded, dequantized; the average
    colour [thumbHashToAverageRGBA] gives for the hash is opaque (alpha 1),
    with the clamped RGB of the three quantized DC terms. *)
Theorem decode_of_encode_valid {fl : Float64} (model : IEEEModel) (fuel : nat)
  cfg w h rgba :
  1 <= w <= 100 -> 1 <= h <= 100 ->
  Forall PNGSpec.is_byte rgba -> w * h * 4 <= Z.of_nat (length rgba) ->
  1 <= LUMINANCE_TERMS cfg <= 10 -> 1 <= CHROMINANCE_TERMS cfg <= 10 ->
  (10 < fuel)%nat ->
  exists hash,
    rgbaToThumbHash fuel cfg w h rgba = Ok hash /\
    Forall PNGSpec.is_byte hash /\
    read_terms fuel cfg hash = Ok (dequantized (quantize cfg w h rgba)) /\
    thumbHashToAverageRGBA hash
    = average_of (fst (fst (fst (dequantized (quantize cfg w h rgba))))) (of_Z 1).
Proof.
  intros Hw Hh Hb Hlen HL HC Hfuel.
  pose proof (fits_valid_image model cfg w h rgba Hw Hh Hb Hlen HL HC) as Hfit.
  destruct (encoded_hash_terms fuel cfg w h rgba ltac:(lia) ltac:(lia) HL HC Hfuel Hfit)
    as (hash & E & Hbh & Hd & R & H2 & _).
  exists hash. split; [assumption|]. split; [assumption|]. split; [assumption|].
  rewrite (average_fields hash Hbh), Hd.
  destruct (Z.ltb_spec (nth 2 hash 0) 128); [reflexivity | lia].
Qed.

Lemma decode_of_encode_valid_witness :
  exists hash,
    @rgbaToThumbHash exact 11 default_config 1 1 [10; 20; 30; 255] = Ok hash /\
    Forall PNGSpec.is_byte hash /\
    @read_terms exact 11 default_config hash
    = Ok (dequantized (@quantize exact default_config 1 1 [10; 20; 30; 255])) /\
    @thumbHashToAverageRGBA exact hash
    = average_of (fst (fst (fst (dequantized
                    (@quantize exact default_config 1 1 [10; 20; 30; 255])))))
        (@of_Z exact 1).
Proof.
  apply (@decode_of_encode_valid exact exact_model 11 default_config 1 1 [10; 20; 30; 255]);
    try (simpl; lia).
  unfold PNGSpec.is_byte. repeat constructor; lia.
Defined.

(** ** An empty image, a buffer too short *)

Section Degenerate.
Context {fl : Float64}.
Hypothesis model : IEEEModel.

Lemma pixels_nil w h : w * h = 0 -> pixels w h = [].
Proof.
  intros E. unfold pixels.
  assert (Hc : w = 0 \/ h = 0) by nia. destruct Hc as [-> | ->].
  - rewrite (zrange_nil 0 0) by lia. induction (zrange 0 h); [reflexivity | assumption].
  - rewrite (zrange_nil 0 0) by lia. reflexivity.
Qed.

Lemma fold_nonfinite (T : Z -> Z -> num) ts : forall a,
  nonfinite a -> nonfinite (fold_left (fun f '(x, y) => (f + T x y)%js) ts a).
Proof.
  induction ts as [|[x y] ts IH]; intros a Ha; [assumption|].
  cbn [fold_left]. apply IH. apply (m_add_nonfinite model). now left.
Qed.

(** every coefficient of a channel is NaN or infinite when the image has no
    pixel, and when every value of the channel is *)
Definition degenerate (w h : Z) (channel : list num) : Prop :=
  w * h = 0 \/
  (1 <= w /\ 1 <= h /\ forall i, 0 <= i < w * h -> nonfinite (arr_get NaN channel i)).

Lemma dct_nonfinite w h channel cx cy :
  degenerate w h channel -> nonfinite (dct_coefficient w h channel cx cy).
Proof.
  intros [E | (Hw & Hh & Hch)]; unfold dct_coefficient.
  - rewrite pixels_nil by assumption. cbn [fold_left]. rewrite E.
    unfold nonfinite. rewrite (m_div_0_0 model); [exact I | |];
      apply (m_of_Z model 0); simpl; lia.
  - apply (m_div_nonfinite model).
    assert (Hne : exists x y ts, pixels w h = (x, y) :: ts /\ 0 <= x < w /\ 0 <= y < h).
    { destruct (pixels w h) as [|[x y] ts] eqn:Ep.
      - pose proof (pixels_length w h) as L. rewrite Ep in L. simpl in L. nia.
      - exists x, y, ts. split; [reflexivity|]. apply pixels_In. rewrite Ep. now left. }
    destruct Hne as (x & y & ts & -> & Hx & Hy). cbn [fold_left].
    apply fold_nonfinite. apply (m_add_nonfinite model). right.
    apply (m_mul_nonfinite model). left. apply (m_mul_nonfinite model). left.
    apply Hch. nia.
Qed.

Lemma max_abs_step_nonfinite a f : nonfinite f -> nonfinite (Math_max a (Math_abs f)).
Proof.
  unfold nonfinite. intros Hf. pose proof (m_abs model f) as Ha.
  pose proof (m_max model a (Math_abs f)) as Hm.
  destruct (classify f) as [z| |]; cbn [not_num abs_spec] in *; try contradiction.
  - rewrite Ha in Hm. destruct (classify a) as [x|[|]|]; cbn [max_spec] in Hm;
      rewrite Hm; exact I.
  - rewrite Ha in Hm. destruct (classify a) as [x|[|]|]; cbn [max_spec] in Hm;
      rewrite Hm; exact I.
Qed.

Lemma max_abs_fold_nonfinite ac : forall a,
  ac <> [] -> Forall nonfinite ac ->
  nonfinite (fold_left (fun scale f => Math_max scale (Math_abs f)) ac a).
Proof.
  induction ac as [|f ac IH]; intros a Hne Hac; [contradiction|].
  inversion Hac as [|f' ac' Hf Hac']; subst. cbn [fold_left].
  destruct ac as [|g ac].
  - cbn [fold_left]. now apply max_abs_step_nonfinite.
  - apply IH; [discriminate | assumption].
Qed.

Lemma round_int_zero x : (exists z, fin x z /\ (z == 0)%Q) -> round_int x = 0.
Proof.
  intros (z & Hz & E).
  pose proof (round_int_range model x z 0 Hz ltac:(lia)) as H.
  change (inject_Z 0) with 0%Q in H. apply Z.le_antisymm; apply H; lra.
Qed.

(** the terms of a degenerate channel all quantize to 0 *)
Lemma channel_terms_degenerate w h channel n :
  degenerate w h channel ->
  nonfinite (fst (fst (channel_terms w h channel n))) /\
  Forall (fun f => quantize_ac f = 0) (snd (fst (channel_terms w h channel n))) /\
  round_int (of_Z 31 * snd (channel_terms w h channel n))%js = 0 /\
  round_int (of_Z 63 * snd (channel_terms w h channel n))%js = 0.
Proof.
  intros Hd. unfold channel_terms. cbv zeta. cbn [fst snd].
  assert (Hac : Forall nonfinite (ac_coefficients w h channel n)).
  { unfold ac_coefficients. apply Forall_forall. intros f Hf. apply in_map_iff in Hf.
    destruct Hf as ([cx cy] & <- & _). now apply dct_nonfinite. }
  split; [now apply dct_nonfinite|]. split.
  - destruct (truthy _).
    + apply Forall_forall. intros f' Hf'. apply in_map_iff in Hf'.
      destruct Hf' as (f & <- & Hf). rewrite Forall_forall in Hac.
      apply (quantize_ac_nonfinite model). apply (m_add_nonfinite model). right.
      apply (m_mul_nonfinite model). right. now apply Hac.
    + revert Hac. apply Forall_impl. intros f Hf. now apply (quantize_ac_nonfinite model).
  - unfold max_abs. destruct (ac_coefficients w h channel n) as [|f ac] eqn:Eac.
    + cbn [fold_left]. split; apply round_int_zero.
      * destruct (fin_of_Z model 31) as (v & Hv & _); [simpl; lia|].
        destruct (fin_zero model) as (z0 & Hz0 & E0).
        apply (fin_mul_0 model _ _ v z0 Hv Hz0). rewrite E0. ring.
      * destruct (fin_of_Z model 63) as (v & Hv & _); [simpl; lia|].
        destruct (fin_zero model) as (z0 & Hz0 & E0).
        apply (fin_mul_0 model _ _ v z0 Hv Hz0). rewrite E0. ring.
    + assert (Hs : nonfinite (fold_left (fun scale f => Math_max scale (Math_abs f))
                                (f :: ac) (of_Z 0)))
        by (apply max_abs_fold_nonfinite; [discriminate | assumption]).
      split; apply (round_int_nonfinite model); apply (m_mul_nonfinite model); now right.
Qed.

(** writing terms that quantize to 0 leaves a hash of zeros *)
Lemma write_ac_zeros fs : forall hash idx,
  0 <= idx -> idx + Z.of_nat (length fs) < 2 ^ 31 ->
  Z.of_nat (length hash) = 5 + (idx + 1) / 2 ->
  Forall (fun b => b = 0) hash -> Forall (fun f => quantize_ac f = 0) fs ->
  Forall (fun b => b = 0) (fst (fold_left write_ac fs (hash, idx))).
Proof.
  induction fs as [|f fs IH]; intros hash idx Hidx Hlt Hlen Hz Hq; [assumption|].
  inversion Hq as [|f' fs' Hf Hfs]; subst. cbn [fold_left length] in *.
  assert (E : exists hash1, write_ac (hash, idx) f = (hash1, idx + 1) /\
                            Forall (fun b => b = 0) hash1 /\
                            Z.of_nat (length hash1) = 5 + (idx + 1 + 1) / 2).
  { eexists. split; [reflexivity|]. fold (quantize_ac f). rewrite Hf.
    assert (E0 : arr_get 0 hash (ac_start + JS.sar idx 1) = 0).
    { unfold arr_get. destruct (_ <? 0); [reflexivity|].
      rewrite Forall_forall in Hz.
      destruct (nth_in_or_default (Z.to_nat (ac_start + JS.sar idx 1)) hash 0) as [Hin | ->];
        [now apply Hz | reflexivity]. }
    rewrite E0.
    assert (Es : JS.shl 0 (JS.shl (JS.band idx 1) 2) = 0).
    { unfold JS.shl at 1. change (JS.ToInt32 0) with 0. rewrite Z.shiftl_0_l. reflexivity. }
    rewrite Es. change (JS.bor 0 0) with 0. split.
    - apply arr_set_Forall; auto.
    - rewrite sar_div by lia. change (2 ^ 1) with 2. unfold ac_start.
      rewrite arr_set_length by zdiv. zdiv. }
  destruct E as (hash1 & -> & Hz1 & Hl1).
  apply IH; try assumption; lia.
Qed.

Lemma avg_loop_index rgba (k : nat) :
  snd (iter_from k 0 (avg_step rgba) (of_Z 0, of_Z 0, of_Z 0, 0)) = 4 * Z.of_nat k.
Proof.
  induction k as [|k IH]; [reflexivity|].
  rewrite iter_from_snoc. destruct (iter_from k 0 _ _) as [[[a b] c] j].
  cbn [snd avg_step] in *. lia.
Qed.

Lemma NaN_nonfinite : nonfinite NaN.
Proof. unfold nonfinite. now rewrite (m_NaN model). Qed.

(** a pixel read past the end of the buffer turns the three sums into NaN *)
Lemma average_color_short w h rgba :
  1 <= w * h -> Z.of_nat (length rgba) < w * h * 4 ->
  let '(r, g, b) := average_color w h rgba in
  nonfinite r /\ nonfinite g /\ nonfinite b.
Proof.
  intros HN Hlen. rewrite average_color_loop. unfold for_range. rewrite Z.sub_0_r.
  destruct (Z.to_nat (w * h)) as [|k] eqn:Ek; [lia|].
  rewrite iter_from_snoc. pose proof (avg_loop_index rgba k) as Ej.
  destruct (iter_from k 0 _ _) as [[[a b] c] j]. cbn [snd] in Ej. subst j.
  cbn [avg_step]. rewrite ?Z.add_0_l.
  assert (Ea : byte_at rgba (4 * Z.of_nat k + 3) = NaN).
  { unfold byte_at. destruct (Z.ltb_spec (4 * Z.of_nat k + 3) (Z.of_nat (length rgba)));
      [lia|]. now rewrite andb_false_r. }
  rewrite Ea.
  assert (Hal : nonfinite (NaN / of_Z 255 / of_Z 255)%js)
    by (do 2 apply (m_div_nonfinite model); apply NaN_nonfinite).
  repeat split; apply (m_div_nonfinite model); apply (m_add_nonfinite model); right;
    apply (m_mul_nonfinite model); now left.
Qed.

Lemma lpq_pixel_nonfinite avg rgba j :
  nonfinite (fst (fst avg)) -> nonfinite (snd (fst avg)) -> nonfinite (snd avg) ->
  nonfinite (fst (fst (lpq_pixel avg rgba j))) /\
  nonfinite (snd (fst (lpq_pixel avg rgba j))) /\
  nonfinite (snd (lpq_pixel avg rgba j)).
Proof.
  destruct avg as [[ar ag] ab]. cbn [fst snd]. intros Hr Hg Hb.
  unfold lpq_pixel. cbv zeta. cbn [fst snd].
  set (al := (byte_at rgba (j + 3) / of_Z 255)%js).
  assert (R : nonfinite (ar * (of_Z 1 - al) + al / of_Z 255 * byte_at rgba j)%js)
    by (apply (m_add_nonfinite model); left; apply (m_mul_nonfinite model); now left).
  assert (G : nonfinite (ag * (of_Z 1 - al) + al / of_Z 255 * byte_at rgba (j + 1))%js)
    by (apply (m_add_nonfinite model); left; apply (m_mul_nonfinite model); now left).
  assert (B : nonfinite (ab * (of_Z 1 - al) + al / of_Z 255 * byte_at rgba (j + 2))%js)
    by (apply (m_add_nonfinite model); left; apply (m_mul_nonfinite model); now left).
  repeat split.
  - apply (m_div_nonfinite model). apply (m_add_nonfinite model). now right.
  - apply (m_sub_nonfinite model). now right.
  - apply (m_sub_nonfinite model). now left.
Qed.

Lemma toLPQ_degenerate w h rgba :
  0 <= w -> 0 <= h -> w * h = 0 \/ Z.of_nat (length rgba) < w * h * 4 ->
  degenerate w h (fst (fst (toLPQ w h rgba (average_color w h rgba)))) /\
  degenerate w h (snd (fst (toLPQ w h rgba (average_color w h rgba)))) /\
  degenerate w h (snd (toLPQ w h rgba (average_color w h rgba))).
Proof.
  intros Hw Hh Hd.
  destruct (Z.eq_dec (w * h) 0) as [E0 | Hne]; [repeat split; now left|].
  destruct Hd as [E0 | Hlen]; [contradiction|].
  assert (HN : 1 <= w * h) by nia.
  pose proof (average_color_short w h rgba HN Hlen) as Hav.
  rewrite toLPQ_lists. cbn [fst snd].
  destruct (average_color w h rgba) as [[ar ag] ab]. destruct Hav as (Hr & Hg & Hb).
  repeat split; right; (split; [nia|]); (split; [nia|]); intros i Hi;
    rewrite arr_get_map by lia;
    apply (lpq_pixel_nonfinite (ar, ag, ab) rgba (4 * i)); assumption.
Qed.

Lemma pack_degenerate cfg w h rgba :
  0 <= w -> 0 <= h -> w * h = 0 \/ Z.of_nat (length rgba) < w * h * 4 ->
  0 < LUMINANCE_TERMS cfg <= 10 -> 0 < CHROMINANCE_TERMS cfg <= 10 ->
  Forall (fun b => b = 0) (fst (pack cfg w h rgba)).
Proof.
  intros Hw Hh Hd HL HC. unfold pack.
  pose proof (toLPQ_degenerate w h rgba Hw Hh Hd) as D.
  destruct (toLPQ w h rgba (average_color w h rgba)) as [[l p] q]. cbn [fst snd] in D.
  destruct D as (Dl & Dp & Dq).
  pose proof (channel_terms_degenerate w h l (LUMINANCE_TERMS cfg) Dl) as Tl.
  pose proof (channel_terms_degenerate w h p (CHROMINANCE_TERMS cfg) Dp) as Tp.
  pose proof (channel_terms_degenerate w h q (CHROMINANCE_TERMS cfg) Dq) as Tq.
  pose proof (channel_terms_length w h l (LUMINANCE_TERMS cfg) ltac:(lia)) as El.
  pose proof (channel_terms_length w h p (CHROMINANCE_TERMS cfg) ltac:(lia)) as Ep.
  pose proof (channel_terms_length w h q (CHROMINANCE_TERMS cfg) ltac:(lia)) as Eq.
  pose proof (ac_count_bound (LUMINANCE_TERMS cfg) ltac:(lia)) as Bl.
  pose proof (ac_count_bound (CHROMINANCE_TERMS cfg) ltac:(lia)) as Bc.
  destruct (channel_terms w h l _) as [[l_dc l_ac] l_scale].
  destruct (channel_terms w h p _) as [[p_dc p_ac] p_scale].
  destruct (channel_terms w h q _) as [[q_dc q_ac] q_scale].
  cbn [fst snd] in *.
  destruct Tl as (Nl & Al & Sl & _), Tp as (Np & Ap & _ & Sp), Tq as (Nq & Aq & _ & Sq).
  assert (E24 : header24_of l_dc p_dc q_dc l_scale = 0).
  { unfold header24_of. rewrite Sl.
    rewrite (round_int_nonfinite model (of_Z 63 * l_dc)%js)
      by (apply (m_mul_nonfinite model); now right).
    rewrite (round_int_nonfinite model (lit 31.5 + lit 31.5 * p_dc)%js)
      by (apply (m_add_nonfinite model); right; apply (m_mul_nonfinite model); now right).
    rewrite (round_int_nonfinite model (lit 31.5 + lit 31.5 * q_dc)%js)
      by (apply (m_add_nonfinite model); right; apply (m_mul_nonfinite model); now right).
    reflexivity. }
  assert (E16 : header16_of p_scale q_scale = 0).
  { unfold header16_of. rewrite Sp, Sq. reflexivity. }
  rewrite E24, E16. apply write_ac_zeros.
  - lia.
  - rewrite !length_app. change (2 ^ 31) with 2147483648. nia.
  - reflexivity.
  - unfold header_bytes. repeat constructor.
  - repeat (apply Forall_app; split); assumption.
Qed.

Lemma zeros_repeat (l : list Z) :
  Forall (fun b => b = 0) l -> map JS.ToUint8 l = repeat 0 (length l).
Proof.
  induction 1 as [|b l -> _ IH]; [reflexivity|]. cbn [map length repeat]. now rewrite IH.
Qed.

End Degenerate.

(** X16. [rgbaToThumbHash] does not check the pixel buffer against the
    dimensions: for an image with no pixel ([w * h = 0]) and for a buffer
    shorter than [w * h * 4] samples it does not throw, every sum it computes
    is NaN or infinite, and it returns the hash whose bytes are all 0. *)
Theorem rgbaToThumbHash_short_buffer {fl : Float64} (model : IEEEModel) (fuel : nat)
    cfg w h rgba :
  0 <= w <= 100 -> 0 <= h <= 100 ->
  w * h = 0 \/ Z.of_nat (length rgba) < w * h * 4 ->
  0 < LUMINANCE_TERMS cfg <= 10 -> 0 < CHROMINANCE_TERMS cfg <= 10 ->
  (10 < fuel)%nat ->
  rgbaToThumbHash fuel cfg w h rgba
  = Ok (repeat 0 (Z.to_nat (5 + ceil_half (totalAc cfg)))).
Proof.
  intros Hw Hh Hd HL HC Hf.
  rewrite rgbaToThumbHash_ok by lia.
  rewrite zeros_repeat by (apply (pack_degenerate model); (assumption || lia)).
  pose proof (pack_length cfg w h rgba HL HC) as E. rewrite <- E, Nat2Z.id. reflexivity.
Qed.

Lemma rgbaToThumbHash_short_buffer_witness :
  @rgbaToThumbHash exact 11 default_config 2 2 [255; 0; 0; 255; 0; 255; 0]
  = Ok (repeat 0 (Z.to_nat (5 + ceil_half (totalAc default_config)))).
Proof.
  apply (rgbaToThumbHash_short_buffer exact_model); cbn; lia.
Defined.

(** ** The average colour of any hash *)

Lemma Qmul_bound (x y A B : Q) :
  (- A <= x <= A)%Q -> (- B <= y <= B)%Q -> (- (A * B) <= x * y <= A * B)%Q.
Proof. intros Hx Hy. split; nra. Qed.

Lemma band_range c n : 0 <= n <= 31 -> 0 <= JS.band c (Z.ones n) < 2 ^ n.
Proof. intros Hn. rewrite band_low by assumption. apply Z.mod_pos_bound. lia. Qed.

Section AverageRange.
Context {fl : Float64}.
Hypothesis model : IEEEModel.

Lemma fin_min a b x y :
  fin a x -> fin b y ->
  exists z, fin (Math_min a b) z /\ (z <= x)%Q /\ (z <= y)%Q /\ ((z == x)%Q \/ (z == y)%Q).
Proof.
  intros Ha Hb. pose proof (m_min model a b) as H. rewrite Ha, Hb in H.
  cbn [min_spec] in H. destruct (val_fin _ _ H) as (z & Hz & E). exists z.
  split; [assumption|].
  destruct (Qle_bool x y) eqn:El.
  - apply Qle_bool_iff in El. split; [lra|]. split; [lra|]. now left.
  - assert (Hlt : (y < x)%Q).
    { apply Qnot_le_lt. intros C. apply Qle_bool_iff in C. congruence. }
    split; [lra|]. split; [lra|]. now right.
Qed.

Lemma fin_div_pos a b x y lo hi :
  fin a x -> fin b y -> (0 < y)%Q ->
  (lo * y <= x <= hi * y)%Q -> (- bound <= lo)%Q -> (hi <= bound)%Q ->
  exists z q, fin (a / b)%js z /\ (q * y == x)%Q /\
              (lo <= q <= hi)%Q /\ (- err <= z - q <= err)%Q.
Proof.
  intros Ha Hb Hpos Hx Hlo Hhi.
  pose proof (Qdiv_bounds x y lo hi Hpos Hx) as Hv.
  assert (Eqq : (x / y * y == x)%Q) by (field; lra).
  destruct (fin_div model a b x y Ha Hb) as (z & Hz & Bz).
  - lra.
  - generalize dependent (x / y)%Q. intros; lra.
  - exists z, (x / y)%Q. split; [assumption|]. split; [assumption|]. split; assumption.
Qed.

(** a finite number between 0 and 1 *)
Definition unit_range (x : num) : Prop := exists z, fin x z /\ (0 <= z <= 1)%Q.

(** a finite number of magnitude at most [M] *)
Definition mag (M : Q) (x : num) : Prop := exists z, fin x z /\ (- M <= z <= M)%Q.

Lemma clamp01_range v z : fin v z -> unit_range (clamp01 v).
Proof.
  intros Hv. unfold clamp01, unit_range.
  destruct (fin_zero model) as (z0 & Hz0 & E0).
  destruct (fin_one model) as (z1 & Hz1 & E1).
  destruct (fin_min _ _ z1 z Hz1 Hv) as (m & Hm & M1 & M2 & _).
  destruct (fin_max model _ _ z0 m Hz0 Hm) as (c & Hc & C1 & C2 & [E | E]).
  - exists c. split; [assumption|]. lra.
  - exists c. split; [assumption|]. lra.
Qed.

Lemma inject_Z_range n lo hi :
  lo <= n <= hi -> (inject_Z lo <= inject_Z n <= inject_Z hi)%Q.
Proof. intros [H1 H2]. split; rewrite <- Zle_Qle; assumption. Qed.

(** [n / 63] for a field of six bits *)
Lemma unsigned_field n : 0 <= n <= 63 -> mag 2 (of_Z n / of_Z 63)%js.
Proof.
  intros Hn. destruct (fin_of_Z model n) as (x & Hx & Ex); [simpl; lia|].
  pose proof (inject_Z_range n 0 63 Hn) as B.
  change (inject_Z 0) with 0%Q in B. change (inject_Z 63) with 63%Q in B.
  destruct (fin_div_Z model _ x 63 0 1 Hx) as (z & q & Hz & _ & Bq & Bz).
  - simpl; lia.
  - change (inject_Z 63) with 63%Q. rewrite Ex. lra.
  - unfold bound. lra.
  - unfold bound. lra.
  - exists z. split; [assumption|]. unfold err in *. lra.
Qed.

(** [n / 31.5 - 1] for a field of six bits *)
Lemma signed_field n : 0 <= n <= 63 -> mag 2 (of_Z n / lit 31.5 - of_Z 1)%js.
Proof.
  intros Hn. destruct (fin_of_Z model n) as (x & Hx & Ex); [simpl; lia|].
  pose proof (inject_Z_range n 0 63 Hn) as B.
  change (inject_Z 0) with 0%Q in B. change (inject_Z 63) with 63%Q in B.
  destruct (fin_lit model 31.5 63 1) as (v & Hv & Ev); [simpl; lia | lia | reflexivity |].
  assert (Ev' : (v == 63 # 2)%Q) by (rewrite Ev; reflexivity).
  destruct (fin_one model) as (z1 & Hz1 & E1).
  destruct (fin_div_pos _ _ x v 0 2 Hx Hv) as (z & q & Hz & _ & Bq & Bz).
  - lra.
  - rewrite Ex, Ev'. lra.
  - unfold bound. lra.
  - unfold bound. lra.
  - destruct (fin_sub model _ _ z z1 Hz Hz1) as (s & Hs & Bs).
    + unfold bound, err in *. lra.
    + exists s. split; [assumption|]. unfold err in *. lra.
Qed.

(** "Convert to RGB" never overflows on fields of the header *)
Lemma fromLPQ_finite l p q :
  mag 2 l -> mag 2 p -> mag 2 q ->
  (exists z, fin (fst (fst (fromLPQ l p q))) z) /\
  (exists z, fin (snd (fst (fromLPQ l p q))) z) /\
  (exists z, fin (snd (fromLPQ l p q)) z).
Proof.
  intros (zl & Hl & Bl) (zp & Hp & Bp) (zq & Hq & Bq). unfold fromLPQ. cbv zeta.
  cbn [fst snd].
  destruct (fin_of_Z model 2) as (x2 & Hx2 & E2); [simpl; lia|].
  destruct (fin_of_Z model 3) as (x3 & Hx3 & E3); [simpl; lia|].
  change (inject_Z 2) with 2%Q in E2. change (inject_Z 3) with 3%Q in E3.
  destruct (fin_div_Z model _ x2 3 0 1 Hx2) as (t & qt & Ht & _ & Bqt & Bt).
  { simpl; lia. }
  { change (inject_Z 3) with 3%Q. lra. }
  { unfold bound. lra. }
  { unfold bound. lra. }
  assert (Bt' : (- 2 <= t <= 2)%Q) by (unfold err in *; lra).
  pose proof (Qmul_bound t zp 2 2 Bt' Bp) as Btp.
  destruct (fin_mul model _ _ t zp Ht Hp) as (m & Hm & Bm).
  { unfold bound. lra. }
  destruct (fin_sub model _ _ zl m Hl Hm) as (b & Hb & Bb).
  { unfold bound, err in *. lra. }
  pose proof (Qmul_bound x3 zl 3 2 ltac:(lra) Bl) as B3l.
  destruct (fin_mul model _ _ x3 zl Hx3 Hl) as (l3 & Hl3 & Bl3).
  { unfold bound. lra. }
  destruct (fin_sub model _ _ l3 b Hl3 Hb) as (s1 & Hs1 & Bs1).
  { unfold bound, err in *. lra. }
  destruct (fin_add model _ _ s1 zq Hs1 Hq) as (s2 & Hs2 & Bs2).
  { unfold bound, err in *. lra. }
  destruct (fin_div_Z model _ s2 2 (- 20) 20 Hs2) as (r & qr & Hr & _ & Bqr & Br).
  { simpl; lia. }
  { change (inject_Z 2) with 2%Q. unfold err in *. lra. }
  { unfold bound. lra. }
  { unfold bound. lra. }
  destruct (fin_sub model _ _ r zq Hr Hq) as (g & Hg & Bg).
  { unfold bound, err in *. lra. }
  split; [now exists r|]. split; [now exists g | now exists b].
Qed.

(** the low nibble of a byte over 15 *)
Lemma alpha_field n : 0 <= n <= 15 -> unit_range (of_Z n / of_Z 15)%js.
Proof.
  intros Hn. unfold unit_range.
  assert (N15 : ~ (inject_Z 15 == 0)%Q) by (change (inject_Z 15) with 15%Q; lra).
  pose proof (m_of_Z model 15 ltac:(simpl; lia)) as V15.
  destruct (Z.eq_dec n 0) as [-> | H0]; [|destruct (Z.eq_dec n 15) as [-> | H15]].
  - pose proof (m_of_Z model 0 ltac:(simpl; lia)) as V0.
    destruct (val_fin _ _ (m_div_zero model _ _ _ V0 V15 N15)) as (z & Hz & E).
    exists z. split; [assumption|]. lra.
  - destruct (val_fin _ _ (m_div_same model _ _ _ V15 V15 N15)) as (z & Hz & E).
    exists z. split; [assumption|]. lra.
  - destruct (fin_of_Z model n) as (x & Hx & Ex); [simpl; lia|].
    pose proof (inject_Z_range n 1 14 ltac:(lia)) as B.
    change (inject_Z 1) with 1%Q in B. change (inject_Z 14) with 14%Q in B.
    destruct (fin_div_Z model _ x 15 (1 # 15) (14 # 15) Hx) as (z & q & Hz & _ & Bq & Bz).
    + simpl; lia.
    + change (inject_Z 15) with 15%Q. rewrite Ex. lra.
    + unfold bound. lra.
    + unfold bound. lra.
    + exists z. split; [assumption|]. unfold err in *. lra.
Qed.

End AverageRange.

(** X17. [thumbHashToAverageRGBA] keeps the promise of its documentation for
    every array of integers, whatever its length and content: each of [r],
    [g], [b] and [a] is a finite number between 0 and 1 (never NaN, never an
    infinity). *)
Theorem thumbHashToAverageRGBA_unit_range {fl : Float64} (model : IEEEModel) (hash : list Z) :
  unit_range (col_r (thumbHashToAverageRGBA hash)) /\
  unit_range (col_g (thumbHashToAverageRGBA hash)) /\
  unit_range (col_b (thumbHashToAverageRGBA hash)) /\
  unit_range (col_a (thumbHashToAverageRGBA hash)).
Proof.
  unfold thumbHashToAverageRGBA. cbv zeta.
  set (header := read_header24 hash).
  pose proof (band_range header 6 ltac:(lia)) as Nl.
  pose proof (band_range (JS.sar header 6) 6 ltac:(lia)) as Np.
  pose proof (band_range (JS.sar header 12) 6 ltac:(lia)) as Nq.
  pose proof (band_range (hash_at hash 5) 4 ltac:(lia)) as Na.
  change (Z.ones 6) with 63 in *. change (Z.ones 4) with 15 in *.
  change (2 ^ 6) with 64 in *. change (2 ^ 4) with 16 in *.
  assert (Ml : mag 2 (of_Z (JS.band header 63) / of_Z 63)%js)
    by (apply (unsigned_field model); lia).
  assert (Mp : mag 2 (of_Z (JS.band (JS.sar header 6) 63) / lit 31.5 - of_Z 1)%js)
    by (apply (signed_field model); lia).
  assert (Mq : mag 2 (of_Z (JS.band (JS.sar header 12) 63) / lit 31.5 - of_Z 1)%js)
    by (apply (signed_field model); lia).
  destruct (fromLPQ_finite model _ _ _ Ml Mp Mq) as ((r & Hr) & (g & Hg) & (b & Hb)).
  destruct (fromLPQ _ _ _) as [[cr cg] cb]. cbn [fst snd] in *.
  cbn [col_r col_g col_b col_a].
  split; [apply (clamp01_range model cr r Hr)|].
  split; [apply (clamp01_range model cg g Hg)|].
  split; [apply (clamp01_range model cb b Hb)|].
  destruct (negb _).
  - apply (alpha_field model). lia.
  - destruct (fin_one model) as (z1 & Hz1 & E1). exists z1. split; [assumption | lra].
Qed.

Lemma thumbHashToAverageRGBA_unit_range_witness :
  @unit_range exact (col_r (@thumbHashToAverageRGBA exact [148; 155; 170])) /\
  @unit_range exact (col_g (@thumbHashToAverageRGBA exact [148; 155; 170])) /\
  @unit_range exact (col_b (@thumbHashToAverageRGBA exact [148; 155; 170])) /\
  @unit_range exact (col_a (@thumbHashToAverageRGBA exact [148; 155; 170])).
Proof. exact (thumbHashToAverageRGBA_unit_range exact_model [148; 155; 170]). Defined.

(** ** What the header keeps of the encoder's values *)

Section Accuracy.
Context {fl : Float64}.
Hypothesis model : IEEEModel.

(** [b] is a finite number within [t] of the finite number [a] *)
Definition close (t : Q) (a b : num) : Prop :=
  exists x y, fin a x /\ fin b y /\ (- t <= y - x <= t)%Q.

(** [1 / d], half a step of the quantization, and the rounding slack *)
Definition tolerance (d : positive) : Q := (1 # d) + 3 * err.

Lemma floor_half z :
  (inject_Z (Qfloor (z + (1 # 2))) - (1 # 2) <= z < inject_Z (Qfloor (z + (1 # 2))) + (1 # 2))%Q.
Proof.
  pose proof (Qfloor_le (z + (1 # 2))) as H1.
  pose proof (Qlt_floor (z + (1 # 2))) as H2.
  rewrite inject_Z_plus in H2. change (inject_Z 1) with 1%Q in H2. lra.
Qed.

(** [round(63 * x)], read back as [n / 63] *)
Lemma requantize_63 x z :
  fin x z -> (- (1 # 200) <= z <= 1 + (1 # 200))%Q ->
  close (tolerance 126) x (of_Z (round_int (of_Z 63 * x)) / of_Z 63)%js.
Proof.
  intros Hx Bz.
  pose proof (quantize_63 model x z Hx Bz) as Hn.
  destruct (fin_of_Z model 63) as (v & Hv & Ev); [simpl; lia|].
  change (inject_Z 63) with 63%Q in Ev.
  destruct (fin_mul model _ _ v z Hv Hx) as (z' & Hz' & B').
  { rewrite Ev. unfold bound. split; lra. }
  rewrite Ev in B'.
  assert (R : round_int (of_Z 63 * x)%js = Qfloor (z' + (1 # 2))).
  { apply (round_int_fin model _ z' Hz'). unfold err in *. split.
    - apply Qle_trans with (- (1))%Q; [discriminate | lra].
    - apply Qlt_le_trans with 100%Q; [lra | discriminate]. }
  pose proof (floor_half z') as F. rewrite <- R in F.
  set (n := round_int (of_Z 63 * x)%js) in *.
  destruct (fin_of_Z model n) as (xn & Hxn & En); [simpl; lia|].
  rewrite <- En in F.
  destruct (fin_div_Z model _ xn 63 (- 1) 2 Hxn) as (y & q & Hy & Eq & _ & By).
  { simpl; lia. }
  { change (inject_Z 63) with 63%Q. unfold err in *. lra. }
  { unfold bound. lra. }
  { unfold bound. lra. }
  change (inject_Z 63) with 63%Q in Eq.
  exists z, y. split; [assumption|]. split; [assumption|].
  change (tolerance 126) with ((1 # 126) + 3 * err)%Q. unfold err in *. lra.
Qed.

(** [round(31 * x)], read back as [n / 31] *)
Lemma requantize_31 x z :
  fin x z -> (- (1 # 200) <= z <= 1 + (1 # 200))%Q ->
  close (tolerance 62) x (of_Z (round_int (of_Z 31 * x)) / of_Z 31)%js.
Proof.
  intros Hx Bz.
  pose proof (quantize_31 model x z Hx Bz) as Hn.
  destruct (fin_of_Z model 31) as (v & Hv & Ev); [simpl; lia|].
  change (inject_Z 31) with 31%Q in Ev.
  destruct (fin_mul model _ _ v z Hv Hx) as (z' & Hz' & B').
  { rewrite Ev. unfold bound. split; lra. }
  rewrite Ev in B'.
  assert (R : round_int (of_Z 31 * x)%js = Qfloor (z' + (1 # 2))).
  { apply (round_int_fin model _ z' Hz'). unfold err in *. split.
    - apply Qle_trans with (- (1))%Q; [discriminate | lra].
    - apply Qlt_le_trans with 100%Q; [lra | discriminate]. }
  pose proof (floor_half z') as F. rewrite <- R in F.
  set (n := round_int (of_Z 31 * x)%js) in *.
  destruct (fin_of_Z model n) as (xn & Hxn & En); [simpl; lia|].
  rewrite <- En in F.
  destruct (fin_div_Z model _ xn 31 (- 1) 2 Hxn) as (y & q & Hy & Eq & _ & By).
  { simpl; lia. }
  { change (inject_Z 31) with 31%Q. unfold err in *. lra. }
  { unfold bound. lra. }
  { unfold bound. lra. }
  change (inject_Z 31) with 31%Q in Eq.
  exists z, y. split; [assumption|]. split; [assumption|].
  change (tolerance 62) with ((1 # 62) + 3 * err)%Q. unfold err in *. lra.
Qed.

(** [round(31.5 + 31.5 * x)], read back as [n / 31.5 - 1] *)
Lemma requantize_signed x z :
  fin x z -> (- (1 + (1 # 200)) <= z <= 1 + (1 # 200))%Q ->
  close (tolerance 63) x
    (of_Z (round_int (lit 31.5 + lit 31.5 * x)) / lit 31.5 - of_Z 1)%js.
Proof.
  intros Hx Bz.
  pose proof (quantize_signed model x z Hx Bz) as Hn.
  destruct (fin_lit model 31.5 63 1) as (v & Hv & Ev); [simpl; lia | lia | reflexivity |].
  assert (Ev' : (v == 63 # 2)%Q) by (rewrite Ev; reflexivity).
  destruct (fin_mul model _ _ v z Hv Hx) as (z1 & Hz1 & B1).
  { rewrite Ev'. unfold bound. split; lra. }
  rewrite Ev' in B1.
  destruct (fin_add model _ _ v z1 Hv Hz1) as (z2 & Hz2 & B2).
  { rewrite Ev'. unfold bound, err in *. split; lra. }
  rewrite Ev' in B2.
  assert (R : round_int (lit 31.5 + lit 31.5 * x)%js = Qfloor (z2 + (1 # 2))).
  { apply (round_int_fin model _ z2 Hz2). unfold err in *. split.
    - apply Qle_trans with (- (1))%Q; [discriminate | lra].
    - apply Qlt_le_trans with 100%Q; [lra | discriminate]. }
  pose proof (floor_half z2) as F. rewrite <- R in F.
  set (n := round_int (lit 31.5 + lit 31.5 * x)%js) in *.
  destruct (fin_of_Z model n) as (xn & Hxn & En); [simpl; lia|].
  rewrite <- En in F.
  destruct (fin_one model) as (o & Ho & Eo).
  destruct (fin_div_pos model _ _ xn v (- 1) 3 Hxn Hv) as (d & q & Hd & Eq & _ & Bd).
  { lra. }
  { rewrite Ev'. unfold err in *. lra. }
  { unfold bound. lra. }
  { unfold bound. lra. }
  rewrite Ev' in Eq.
  destruct (fin_sub model _ _ d o Hd Ho) as (y & Hy & By).
  { unfold bound, err in *. lra. }
  exists z, y. split; [assumption|]. split; [assumption|].
  change (tolerance 63) with ((1 # 63) + 3 * err)%Q. unfold err in *. lra.
Qed.

End Accuracy.

(** X18. What the header of the hash keeps of a valid image, under the
    standard model of binary64 arithmetic: each of the six values
    [thumbHashToRGBA] reads from the header is within half a quantization
    step (and a rounding slack of [3 * 2^-38]) of the value [rgbaToThumbHash]
    computed for it: 1/126 for the luminance DC term and the two chroma
    scales, 1/63 for the two chroma DC terms, 1/62 for the luminance
    scale. *)
Theorem rgbaToThumbHash_header_accuracy {fl : Float64} (model : IEEEModel) (fuel : nat)
    cfg w h rgba :
  1 <= w <= 100 -> 1 <= h <= 100 ->
  Forall PNGSpec.is_byte rgba -> w * h * 4 <= Z.of_nat (length rgba) ->
  1 <= LUMINANCE_TERMS cfg <= 10 -> 1 <= CHROMINANCE_TERMS cfg <= 10 ->
  (10 < fuel)%nat ->
  exists hash,
    rgbaToThumbHash fuel cfg w h rgba = Ok hash /\
    let '(l, p, q) := toLPQ w h rgba (average_color w h rgba) in
    let '(ldc, _, lscale) := channel_terms w h l (LUMINANCE_TERMS cfg) in
    let '(pdc, _, pscale) := channel_terms w h p (CHROMINANCE_TERMS cfg) in
    let '(qdc, _, qscale) := channel_terms w h q (CHROMINANCE_TERMS cfg) in
    close (tolerance 126) ldc (l_dc (read_header hash)) /\
    close (tolerance 63) pdc (p_dc (read_header hash)) /\
    close (tolerance 63) qdc (q_dc (read_header hash)) /\
    close (tolerance 62) lscale (l_scale (read_header hash)) /\
    close (tolerance 126) pscale (p_scale (read_header hash)) /\
    close (tolerance 126) qscale (q_scale (read_header hash)).
Proof.
  intros Hw Hh Hb Hlen HL HC Hfuel.
  pose proof (fits_valid_image model cfg w h rgba Hw Hh Hb Hlen HL HC) as Hfit.
  destruct (encoded_hash_terms fuel cfg w h rgba ltac:(lia) ltac:(lia) HL HC Hfuel Hfit)
    as (hash & E & _ & Hd & _).
  exists hash. split; [assumption|]. rewrite Hd. clear E Hd Hfit. unfold quantize.
  pose proof (valid_image_terms model cfg w h rgba Hw Hh Hb Hlen HL HC) as T.
  destruct (toLPQ w h rgba (average_color w h rgba)) as [[l p] q]. cbn [fst snd] in T.
  destruct T as (((zl & Hzl & Bzl) & (sl & Hsl & Bsl) & _) &
                 ((zp & Hzp & Bzp) & (sp & Hsp & Bsp) & _) &
                 ((zq & Hzq & Bzq) & (sq & Hsq & Bsq) & _)).
  destruct (channel_terms w h l _) as [[ldc lac] lscale].
  destruct (channel_terms w h p _) as [[pdc pac] pscale].
  destruct (channel_terms w h q _) as [[qdc qac] qscale].
  cbn [fst snd dequantized qz_l_dc qz_p_dc qz_q_dc qz_l_scale qz_p_scale qz_q_scale
       l_dc p_dc q_dc l_scale p_scale q_scale] in *.
  unfold coef_slack, chan_slack, err in *.
  repeat split.
  - apply (requantize_63 model ldc zl Hzl). split; lra.
  - apply (requantize_signed model pdc zp Hzp). split; lra.
  - apply (requantize_signed model qdc zq Hzq). split; lra.
  - apply (requantize_31 model lscale sl Hsl). split; lra.
  - apply (requantize_63 model pscale sp Hsp). split; lra.
  - apply (requantize_63 model qscale sq Hsq). split; lra.
Qed.

Lemma rgbaToThumbHash_header_accuracy_witness :
  exists hash,
    @rgbaToThumbHash exact 11 default_config 1 1 [10; 20; 30; 255] = Ok hash /\
    let '(l, p, q) := @toLPQ exact 1 1 [10; 20; 30; 255]
                        (@average_color exact 1 1 [10; 20; 30; 255]) in
    let '(ldc, _, lscale) := channel_terms 1 1 l (LUMINANCE_TERMS default_config) in
    let '(pdc, _, pscale) := channel_terms 1 1 p (CHROMINANCE_TERMS default_config) in
    let '(qdc, _, qscale) := channel_terms 1 1 q (CHROMINANCE_TERMS default_config) in
    close (tolerance 126) ldc (l_dc (read_header hash)) /\
    close (tolerance 63) pdc (p_dc (read_header hash)) /\
    close (tolerance 63) qdc (q_dc (read_header hash)) /\
    close (tolerance 62) lscale (l_scale (read_header hash)) /\
    close (tolerance 126) pscale (p_scale (read_header hash)) /\
    close (tolerance 126) qscale (q_scale (read_header hash)).
Proof.
  apply (@rgbaToThumbHash_header_accuracy exact exact_model 11 default_config 1 1
           [10; 20; 30; 255]); try (simpl; lia).
  unfold PNGSpec.is_byte. repeat constructor; lia.
Defined.
